(** * The Step Functions frontend of unum: lowering to the unum IR

    A shallow embedding of [frontend/step-functions/sf.py].  The Python
    module keeps two module-level counters and builds its IR out of
    dictionaries that are mutated after they were returned up the call
    stack.  The embedding therefore threads an explicit program state (the
    two counters and an object store holding the IR dictionaries) through a
    small state-and-exception monad; IR dictionaries are addressed through
    handles, so that a write through one reference is seen through all of
    them. *)

From Stdlib Require Import Ascii.
From stdpp Require Import base strings list gmap pretty.

Local Open Scope list_scope.

(** ** Input: the state machine (parsed JSON) *)

(** A state machine is the JSON object [{"StartAt": ..., "States": {...}}];
    the same shape is used for the top-level machine, for the ["Iterator"]
    of a Map state and for each element of the ["Branches"] of a Parallel
    state. *)
Record state_machine_of (S : Type) : Type := StateMachine {
  StartAt : string;
  States : gmap string S
}.
Arguments StateMachine {S} _ _.
Arguments StartAt {S} _.
Arguments States {S} _.

(** A state, by its ["Type"].  [End_] is the optional ["End"] entry and
    [Next_] the optional ["Next"] entry of the JSON object.  These are the
    three kinds of state the lowering has a case for; for a state of another
    ["Type"] the Python function falls through all three tests and returns
    [None], and such states are not part of this model. *)
#[warnings="-register-all"]
Inductive state : Type :=
| Task (Resource : string) (End_ : option bool) (Next_ : option string)
| Map (Iterator : state_machine_of state) (Next_ : option string)
| Parallel (Branches : list (state_machine_of state)) (Next_ : option string).

Abbreviation state_machine := (state_machine_of state).

(** ** Output: IR dictionaries *)

(** The value stored under ["Next"]: a function name, or (for the entry of a
    Parallel) a list of function names. *)
Inductive next_value : Type :=
| NextName (target : string)
| NextNames (targets : list string).

(** The value stored under ["NextInput"]: the string ["Scalar"], the string
    ["Map"], or the dictionary [{"Fan-in": {"Values": values}}]. *)
Inductive next_input : Type :=
| Scalar
| MapInput
| Fan_in (Values : list string).

(** One IR dictionary.  A key that is absent from the dictionary is [None]. *)
Record config : Type := Config {
  Name : string;
  Next : option next_value;
  NextInput : option next_input;
  Checkpoint : option bool
}.

(** Handles of IR dictionaries in the object store. *)
Definition handle := nat.

(** The dictionary returned by [_translate_state_machine]. *)
Record result : Type := Result {
  State_Name : string;
  unum_IR : list handle;
  Entry_unum_function : handle;
  Exit_unum_function : handle
}.

(** ** Program state *)

(** Events of the store, kept as a ghost trace: the lowering never reads it.
    [NewTask] and [NewBarrier] record which dictionary literal created an
    object; [SetNext h old] records an item assignment [c["Next"] = ...] on
    an already existing dictionary, together with the value the key held
    before ([None]: the key was absent). *)
Inductive event : Type :=
| NewTask (h : handle)
| NewBarrier (h : handle)
| SetNext (h : handle) (old : option next_value).

Record globals : Type := Globals {
  unum_map_counter : nat;
  unum_parallel_counter : nat;
  heap : list config;
  trace : list event
}.

(** The state of a freshly started process. *)
Definition initial_globals : globals :=
  {| unum_map_counter := 0; unum_parallel_counter := 0; heap := []; trace := [] |}.

(** Python exceptions the module can raise.  The module defines no exception
    class of its own: a malformed Task ends in the RuntimeError of a bare
    [raise] and an unknown state name in a KeyError (both MalformedGraph in
    the words of the specification), a failed name resolution in the OSError
    or ValueError of [get_state_unum_function_name] (UnresolvedReference),
    or in the exception [load_yaml] or the attribute [keys] raises on a
    function-arn.yaml that holds no mapping. *)
Inductive exn : Type :=
| KeyError (key : string)      (* subscript of a dictionary with a missing key *)
| RuntimeError                 (* the bare [raise] of the Task case *)
| OSError                      (* function-arn.yaml cannot be opened or read *)
| ValueError (x : string)      (* [list.index] of an element not in the list *)
| AttributeError               (* [.keys()] of a value that is no dictionary *)
| YAMLError.                   (* [load_yaml] of a text that is not YAML *)

(** Outcome of a computation: a value and the new state, an exception and
    the state it was raised in, or exhaustion of the recursion budget. *)
Inductive outcome (A : Type) : Type :=
| Ok (a : A) (s : globals)
| Raise (e : exn) (s : globals)
| OutOfFuel.
Arguments Ok {A} _ _.
Arguments Raise {A} _ _.
Arguments OutOfFuel {A}.

Definition M (A : Type) : Type := globals -> outcome A.

#[global] Instance M_ret : MRet M := fun A (a : A) s => Ok a s.
#[global] Instance M_bind : MBind M := fun A B (k : A -> M B) (m : M A) s =>
  match m s with
  | Ok a s' => k a s'
  | Raise e s' => Raise e s'
  | OutOfFuel => OutOfFuel
  end.
Definition raise {A} (e : exn) : M A := fun s => Raise e s.

(** *** Store operations *)

(** A dictionary literal: allocates a new object. *)
Definition new_dict (mk : handle -> event) (c : config) : M handle :=
  fun s =>
    let h := length (heap s) in
    Ok h {| unum_map_counter := unum_map_counter s;
            unum_parallel_counter := unum_parallel_counter s;
            heap := heap s ++ [c];
            trace := trace s ++ [mk h] |}.

(** Reading an object through its handle.  The lowering only holds handles
    of objects it created, so the default is never read (see [lowered]). *)
Definition deref (h : handle) (s : globals) : config :=
  default (Config "" None None None) (heap s !! h).

(** [x["Name"]] for the object [x]. *)
Definition get_Name (h : handle) : M string :=
  fun s => Ok (Name (deref h s)) s.

Definition with_heap (f : list config -> list config) (ev : list event)
    (s : globals) : globals :=
  {| unum_map_counter := unum_map_counter s;
     unum_parallel_counter := unum_parallel_counter s;
     heap := f (heap s);
     trace := trace s ++ ev |}.

(** [x["Next"] = v] *)
Definition set_Next (h : handle) (v : next_value) : M unit :=
  fun s =>
    let c := deref h s in
    Ok tt (with_heap
             <[h := {| Name := Name c; Next := Some v;
                       NextInput := NextInput c; Checkpoint := Checkpoint c |}]>
             [SetNext h (Next c)] s).

(** [x["NextInput"] = v] *)
Definition set_NextInput (h : handle) (v : next_input) : M unit :=
  fun s =>
    let c := deref h s in
    Ok tt (with_heap
             <[h := {| Name := Name c; Next := Next c;
                       NextInput := Some v; Checkpoint := Checkpoint c |}]>
             [] s).

(** [x["Checkpoint"] = v] *)
Definition set_Checkpoint (h : handle) (v : bool) : M unit :=
  fun s =>
    let c := deref h s in
    Ok tt (with_heap
             <[h := {| Name := Name c; Next := Next c;
                       NextInput := NextInput c; Checkpoint := Some v |}]>
             [] s).

(** Reading the counters, and [counter = counter + 1]. *)
Definition get_unum_map_counter : M nat :=
  fun s => Ok (unum_map_counter s) s.
Definition get_unum_parallel_counter : M nat :=
  fun s => Ok (unum_parallel_counter s) s.
Definition incr_unum_map_counter : M unit :=
  fun s => Ok tt {| unum_map_counter := unum_map_counter s + 1;
                    unum_parallel_counter := unum_parallel_counter s;
                    heap := heap s; trace := trace s |}.
Definition incr_unum_parallel_counter : M unit :=
  fun s => Ok tt {| unum_map_counter := unum_map_counter s;
                    unum_parallel_counter := unum_parallel_counter s + 1;
                    heap := heap s; trace := trace s |}.

(** ** [get_state_unum_function_name] *)

(** [needle in hay] on Python strings. *)
Fixpoint str_in (needle hay : string) : bool :=
  String.prefix needle hay ||
  match hay with
  | EmptyString => false
  | String _ hay' => str_in needle hay'
  end.

(** [list(m.keys())[list(m.values()).index(x)]]: the key of the first entry
    of the mapping whose value is [x]; [list.index] raises ValueError when
    there is none. *)
Fixpoint key_of_first_value (m : list (string * string)) (x : string) : option string :=
  match m with
  | [] => None
  | (k, v) :: m' => if String.eqb v x then Some k else key_of_first_value m' x
  end.

(** What [load_yaml] makes of the text of [function-arn.yaml]: a mapping
    from function names to ARNs (its entries in file order; names and ARNs
    are strings, as [create_function_arn_mapping] writes them); a value
    that is no mapping ([None] for an empty file, a scalar or a sequence);
    or no value at all, when the text is not YAML and [load_yaml] raises. *)
Inductive yaml_document : Type :=
| Mapping (arn_to_name_mapping : list (string * string))
| NotAMapping
| Unparsable.

(** The environment of the run: the file [function-arn.yaml] as [load_yaml]
    sees it, or [None] when the file cannot be opened. *)
Definition arn_file := option yaml_document.

(** The two [try] blocks re-raise what they catch: the first the exception
    of [open] or of [load_yaml], the second the AttributeError of [.keys()]
    on a value that is no dictionary or the ValueError of [.index]. *)
Definition get_state_unum_function_name (file : arn_file) (Resource : string) : M string :=
  if str_in "arn:aws:lambda" Resource then
    match file with
    | None => raise OSError
    | Some Unparsable => raise YAMLError
    | Some NotAMapping => raise AttributeError
    | Some (Mapping arn_to_name_mapping) =>
        match key_of_first_value arn_to_name_mapping Resource with
        | Some function_name => mret function_name
        | None => raise (ValueError Resource)
        end
    end
  else mret Resource.

(** ** [lambda_state] *)

(** [s.split(sep)] for a separator of one character: the fields between
    the occurrences of [sep]; there is always at least one field. *)
Fixpoint split (sep : ascii) (s : string) : list string :=
  match s with
  | EmptyString => [EmptyString]
  | String c s' =>
      if Ascii.eqb c sep then EmptyString :: split sep s'
      else match split sep s' with
           | field :: fields => String c field :: fields
           | [] => [String c EmptyString]
           end
  end.

(** The exceptions of a subscript: of a dictionary with a missing key, of a
    list with an index out of range. *)
Inductive subscript_error : Type :=
| MissingKey (key : string)
| IndexError.

(** [state["Resource"]]: only Task states have the key. *)
Definition state_Resource (st : state) : subscript_error + string :=
  match st with
  | Task Resource _ _ => inr Resource
  | _ => inl (MissingKey "Resource")
  end.

(** [lambda_state(state)]: the resource is a plain name, or an ARN whose
    third field is ["lambda"]. *)
Definition lambda_state (st : state) : subscript_error + bool :=
  match state_Resource st with
  | inl e => inl e
  | inr Resource =>
      if negb (str_in ":" Resource) then inr true
      else
        match split ":" Resource !! 2 with
        | None => inl IndexError
        | Some service =>
            if String.eqb service "lambda" then inr true else inr false
        end
  end.

(** ** The lowering: [_translate_state_machine] and [translate_state_machine] *)

(** An IR dictionary with only a ["Name"], and one with ["Name"], ["Next"]
    and ["NextInput"]. *)
Definition named (n : string) : config :=
  {| Name := n; Next := None; NextInput := None; Checkpoint := None |}.
Definition named_next (n : string) (nx : next_value) (ni : next_input) : config :=
  {| Name := n; Next := Some nx; NextInput := Some ni; Checkpoint := None |}.

(** [[f'{branches[i]["Exit unum function"]["Name"]}-unumIndex-{i}'
      for i in range(len(branches))]] *)
Definition parallel_fan_in_values (branches : list result) : M (list string) :=
  fun s =>
    Ok (imap (fun i b =>
                Name (deref (Exit_unum_function b) s) +:+ "-unumIndex-" +:+ pretty i)
             branches) s.

(** [[b["Entry unum function"]["Name"] for b in branches]] *)
Definition get_entry_names (branches : list result) : M (list string) :=
  fun s => Ok (map (fun b => Name (deref (Entry_unum_function b) s)) branches) s.

(** The loop [for b in branches: ...] of the Parallel case; it returns the
    extended [ir]. *)
Fixpoint for_b_in_branches (parallel_fan_in_vals : list string)
    (unum_parallel_sink : handle) (branches : list result) (ir : list handle)
    : M (list handle) :=
  match branches with
  | [] => mret ir
  | b :: branches' =>
      let ir := ir ++ unum_IR b in
      set_NextInput (Exit_unum_function b) (Fan_in parallel_fan_in_vals);;
      sink_name ← get_Name unum_parallel_sink;
      set_Next (Exit_unum_function b) (NextName sink_name);;
      for_b_in_branches parallel_fan_in_vals unum_parallel_sink branches' ir
  end.

(** The common tail of the Map and Parallel cases: [if "Next" in state]. *)
Definition wire_successor (lower : string -> M result) (state_name : string)
    (Next_ : option string) (ir : list handle) (entry sink : handle) : M result :=
  match Next_ with
  | Some next =>
      next_state ← lower next;
      entry_name ← get_Name (Entry_unum_function next_state);
      set_Next sink (NextName entry_name);;
      set_NextInput sink Scalar;;
      mret {| State_Name := state_name;
              unum_IR := ir ++ unum_IR next_state;
              Entry_unum_function := entry;
              Exit_unum_function := Exit_unum_function next_state |}
  | None =>
      mret {| State_Name := state_name;
              unum_IR := ir;
              Entry_unum_function := entry;
              Exit_unum_function := sink |}
  end.

Section Lowering.

(** The content of [function-arn.yaml] during the run. *)
Variable file : arn_file.

(** The recursion of the Python code follows ["Next"] names, which may form
    a cycle; [fuel] bounds the depth of the call stack. *)
Fixpoint _translate_state_machine (fuel : nat) (state_name : string)
    (state_machine : state_machine) {struct fuel} : M result :=
  match fuel with
  | 0 => fun _ => OutOfFuel
  | S fuel =>
    match States state_machine !! state_name with
    | None => raise (KeyError state_name)
    | Some (Task Resource End_ Next_) =>
        unum_function_name ← get_state_unum_function_name file Resource;
        if bool_decide (End_ = Some true) then
          config ← new_dict NewTask (named unum_function_name);
          mret {| State_Name := state_name;
                  unum_IR := [config];
                  Entry_unum_function := config;
                  Exit_unum_function := config |}
        else
          match Next_ with
          | Some next =>
              next_state ← _translate_state_machine fuel next state_machine;
              entry_name ← get_Name (Entry_unum_function next_state);
              config ← new_dict NewTask
                         (named_next unum_function_name (NextName entry_name) Scalar);
              mret {| State_Name := state_name;
                      unum_IR := [config] ++ unum_IR next_state;
                      Entry_unum_function := config;
                      Exit_unum_function := Exit_unum_function next_state |}
          | None => raise RuntimeError
          end
    | Some (Map Iterator Next_) =>
        iterator ← translate_state_machine fuel Iterator;
        n ← get_unum_map_counter;
        entry_name ← get_Name (Entry_unum_function iterator);
        unum_map ← new_dict NewBarrier
                     (named_next ("UnumMap" +:+ pretty n) (NextName entry_name) MapInput);
        unum_map_sink ← new_dict NewBarrier (named ("UnumMapSink" +:+ pretty n));
        incr_unum_map_counter;;
        sink_name ← get_Name unum_map_sink;
        set_Next (Exit_unum_function iterator) (NextName sink_name);;
        exit_name ← get_Name (Exit_unum_function iterator);
        set_NextInput (Exit_unum_function iterator)
                      (Fan_in [exit_name +:+ "-unumIndex-*"]);;
        let ir := [unum_map] ++ unum_IR iterator ++ [unum_map_sink] in
        wire_successor (fun next => _translate_state_machine fuel next state_machine)
                       state_name Next_ ir unum_map unum_map_sink
    | Some (Parallel Branches Next_) =>
        branches ← mapM (translate_state_machine fuel) Branches;
        n ← get_unum_parallel_counter;
        entry_names ← get_entry_names branches;
        unum_parallel ← new_dict NewBarrier
                          (named_next ("UnumParallel" +:+ pretty n)
                                      (NextNames entry_names) Scalar);
        let ir := [unum_parallel] in
        unum_parallel_sink ← new_dict NewBarrier (named ("UnumParallelSink" +:+ pretty n));
        incr_unum_parallel_counter;;
        parallel_fan_in_vals ← parallel_fan_in_values branches;
        ir ← for_b_in_branches parallel_fan_in_vals unum_parallel_sink branches ir;
        let ir := ir ++ [unum_parallel_sink] in
        wire_successor (fun next => _translate_state_machine fuel next state_machine)
                       state_name Next_ ir unum_parallel unum_parallel_sink
    end
  end
with translate_state_machine (fuel : nat) (state_machine : state_machine)
    {struct fuel} : M result :=
  match fuel with
  | 0 => fun _ => OutOfFuel
  | S fuel =>
    let entry_state_name := StartAt state_machine in
    match States state_machine !! entry_state_name with
    | None => raise (KeyError entry_state_name)
    | Some entry_state =>
        _translate_state_machine fuel entry_state_name state_machine
    end
  end.

(** ** [main]: the checkpoint pass *)

(** ["NextInput" in c and "Fan-in" in c["NextInput"]]: the second test is a
    key test on the fan-in dictionary and a substring test on the strings
    ["Scalar"] and ["Map"], which do not contain ["Fan-in"]. *)
Definition has_Fan_in (c : config) : bool :=
  match NextInput c with
  | Some (Fan_in _) => true
  | Some Scalar => str_in "Fan-in" "Scalar"
  | Some MapInput => str_in "Fan-in" "Map"
  | None => false
  end.

(** The loop [for c in ir["unum IR"]: ...]. *)
Fixpoint for_c_in_ir (template_Globals_Checkpoint : bool) (ir : list handle) : M unit :=
  match ir with
  | [] => mret tt
  | c :: ir' =>
      (fun s =>
         if has_Fan_in (deref c s) then set_Checkpoint c true s
         else set_Checkpoint c template_Globals_Checkpoint s);;
      for_c_in_ir template_Globals_Checkpoint ir'
  end.

(** [main], from the parsed workflow on; [template_Globals_Checkpoint] is
    [template["Globals"]["Checkpoint"]].  It returns what is printed. *)
Definition main (fuel : nat) (state_machine : state_machine)
    (template_Globals_Checkpoint : bool) : M result :=
  ir ← translate_state_machine fuel state_machine;
  for_c_in_ir template_Globals_Checkpoint (unum_IR ir);;
  mret ir.

End Lowering.

(** The IR as it is printed: the dictionaries the list refers to. *)
Definition IR_of (r : result) (s : globals) : list config :=
  map (fun h => deref h s) (unum_IR r).

(** The names of the printed IR, in order. *)
Definition names_of (r : result) (s : globals) : list string :=
  Name <$> IR_of r s.

(** What a run prints, if it prints. *)
Definition emitted {A B} (f : A -> globals -> B) (o : outcome A) : option B :=
  match o with
  | Ok a s => Some (f a s)
  | _ => None
  end.

(** * Vocabulary of the properties *)

(** The name of the IR dictionary behind a handle. *)
Definition name_of (s : globals) (h : handle) : string := Name (deref h s).

(** The dictionaries created for Task states, and those created as
    barriers of Map and Parallel states, in a piece of the trace. *)
Definition task_handles (t : list event) : list handle :=
  omap (fun e => match e with NewTask h => Some h | _ => None end) t.
Definition barrier_handles (t : list event) : list handle :=
  omap (fun e => match e with NewBarrier h => Some h | _ => None end) t.

(** An item assignment to ["Next"] that does not replace a value. *)
Definition fresh_write (e : event) : Prop :=
  match e with
  | SetNext _ old => old = None
  | _ => True
  end.

(** The events added to the trace between the states [s0] and [s]. *)
Definition new_events (s0 s : globals) : list event :=
  drop (length (trace s0)) (trace s).

(** The barrier names for the map counter values [m <= n < m'] and the
    parallel counter values [p <= n < p']. *)
Definition barrier_names (m m' p p' : nat) : list string :=
  (n ← seq m (m' - m); ["UnumMap" +:+ pretty n; "UnumMapSink" +:+ pretty n]) ++
  (n ← seq p (p' - p); ["UnumParallel" +:+ pretty n; "UnumParallelSink" +:+ pretty n]).

(** [region s0 ir s]: the program went from state [s0] to state [s], and
    [ir] lists the dictionaries created on the way.  Counters only grow;
    dictionaries that existed in [s0] are untouched; every new dictionary
    is listed once; no ["Next"] was overwritten; and the barriers created
    carry the names of the counter values consumed. *)
Record region (s0 : globals) (ir : list handle) (s : globals) : Prop := Region {
  rg_map_counter : unum_map_counter s0 ≤ unum_map_counter s;
  rg_parallel_counter : unum_parallel_counter s0 ≤ unum_parallel_counter s;
  rg_length : length (heap s0) ≤ length (heap s);
  rg_frame : ∀ h, h < length (heap s0) → deref h s = deref h s0;
  rg_IR : ir ≡ₚ seq (length (heap s0)) (length (heap s) - length (heap s0));
  rg_trace : trace s = trace s0 ++ new_events s0 s;
  rg_fresh : Forall fresh_write (new_events s0 s);
  rg_created :
    task_handles (new_events s0 s) ++ barrier_handles (new_events s0 s) ≡ₚ ir;
  rg_barrier_names :
    name_of s <$> barrier_handles (new_events s0 s) ≡ₚ
    barrier_names (unum_map_counter s0) (unum_map_counter s)
                  (unum_parallel_counter s0) (unum_parallel_counter s)
}.

(** What a successful call of the lowering guarantees to its caller: the
    result lists the dictionaries it created, entry and exit are among
    them, and the exit has neither ["Next"] nor ["NextInput"]. *)
Record lowered (s : globals) (r : result) (s' : globals) : Prop := Lowered {
  lw_region : region s (unum_IR r) s';
  lw_entry : Entry_unum_function r ∈ unum_IR r;
  lw_exit : Exit_unum_function r ∈ unum_IR r;
  lw_exit_Next : Next (deref (Exit_unum_function r) s') = None;
  lw_exit_NextInput : NextInput (deref (Exit_unum_function r) s') = None
}.

(** The fan-in dictionary entry written on the exit of a branch. *)
Definition fanned_in (sink_name : string) (vals : list string) (c : config) : config :=
  {| Name := Name c; Next := Some (NextName sink_name);
     NextInput := Some (Fan_in vals); Checkpoint := Checkpoint c |}.

(** What the list comprehension over the branches guarantees. *)
Record branches_lowered (s : globals) (bs : list result) (s' : globals) : Prop := {
  bl_region : region s (bs ≫= unum_IR) s';
  bl_entry : Forall (fun b => Entry_unum_function b ∈ unum_IR b) bs;
  bl_exit : Forall (fun b => Exit_unum_function b ∈ unum_IR b) bs;
  bl_exit_Next : Forall (fun b => Next (deref (Exit_unum_function b) s') = None) bs;
  bl_exit_NextInput : Forall (fun b => NextInput (deref (Exit_unum_function b) s') = None) bs
}.

(** [c["Checkpoint"] = v] on a dictionary. *)
Definition checkpointed (v : bool) (c : config) : config :=
  {| Name := Name c; Next := Next c; NextInput := NextInput c; Checkpoint := Some v |}.

(** The policy of the checkpoint pass. *)
Definition checkpoint_policy (template_Globals_Checkpoint : bool) (c : config) : bool :=
  if has_Fan_in c then true else template_Globals_Checkpoint.

(** The name [get_state_unum_function_name] computes, or the exception it
    raises; it does not depend on the program state. *)
Definition resolve (file : arn_file) (Resource : string) : exn + string :=
  if str_in "arn:aws:lambda" Resource then
    match file with
    | None => inl OSError
    | Some Unparsable => inl YAMLError
    | Some NotAMapping => inl AttributeError
    | Some (Mapping arn_to_name_mapping) =>
        match key_of_first_value arn_to_name_mapping Resource with
        | Some function_name => inr function_name
        | None => inl (ValueError Resource)
        end
    end
  else inr Resource.

(** What a run of the lowering prints: the IR, or the exception that ended
    it ([None] when the call stack was exhausted). *)
Definition printed (o : outcome result) : list config + option exn :=
  match o with
  | Ok r s => inl (IR_of r s)
  | Raise e _ => inr (Some e)
  | OutOfFuel => inr None
  end.

(** The state a run leaves behind. *)
Definition state_after {A} (o : outcome A) (s : globals) : globals :=
  match o with
  | Ok _ s' => s'
  | Raise _ s' => s'
  | OutOfFuel => s
  end.

(** A state machine made of Task states only. *)
Definition Tasks_only (sm : state_machine) : Prop :=
  ∀ name st, States sm !! name = Some st → ∃ R E N, st = Task R E N.

(** Whether [run] succeeds, raises or runs out of fuel, and the IR it prints,
    do not depend on the state it starts in. *)
Definition state_independent (run : M result) : Prop :=
  (∀ s, run s = OutOfFuel) ∨
  (∃ e, ∀ s, run s = Raise e s) ∨
  (∃ ir entry_name,
     ∀ s, ∃ r s', run s = Ok r s' ∧ IR_of r s' = ir ∧
                  name_of s' (Entry_unum_function r) = entry_name).

(** ** Concrete workflows *)

(** Scenario 2: a Map whose iterator is the single terminal Task "f3". *)
Definition scenario2_iterator : state_machine :=
  StateMachine "T" {[ "T" := Task "f3" (Some true) None ]}.
Definition scenario2 : state_machine :=
  StateMachine "M" {[ "M" := Map scenario2_iterator None ]}.

(** Scenario 3: a Parallel with the two single-Task branches "f4" and "f5". *)
Definition scenario3_branches : list state_machine :=
  [ StateMachine "T" {[ "T" := Task "f4" (Some true) None ]};
    StateMachine "T" {[ "T" := Task "f5" (Some true) None ]} ].
Definition scenario3 : state_machine :=
  StateMachine "P" {[ "P" := Parallel scenario3_branches None ]}.

(** A Map whose iterator is itself a Map over the terminal Task "f3". *)
Definition nested_maps_inner : state_machine :=
  StateMachine "Inner" {[ "Inner" := Map scenario2_iterator None ]}.
Definition nested_maps : state_machine :=
  StateMachine "Outer" {[ "Outer" := Map nested_maps_inner None ]}.

(** Two Task states with the same resource. *)
Definition same_resource_twice : state_machine :=
  StateMachine "A" {[ "A" := Task "f" None (Some "B"); "B" := Task "f" (Some true) None ]}.

(** The chain of three Task states A -> B -> C(End) over the resources [rA],
    [rB] and [rC]. *)
Definition chain_ABC (rA rB rC : string) : state_machine :=
  StateMachine "A"
    {[ "A" := Task rA None (Some "B");
       "B" := Task rB None (Some "C");
       "C" := Task rC (Some true) None ]}.

(** The IR of the chain for the step names [nA], [nB] and [nC]. *)
Definition chain_IR (nA nB nC : string) : list config :=
  [ named_next nA (NextName nB) Scalar; named_next nB (NextName nC) Scalar; named nC ].

(** A Parallel state without branches. *)
Definition empty_Parallel : state_machine :=
  StateMachine "P" {[ "P" := Parallel [] None ]}.

(** A Task state with neither ["End"] nor ["Next"] whose resource is a
    Lambda ARN. *)
Definition dangling_arn_Task : state_machine :=
  StateMachine "T"
    {[ "T" := Task "arn:aws:lambda:us-east-1:123456789012:function:f" None None ]}.

(** A Task state with neither ["End"] nor ["Next"] whose resource is a
    plain function name. *)
Definition dangling_Task : state_machine :=
  StateMachine "T" {[ "T" := Task "f1" None None ]}.

(** Scenario 2 as the specification words it, the ["Checkpoint"] of the
    first dictionary being left open there. *)
Definition Scenario2_expected_IR (c0 : option bool) : list config :=
  [ {| Name := "UnumMap0"; Next := Some (NextName "f3");
       NextInput := Some MapInput; Checkpoint := c0 |};
    {| Name := "f3"; Next := Some (NextName "UnumMapSink0");
       NextInput := Some (Fan_in ["f3-unumIndex-*"]); Checkpoint := Some true |};
    {| Name := "UnumMapSink0"; Next := None; NextInput := None;
       Checkpoint := Some true |} ].

(** ** Vocabulary of the further properties *)

(** [':'.join(fields)] *)
Fixpoint join_colon (fields : list string) : string :=
  match fields with
  | [] => ""
  | [f] => f
  | f :: fields' => f +:+ ":" +:+ join_colon fields'
  end.

(** The four shapes of a continuation: ["Next"] and ["NextInput"] are both
    present, and a list of names only comes with ["Scalar"]. *)
Definition continuation_ok (c : config) : Prop :=
  match Next c, NextInput c with
  | Some (NextName _), Some Scalar
  | Some (NextName _), Some MapInput
  | Some (NextName _), Some (Fan_in _)
  | Some (NextNames _), Some Scalar => True
  | _, _ => False
  end.

(** What the IR of a successful lowering looks like: the entry comes first
    and the exit last, no dictionary has a ["Checkpoint"], and every
    dictionary but the exit has a continuation. *)
Record wired (r : result) (s' : globals) : Prop := Wired {
  wd_head : head (unum_IR r) = Some (Entry_unum_function r);
  wd_last : last (unum_IR r) = Some (Exit_unum_function r);
  wd_Checkpoint : ∀ h, h ∈ unum_IR r → Checkpoint (deref h s') = None;
  wd_continuation :
    ∀ h, h ∈ unum_IR r → h ≠ Exit_unum_function r → continuation_ok (deref h s')
}.

(** The names a dictionary hands its result to. *)
Definition next_names (c : config) : list string :=
  match Next c with
  | Some (NextName n) => [n]
  | Some (NextNames l) => l
  | None => []
  end.

(** Every name in the ["Next"] of dictionary [h] is the name of a dictionary
    of [ir]. *)
Definition targets_in (ir : list handle) (s : globals) (h : handle) : Prop :=
  ∀ n, n ∈ next_names (deref h s) → ∃ h', h' ∈ ir ∧ name_of s h' = n.

(** The IR is closed: no ["Next"] leaves it. *)
Definition closed (r : result) (s' : globals) : Prop :=
  ∀ h, h ∈ unum_IR r → targets_in (unum_IR r) s' h.

(** [m'] agrees with [m] wherever [m] does not exhaust the recursion
    budget. *)
Definition agrees_beyond {A} (m m' : M A) : Prop :=
  ∀ s, m s ≠ OutOfFuel → m' s = m s.

(** Every exception [m] raises satisfies [P]. *)
Definition raises_only {A} (P : exn → Prop) (m : M A) : Prop :=
  ∀ s e s', m s = Raise e s' → P e.

(** Where the exceptions of the name resolution come from: OSError only
    from a mapping file that cannot be opened, YAMLError only from one that
    is not YAML, AttributeError only from one that holds no mapping, and
    ValueError only from a Lambda ARN that is missing from the mapping. *)
Definition explained_by (file : arn_file) (e : exn) : Prop :=
  match e with
  | OSError => file = None
  | YAMLError => file = Some Unparsable
  | AttributeError => file = Some NotAMapping
  | ValueError Resource =>
      ∃ m, file = Some (Mapping m) ∧ (Resource ∉ m.*2) ∧
           str_in "arn:aws:lambda" Resource = true
  | KeyError _ | RuntimeError => True
  end.

(** Two outcomes of the same kind: both a result, both the same exception,
    or both an exhausted recursion budget. *)
Definition same_kind {A B} (o1 : outcome A) (o2 : outcome B) : Prop :=
  match o1, o2 with
  | Ok _ _, Ok _ _ => True
  | Raise e1 _, Raise e2 _ => e1 = e2
  | OutOfFuel, OutOfFuel => True
  | _, _ => False
  end.

(** The kind of outcome of [m] is the same in every state. *)
Definition state_blind {A} (m : M A) : Prop :=
  ∀ s1 s2, same_kind (m s1) (m s2).


(** A state from which every chain of ["Next"] names ends in a terminal
    Task: the names exist, the resources of the Task states resolve, every
    Task has a true ["End"] or a ["Next"], and the iterators and branches
    on the way are state machines whose ["StartAt"] is such a state. *)
Inductive reaches_End (file : arn_file) : string → state_machine → Prop :=
| reaches_End_Task name sm Resource Next_ u :
    States sm !! name = Some (Task Resource (Some true) Next_) →
    resolve file Resource = inr u →
    reaches_End file name sm
| reaches_End_Next name sm Resource End_ next u :
    States sm !! name = Some (Task Resource End_ (Some next)) →
    End_ ≠ Some true →
    resolve file Resource = inr u →
    reaches_End file next sm →
    reaches_End file name sm
| reaches_End_Map name sm Iterator Next_ :
    States sm !! name = Some (Map Iterator Next_) →
    machine_ok file Iterator →
    (∀ next, Next_ = Some next → reaches_End file next sm) →
    reaches_End file name sm
| reaches_End_Parallel name sm Branches Next_ :
    States sm !! name = Some (Parallel Branches Next_) →
    machines_ok file Branches →
    (∀ next, Next_ = Some next → reaches_End file next sm) →
    reaches_End file name sm
with machine_ok (file : arn_file) : state_machine → Prop :=
| machine_ok_StartAt sm :
    reaches_End file (StartAt sm) sm → machine_ok file sm
with machines_ok (file : arn_file) : list state_machine → Prop :=
| machines_ok_nil : machines_ok file []
| machines_ok_cons sm sms :
    machine_ok file sm → machines_ok file sms → machines_ok file (sm :: sms).

Scheme reaches_End_mut := Minimality for reaches_End Sort Prop
  with machine_ok_mut := Minimality for machine_ok Sort Prop
  with machines_ok_mut := Minimality for machines_ok Sort Prop.
Combined Scheme well_formed_ind from reaches_End_mut, machine_ok_mut, machines_ok_mut.

(** ** Further concrete workflows *)

(** A terminal Task that also names a successor, which does not exist. *)
Definition End_and_Next : state_machine :=
  StateMachine "A" {[ "A" := Task "f" (Some true) (Some "Z") ]}.

(** A state machine whose ["StartAt"] names no state. *)
Definition dangling_StartAt : state_machine :=
  StateMachine "X" {[ "A" := Task "f" (Some true) None ]}.

(** A Task, a Map and a Parallel state whose ["Next"] names no state. *)
Definition dangling_Next : state_machine :=
  StateMachine "A" {[ "A" := Task "f" None (Some "Z") ]}.
Definition dangling_Map_Next : state_machine :=
  StateMachine "M" {[ "M" := Map scenario2_iterator (Some "Z") ]}.
Definition dangling_Parallel_Next : state_machine :=
  StateMachine "P" {[ "P" := Parallel scenario3_branches (Some "Z") ]}.

(** Two Task states that name each other as successor. *)
Definition two_cycle : state_machine :=
  StateMachine "A" {[ "A" := Task "f" None (Some "B"); "B" := Task "g" None (Some "A") ]}.

(** A Map followed by a terminal Task. *)
Definition Map_then_Task : state_machine :=
  StateMachine "M"
    {[ "M" := Map scenario2_iterator (Some "T"); "T" := Task "f9" (Some true) None ]}.

(** A terminal Task whose resource is a Lambda ARN that [two_functions]
    does not hold. *)
Definition unknown_arn_Task : state_machine :=
  StateMachine "T" {[ "T" := Task "arn:aws:lambda:x" (Some true) None ]}.

(** A [function-arn.yaml] with two functions. *)
Definition two_functions : list (string * string) :=
  [ ("F", "arn:aws:lambda:us-east-1:123456789012:function:f");
    ("G", "arn:aws:lambda:us-east-1:123456789012:function:g") ].

(** * Reasoning about the monad *)

Lemma bind_Ok {A B} (m : M A) (k : A -> M B) s b s' :
  (m ≫= k) s = Ok b s' ↔ ∃ a s1, m s = Ok a s1 ∧ k a s1 = Ok b s'.
Proof.
  unfold mbind, M_bind. split.
  - destruct (m s) as [a s1| |] eqn:E; try discriminate. eauto.
  - intros (a & s1 & -> & H). exact H.
Qed.

Lemma mret_Ok {A} (a b : A) s s' : mret (M := M) a s = Ok b s' ↔ a = b ∧ s = s'.
Proof. unfold mret, M_ret. split; [intros H; split; congruence | by intros [-> ->]]. Qed.

(** Splits a successful run of a bind into its two steps. *)
Ltac inv_bind H :=
  let a := fresh "a" in let s1 := fresh "s" in
  let H1 := fresh "Hstep" in
  apply bind_Ok in H as (a & s1 & H1 & H).

Lemma mapM_Ok_nil {A B} (f : A -> M B) s k s' :
  mapM f [] s = Ok k s' ↔ k = [] ∧ s' = s.
Proof. simpl. rewrite mret_Ok. split; intros [-> ->]; done. Qed.

Lemma mapM_Ok_cons {A B} (f : A -> M B) x l s k s' :
  mapM f (x :: l) s = Ok k s' ↔
  ∃ y s1 k', f x s = Ok y s1 ∧ mapM f l s1 = Ok k' s' ∧ k = y :: k'.
Proof.
  change (mapM f (x :: l)) with (y ← f x; k ← mapM f l; mret (y :: k)).
  rewrite bind_Ok. split.
  - intros (y & s1 & Hy & H). apply bind_Ok in H as (k' & s2 & Hk & H).
    apply mret_Ok in H as [<- <-]. eauto 6.
  - intros (y & s1 & k' & Hy & Hk & ->). exists y, s1. split; [done|].
    apply bind_Ok. exists k', s'. split; [done|]. by apply mret_Ok.
Qed.

(** * The store operations *)

Lemma new_dict_Ok mk c s h s' :
  new_dict mk c s = Ok h s' →
  h = length (heap s) ∧ heap s' = heap s ++ [c] ∧ trace s' = trace s ++ [mk h] ∧
  unum_map_counter s' = unum_map_counter s ∧
  unum_parallel_counter s' = unum_parallel_counter s.
Proof. by intros [= <- <-]. Qed.

Lemma set_Next_Ok h v s u s' :
  set_Next h v s = Ok u s' →
  heap s' = <[h := {| Name := Name (deref h s); Next := Some v;
                      NextInput := NextInput (deref h s);
                      Checkpoint := Checkpoint (deref h s) |}]> (heap s) ∧
  trace s' = trace s ++ [SetNext h (Next (deref h s))] ∧
  unum_map_counter s' = unum_map_counter s ∧
  unum_parallel_counter s' = unum_parallel_counter s.
Proof. by intros [= _ <-]. Qed.

Lemma set_NextInput_Ok h v s u s' :
  set_NextInput h v s = Ok u s' →
  heap s' = <[h := {| Name := Name (deref h s); Next := Next (deref h s);
                      NextInput := Some v;
                      Checkpoint := Checkpoint (deref h s) |}]> (heap s) ∧
  trace s' = trace s ∧
  unum_map_counter s' = unum_map_counter s ∧
  unum_parallel_counter s' = unum_parallel_counter s.
Proof. intros [= _ <-]. simpl. by rewrite app_nil_r. Qed.

Lemma set_Checkpoint_Ok h v s u s' :
  set_Checkpoint h v s = Ok u s' →
  heap s' = <[h := {| Name := Name (deref h s); Next := Next (deref h s);
                      NextInput := NextInput (deref h s);
                      Checkpoint := Some v |}]> (heap s) ∧
  trace s' = trace s ∧
  unum_map_counter s' = unum_map_counter s ∧
  unum_parallel_counter s' = unum_parallel_counter s.
Proof. intros [= _ <-]. simpl. by rewrite app_nil_r. Qed.

Lemma deref_app_old s s' l h :
  heap s' = heap s ++ l → h < length (heap s) → deref h s' = deref h s.
Proof. intros Hh ?. unfold deref. by rewrite Hh, lookup_app_l. Qed.

Lemma deref_app_new s s' c :
  heap s' = heap s ++ [c] → deref (length (heap s)) s' = c.
Proof. intros Hh. unfold deref. by rewrite Hh, list_lookup_middle. Qed.

Lemma deref_insert_ne s s' h c h' :
  heap s' = <[h := c]> (heap s) → h' ≠ h → deref h' s' = deref h' s.
Proof. intros Hh ?. unfold deref. by rewrite Hh, list_lookup_insert_ne. Qed.

Lemma deref_insert_eq s s' h c :
  heap s' = <[h := c]> (heap s) → h < length (heap s) → deref h s' = c.
Proof. intros Hh ?. unfold deref. by rewrite Hh, list_lookup_insert_eq. Qed.

Lemma name_of_insert s s' h c :
  heap s' = <[h := c]> (heap s) → Name c = Name (deref h s) →
  ∀ h', name_of s' h' = name_of s h'.
Proof.
  intros Hh Hn h'. unfold name_of.
  destruct (decide (h' = h)) as [->|]; [|by erewrite deref_insert_ne].
  destruct (decide (h < length (heap s))).
  - by erewrite deref_insert_eq.
  - unfold deref. by rewrite Hh, list_insert_ge by lia.
Qed.

Lemma get_Name_Ok h s a s' : get_Name h s = Ok a s' → a = name_of s h ∧ s' = s.
Proof. by intros [= <- <-]. Qed.

Lemma get_unum_map_counter_Ok s a s' :
  get_unum_map_counter s = Ok a s' → a = unum_map_counter s ∧ s' = s.
Proof. by intros [= <- <-]. Qed.

Lemma get_unum_parallel_counter_Ok s a s' :
  get_unum_parallel_counter s = Ok a s' → a = unum_parallel_counter s ∧ s' = s.
Proof. by intros [= <- <-]. Qed.

Lemma incr_unum_map_counter_Ok s u s' :
  incr_unum_map_counter s = Ok u s' →
  heap s' = heap s ∧ trace s' = trace s ∧
  unum_map_counter s' = unum_map_counter s + 1 ∧
  unum_parallel_counter s' = unum_parallel_counter s.
Proof. by intros [= _ <-]. Qed.

Lemma incr_unum_parallel_counter_Ok s u s' :
  incr_unum_parallel_counter s = Ok u s' →
  heap s' = heap s ∧ trace s' = trace s ∧
  unum_map_counter s' = unum_map_counter s ∧
  unum_parallel_counter s' = unum_parallel_counter s + 1.
Proof. by intros [= _ <-]. Qed.

Lemma get_entry_names_Ok bs s a s' :
  get_entry_names bs s = Ok a s' →
  a = (fun b => name_of s (Entry_unum_function b)) <$> bs ∧ s' = s.
Proof. by intros [= <- <-]. Qed.

Lemma parallel_fan_in_values_Ok bs s a s' :
  parallel_fan_in_values bs s = Ok a s' →
  a = imap (fun i b => name_of s (Exit_unum_function b) +:+ "-unumIndex-" +:+ pretty i) bs
  ∧ s' = s.
Proof. by intros [= <- <-]. Qed.

(** * Regions *)

Lemma seq_range_split a b c :
  a ≤ b → b ≤ c → seq a (c - a) = seq a (b - a) ++ seq b (c - b).
Proof.
  intros. replace (c - a) with ((b - a) + (c - b)) by lia.
  rewrite seq_app. do 3 f_equal. lia.
Qed.

Lemma Permutation_wrap {A} (x y : A) l : ([x] ++ l) ++ [y] ≡ₚ l ++ [x; y].
Proof.
  simpl. rewrite (Permutation_app_comm l [x; y]). simpl. f_equiv.
  symmetry. apply Permutation_cons_append.
Qed.

Lemma new_events_app s0 s t : trace s = trace s0 ++ t → new_events s0 s = t.
Proof. intros E. unfold new_events. by rewrite E, drop_app_length. Qed.

Lemma task_handles_app t1 t2 :
  task_handles (t1 ++ t2) = task_handles t1 ++ task_handles t2.
Proof. apply omap_app. Qed.

Lemma barrier_handles_app t1 t2 :
  barrier_handles (t1 ++ t2) = barrier_handles t1 ++ barrier_handles t2.
Proof. apply omap_app. Qed.

Lemma barrier_names_split m0 m1 m2 p0 p1 p2 :
  m0 ≤ m1 → m1 ≤ m2 → p0 ≤ p1 → p1 ≤ p2 →
  barrier_names m0 m1 p0 p1 ++ barrier_names m1 m2 p1 p2 ≡ₚ barrier_names m0 m2 p0 p2.
Proof.
  intros. unfold barrier_names.
  rewrite (seq_range_split m0 m1 m2), (seq_range_split p0 p1 p2) by done.
  rewrite !bind_app. 
  rewrite <-!(assoc_L (++)). f_equiv.
  rewrite !(assoc_L (++)). f_equiv. apply Permutation_app_comm.
Qed.

Lemma region_intro s0 ir s t :
  unum_map_counter s0 ≤ unum_map_counter s →
  unum_parallel_counter s0 ≤ unum_parallel_counter s →
  length (heap s0) ≤ length (heap s) →
  (∀ h, h < length (heap s0) → deref h s = deref h s0) →
  ir ≡ₚ seq (length (heap s0)) (length (heap s) - length (heap s0)) →
  trace s = trace s0 ++ t →
  Forall fresh_write t →
  task_handles t ++ barrier_handles t ≡ₚ ir →
  name_of s <$> barrier_handles t ≡ₚ
    barrier_names (unum_map_counter s0) (unum_map_counter s)
                  (unum_parallel_counter s0) (unum_parallel_counter s) →
  region s0 ir s.
Proof.
  intros ????? Ht ???. pose proof (new_events_app _ _ _ Ht) as E.
  split; rewrite ?E; done.
Qed.

Lemma barrier_names_nil m p : barrier_names m m p p = [].
Proof. unfold barrier_names. by rewrite !Nat.sub_diag. Qed.

Lemma region_refl s : region s [] s.
Proof.
  apply (region_intro _ _ _ []); rewrite ?Nat.sub_diag, ?barrier_names_nil, ?app_nil_r; done.
Qed.

Lemma region_perm s0 ir ir' s : ir ≡ₚ ir' → region s0 ir s → region s0 ir' s.
Proof. intros Hp []. split; rewrite <-?Hp; done. Qed.

Lemma region_handle_bounds s0 ir s h :
  region s0 ir s → h ∈ ir → length (heap s0) ≤ h < length (heap s).
Proof.
  intros Hr Hh. rewrite (rg_IR _ _ _ Hr) in Hh.
  apply elem_of_seq in Hh. pose proof (rg_length _ _ _ Hr). lia.
Qed.

Lemma region_barrier_bounds s0 ir s h :
  region s0 ir s → h ∈ barrier_handles (new_events s0 s) →
  length (heap s0) ≤ h < length (heap s).
Proof.
  intros Hr Hh. apply (region_handle_bounds _ ir); [done|].
  rewrite <-(rg_created _ _ _ Hr). set_solver.
Qed.

Lemma region_name_of s0 ir s h :
  region s0 ir s → h < length (heap s0) → name_of s h = name_of s0 h.
Proof. intros Hr ?. unfold name_of. by rewrite (rg_frame _ _ _ Hr). Qed.

Lemma region_trans s0 ir1 s1 ir2 s2 :
  region s0 ir1 s1 → region s1 ir2 s2 → region s0 (ir1 ++ ir2) s2.
Proof.
  intros H1 H2.
  pose proof (rg_length _ _ _ H1). pose proof (rg_length _ _ _ H2).
  pose proof (rg_map_counter _ _ _ H1). pose proof (rg_map_counter _ _ _ H2).
  pose proof (rg_parallel_counter _ _ _ H1). pose proof (rg_parallel_counter _ _ _ H2).
  apply (region_intro _ _ _ (new_events s0 s1 ++ new_events s1 s2)); try lia.
  - intros h Hh. rewrite (rg_frame _ _ _ H2) by lia. by apply (rg_frame _ _ _ H1).
  - rewrite (seq_range_split _ (length (heap s1))) by lia.
    by rewrite <-(rg_IR _ _ _ H1), <-(rg_IR _ _ _ H2).
  - rewrite (rg_trace _ _ _ H2), (rg_trace _ _ _ H1) at 1. by rewrite (assoc_L (++)).
  - apply Forall_app. split; [apply H1 | apply H2].
  - rewrite task_handles_app, barrier_handles_app.
    rewrite <-(rg_created _ _ _ H1), <-(rg_created _ _ _ H2).
    rewrite <-!(assoc_L (++)). f_equiv.
    rewrite !(assoc_L (++)). f_equiv. apply Permutation_app_comm.
  - rewrite barrier_handles_app, fmap_app.
    rewrite <-(barrier_names_split _ (unum_map_counter s1) _ _ (unum_parallel_counter s1)) by done.
    rewrite <-(rg_barrier_names _ _ _ H1), <-(rg_barrier_names _ _ _ H2).
    assert (name_of s2 <$> barrier_handles (new_events s0 s1)
            = name_of s1 <$> barrier_handles (new_events s0 s1)) as ->; [|done].
    apply list_fmap_ext. intros i h Hh. apply (region_name_of _ _ _ _ H2).
    apply list_elem_of_lookup_2 in Hh.
    by apply (region_barrier_bounds _ _ _ _ H1) in Hh as [_ ?].
Qed.

Lemma region_new_task c s h s' :
  new_dict NewTask c s = Ok h s' → region s [h] s'.
Proof.
  intros (-> & Hh & Ht & Hm & Hp)%new_dict_Ok.
  apply (region_intro _ _ _ [NewTask (length (heap s))]);
    rewrite ?Hh, ?Hm, ?Hp, ?length_app, ?barrier_names_nil; simpl; try done; try lia.
  - intros h ?. by apply (deref_app_old _ _ [c]).
  - by replace (length (heap s) + 1 - length (heap s)) with 1 by lia.
  - by repeat constructor.
Qed.

Lemma barrier_names_map_step m p :
  barrier_names m (m + 1) p p = ["UnumMap" +:+ pretty m; "UnumMapSink" +:+ pretty m].
Proof.
  unfold barrier_names. rewrite Nat.sub_diag.
  replace (m + 1 - m) with 1 by lia. done.
Qed.

Lemma barrier_names_parallel_step m p :
  barrier_names m m p (p + 1) =
  ["UnumParallel" +:+ pretty p; "UnumParallelSink" +:+ pretty p].
Proof.
  unfold barrier_names. rewrite Nat.sub_diag.
  replace (p + 1 - p) with 1 by lia. done.
Qed.

(** The two dictionary literals of a barrier pair followed by the increment
    of the counter that names them. *)
Lemma region_barrier_pair c1 c2 s h1 s1 h2 s2 s3 :
  new_dict NewBarrier c1 s = Ok h1 s1 →
  new_dict NewBarrier c2 s1 = Ok h2 s2 →
  heap s3 = heap s2 → trace s3 = trace s2 →
  unum_map_counter s ≤ unum_map_counter s3 →
  unum_parallel_counter s ≤ unum_parallel_counter s3 →
  [Name c1; Name c2] =
    barrier_names (unum_map_counter s) (unum_map_counter s3)
                  (unum_parallel_counter s) (unum_parallel_counter s3) →
  region s [h1; h2] s3 ∧ h1 = length (heap s) ∧ h2 = S (length (heap s)) ∧
  deref h1 s3 = c1 ∧ deref h2 s3 = c2 ∧ length (heap s3) = S (S (length (heap s))).
Proof.
  intros (-> & Hh1 & Ht1 & Hm1 & Hp1)%new_dict_Ok (-> & Hh2 & Ht2 & Hm2 & Hp2)%new_dict_Ok
    Hh3 Ht3 Hm Hp Hn.
  assert (length (heap s1) = S (length (heap s))) as Hl1.
  { rewrite Hh1, length_app. simpl. lia. }
  assert (deref (length (heap s)) s3 = c1) as Hd1.
  { unfold deref. rewrite Hh3, Hh2, lookup_app_l by lia. by rewrite Hh1, list_lookup_middle. }
  assert (deref (length (heap s1)) s3 = c2) as Hd2.
  { unfold deref. by rewrite Hh3, Hh2, list_lookup_middle. }
  assert (length (heap s3) = S (S (length (heap s)))) as Hl3.
  { rewrite Hh3, Hh2, length_app, Hl1. simpl. lia. }
  split; [|by repeat split].
  apply (region_intro _ _ _ [NewBarrier (length (heap s)); NewBarrier (length (heap s1))]);
    rewrite ?Hh3, ?Hh2, ?length_app, ?Hl1; simpl; try done; try lia.
  - intros h ?. unfold deref. rewrite Hh3, Hh2, Hh1, <-(assoc_L (++)).
    by rewrite lookup_app_l.
  - by replace (S (length (heap s) + 1) - length (heap s)) with 2 by lia.
  - by rewrite Ht3, Ht2, Ht1, Hl1, <-(assoc_L (++)).
  - by repeat constructor.
  - rewrite <-Hn. unfold name_of. rewrite Hd1. by rewrite <-Hl1, Hd2.
Qed.

Lemma region_map_barrier_pair n1 nx ni n2 s h1 s1 h2 s2 u s3 :
  new_dict NewBarrier (named_next n1 nx ni) s = Ok h1 s1 →
  new_dict NewBarrier (named n2) s1 = Ok h2 s2 →
  incr_unum_map_counter s2 = Ok u s3 →
  n1 = "UnumMap" +:+ pretty (unum_map_counter s) →
  n2 = "UnumMapSink" +:+ pretty (unum_map_counter s) →
  region s [h1; h2] s3 ∧ h1 = length (heap s) ∧ h2 = S (length (heap s)) ∧
  deref h1 s3 = named_next n1 nx ni ∧ deref h2 s3 = named n2 ∧
  length (heap s3) = S (S (length (heap s))).
Proof.
  intros Hnew1 Hnew2 (Hh3 & Ht3 & Hm3 & Hp3)%incr_unum_map_counter_Ok -> ->.
  pose proof (new_dict_Ok _ _ _ _ _ Hnew1) as (_ & _ & _ & Hm1 & Hp1).
  pose proof (new_dict_Ok _ _ _ _ _ Hnew2) as (_ & _ & _ & Hm2 & Hp2).
  apply (region_barrier_pair _ _ _ _ _ _ _ s3 Hnew1 Hnew2 Hh3 Ht3); [lia|lia|].
  by rewrite Hm3, Hp3, Hm2, Hp2, Hm1, Hp1, barrier_names_map_step.
Qed.

Lemma region_parallel_barrier_pair n1 nx ni n2 s h1 s1 h2 s2 u s3 :
  new_dict NewBarrier (named_next n1 nx ni) s = Ok h1 s1 →
  new_dict NewBarrier (named n2) s1 = Ok h2 s2 →
  incr_unum_parallel_counter s2 = Ok u s3 →
  n1 = "UnumParallel" +:+ pretty (unum_parallel_counter s) →
  n2 = "UnumParallelSink" +:+ pretty (unum_parallel_counter s) →
  region s [h1; h2] s3 ∧ h1 = length (heap s) ∧ h2 = S (length (heap s)) ∧
  deref h1 s3 = named_next n1 nx ni ∧ deref h2 s3 = named n2 ∧
  length (heap s3) = S (S (length (heap s))).
Proof.
  intros Hnew1 Hnew2 (Hh3 & Ht3 & Hm3 & Hp3)%incr_unum_parallel_counter_Ok -> ->.
  pose proof (new_dict_Ok _ _ _ _ _ Hnew1) as (_ & _ & _ & Hm1 & Hp1).
  pose proof (new_dict_Ok _ _ _ _ _ Hnew2) as (_ & _ & _ & Hm2 & Hp2).
  apply (region_barrier_pair _ _ _ _ _ _ _ s3 Hnew1 Hnew2 Hh3 Ht3); [lia|lia|].
  by rewrite Hm3, Hp3, Hm2, Hp2, Hm1, Hp1, barrier_names_parallel_step.
Qed.

(** An item assignment on a dictionary of the region that keeps its name. *)
Lemma region_update s0 ir s s' h c t :
  region s0 ir s →
  heap s' = <[h := c]> (heap s) → Name c = Name (deref h s) →
  length (heap s0) ≤ h →
  trace s' = trace s ++ t → Forall fresh_write t →
  task_handles t = [] → barrier_handles t = [] →
  unum_map_counter s' = unum_map_counter s →
  unum_parallel_counter s' = unum_parallel_counter s →
  region s0 ir s'.
Proof.
  intros Hr Hh Hn Hle Ht Hf Htt Htb Hm Hp.
  apply (region_intro _ _ _ (new_events s0 s ++ t));
    rewrite ?Hm, ?Hp, ?Hh, ?length_insert; try apply Hr.
  - intros h' ?. rewrite (deref_insert_ne s s' h c) by (done || lia). by apply Hr.
  - by rewrite Ht, (rg_trace _ _ _ Hr) at 1; rewrite (assoc_L (++)).
  - apply Forall_app. split; [apply Hr | done].
  - rewrite task_handles_app, barrier_handles_app, Htt, Htb, !app_nil_r. apply Hr.
  - rewrite barrier_handles_app, Htb, app_nil_r.
    rewrite <-(rg_barrier_names _ _ _ Hr).
    assert (name_of s' <$> barrier_handles (new_events s0 s)
            = name_of s <$> barrier_handles (new_events s0 s)) as ->; [|done].
    apply list_fmap_ext. intros ???. by apply (name_of_insert _ _ h c).
Qed.

(** Item assignments of ["Next"] and ["NextInput"] inside a region. *)
Lemma region_set_Next s0 ir s h v u s' :
  region s0 ir s → set_Next h v s = Ok u s' →
  length (heap s0) ≤ h → Next (deref h s) = None →
  region s0 ir s'.
Proof.
  intros Hr (Hh & Ht & Hm & Hp)%set_Next_Ok Hle Hn.
  eapply region_update; try done. rewrite Hn. by repeat constructor.
Qed.

Lemma region_set_NextInput s0 ir s h v u s' :
  region s0 ir s → set_NextInput h v s = Ok u s' →
  length (heap s0) ≤ h →
  region s0 ir s'.
Proof.
  intros Hr (Hh & Ht & Hm & Hp)%set_NextInput_Ok Hle.
  eapply (region_update _ _ _ _ _ _ []); rewrite ?app_nil_r; done.
Qed.

(** What the two assignments do to the dictionaries. *)
Lemma deref_set_Next h v s u s' h' :
  set_Next h v s = Ok u s' →
  deref h' s' =
  if decide (h' = h ∧ h < length (heap s)) then
    {| Name := Name (deref h s); Next := Some v;
       NextInput := NextInput (deref h s); Checkpoint := Checkpoint (deref h s) |}
  else deref h' s.
Proof.
  intros (Hh & _)%set_Next_Ok. case_decide as Hd.
  - destruct Hd as [-> ?]. by erewrite deref_insert_eq.
  - destruct (decide (h' = h)) as [->|]; [|by erewrite deref_insert_ne].
    unfold deref. rewrite Hh, list_insert_ge; [done|]. lia.
Qed.

Lemma deref_set_NextInput h v s u s' h' :
  set_NextInput h v s = Ok u s' →
  deref h' s' =
  if decide (h' = h ∧ h < length (heap s)) then
    {| Name := Name (deref h s); Next := Next (deref h s);
       NextInput := Some v; Checkpoint := Checkpoint (deref h s) |}
  else deref h' s.
Proof.
  intros (Hh & _)%set_NextInput_Ok. case_decide as Hd.
  - destruct Hd as [-> ?]. by erewrite deref_insert_eq.
  - destruct (decide (h' = h)) as [->|]; [|by erewrite deref_insert_ne].
    unfold deref. rewrite Hh, list_insert_ge; [done|]. lia.
Qed.

Lemma length_set_Next h v s u s' :
  set_Next h v s = Ok u s' → length (heap s') = length (heap s).
Proof. intros (Hh & _)%set_Next_Ok. by rewrite Hh, length_insert. Qed.

Lemma length_set_NextInput h v s u s' :
  set_NextInput h v s = Ok u s' → length (heap s') = length (heap s).
Proof. intros (Hh & _)%set_NextInput_Ok. by rewrite Hh, length_insert. Qed.

Lemma name_of_set_Next h v s u s' :
  set_Next h v s = Ok u s' → ∀ h', name_of s' h' = name_of s h'.
Proof. intros (Hh & _)%set_Next_Ok. by eapply name_of_insert. Qed.

Lemma name_of_set_NextInput h v s u s' :
  set_NextInput h v s = Ok u s' → ∀ h', name_of s' h' = name_of s h'.
Proof. intros (Hh & _)%set_NextInput_Ok. by eapply name_of_insert. Qed.

(** * The lowering establishes [lowered] *)

Lemma lowered_handle_bounds s r s' h :
  lowered s r s' → h ∈ unum_IR r → length (heap s) ≤ h < length (heap s').
Proof. intros Hl. apply region_handle_bounds, Hl. Qed.

Lemma deref_frame s r s' h :
  lowered s r s' → h < length (heap s) → deref h s' = deref h s.
Proof. intros Hl. apply (rg_frame _ _ _ (lw_region _ _ _ Hl)). Qed.

Lemma get_state_unum_function_name_Ok file Resource s u s' :
  get_state_unum_function_name file Resource s = Ok u s' → s' = s.
Proof.
  unfold get_state_unum_function_name.
  destruct (str_in _ _); [|by intros [_ ->]%mret_Ok].
  destruct file as [[m| |]|]; [|done|done|done].
  destruct (key_of_first_value m Resource); [|done].
  by intros [_ ->]%mret_Ok.
Qed.

Section wire_successor.
Context (lower : string → M result).
Hypothesis lower_lowered : ∀ next s r s', lower next s = Ok r s' → lowered s r s'.

Lemma wire_successor_lowered state_name Next_ s0 ir entry sink s r s' :
  region s0 ir s → entry ∈ ir → sink ∈ ir →
  Next (deref sink s) = None → NextInput (deref sink s) = None →
  wire_successor lower state_name Next_ ir entry sink s = Ok r s' →
  lowered s0 r s'.
Proof.
  intros Hr Hentry Hsink HN HNI H. unfold wire_successor in H.
  destruct Next_ as [next|].
  - inv_bind H. apply lower_lowered in Hstep as Hl.
    inv_bind H. apply get_Name_Ok in Hstep0 as [-> ->].
    inv_bind H. rename Hstep0 into Hset1. inv_bind H. rename Hstep0 into Hset2.
    apply mret_Ok in H as [<- <-].
    pose proof (region_handle_bounds _ _ _ _ Hr Hsink) as [? ?].
    pose proof (lowered_handle_bounds _ _ _ _ Hl (lw_exit _ _ _ Hl)) as [? ?].
    assert (region s0 (ir ++ unum_IR a) s3) as Hr3.
    { eapply region_set_NextInput; [|done|done].
      eapply region_set_Next; [|done|done|].
      - eapply region_trans; [done|apply Hl].
      - by rewrite (deref_frame _ _ _ _ Hl). }
    split; simpl; try done.
    + set_solver.
    + pose proof (lw_exit _ _ _ Hl). set_solver.
    + rewrite (deref_set_NextInput _ _ _ _ _ _ Hset2), decide_False by lia.
      rewrite (deref_set_Next _ _ _ _ _ _ Hset1), decide_False by lia.
      apply Hl.
    + rewrite (deref_set_NextInput _ _ _ _ _ _ Hset2), decide_False by lia.
      rewrite (deref_set_Next _ _ _ _ _ _ Hset1), decide_False by lia.
      apply Hl.
  - apply mret_Ok in H as [<- <-]. by split.
Qed.
End wire_successor.

Lemma for_b_in_branches_region vals sink bs : ∀ ir s0 irr s ir' s',
  region s0 irr s →
  Forall (fun b => length (heap s0) ≤ Exit_unum_function b) bs →
  NoDup (Exit_unum_function <$> bs) →
  Forall (fun b => Next (deref (Exit_unum_function b) s) = None) bs →
  for_b_in_branches vals sink bs ir s = Ok ir' s' →
  region s0 irr s' ∧ ir' = ir ++ (bs ≫= unum_IR) ∧
  length (heap s') = length (heap s) ∧
  (∀ h, h ∉ Exit_unum_function <$> bs → deref h s' = deref h s) ∧
  (∀ b, b ∈ bs → Exit_unum_function b < length (heap s) →
        deref (Exit_unum_function b) s' =
        fanned_in (name_of s sink) vals (deref (Exit_unum_function b) s)).
Proof.
  induction bs as [|b bs IH]; intros ir s0 irr s ir' s' Hr Hge Hnd Hopen H; simpl in H.
  - apply mret_Ok in H as [<- <-]. rewrite app_nil_r. split_and!; try done.
    intros b Hb. by apply elem_of_nil in Hb.
  - inv_bind H. rename Hstep into Hset1.
    inv_bind H. apply get_Name_Ok in Hstep as [-> ->].
    inv_bind H. rename Hstep into Hset2.
    apply Forall_cons in Hge as [Hge1 Hge]. apply Forall_cons in Hopen as [Hopen1 Hopen].
    rewrite fmap_cons in Hnd. apply NoDup_cons in Hnd as [Hnotin Hnd].
    pose proof (length_set_NextInput _ _ _ _ _ Hset1) as Hlen1.
    pose proof (length_set_Next _ _ _ _ _ Hset2) as Hlen2.
    assert (Next (deref (Exit_unum_function b) s1) = None) as Hopen1'.
    { rewrite (deref_set_NextInput _ _ _ _ _ _ Hset1). by case_decide. }
    assert (∀ h, h ≠ Exit_unum_function b → deref h s2 = deref h s) as Hother.
    { intros h Hh. rewrite (deref_set_Next _ _ _ _ _ _ Hset2), decide_False by (by intros [? _]).
      by rewrite (deref_set_NextInput _ _ _ _ _ _ Hset1), decide_False by (by intros [? _]). }
    assert (name_of s1 sink = name_of s sink) as Hsink.
    { unfold name_of. rewrite (deref_set_NextInput _ _ _ _ _ _ Hset1).
      case_decide as Hd; [by destruct Hd as [-> _]|done]. }
    assert (∀ h, name_of s2 h = name_of s h) as Hnames.
    { intros h. by rewrite (name_of_set_Next _ _ _ _ _ Hset2),
        (name_of_set_NextInput _ _ _ _ _ Hset1). }
    assert (region s0 irr s2) as Hr2.
    { eapply region_set_Next; [|done|done|done].
      by eapply region_set_NextInput. }
    assert (∀ b', b' ∈ bs → Exit_unum_function b' ≠ Exit_unum_function b) as Hne.
    { intros b' Hb' E. apply Hnotin. rewrite <-E. by apply list_elem_of_fmap_2. }
    assert (Forall (fun b => Next (deref (Exit_unum_function b) s2) = None) bs) as Hopen2.
    { apply Forall_forall. intros b' Hb'. rewrite Hother by auto.
      by apply (proj1 (Forall_forall _ _) Hopen). }
    destruct (IH _ s0 irr _ _ _ Hr2 Hge Hnd Hopen2 H) as (Hr' & -> & Hlen & Hout & Hin).
    split_and!; [done|by rewrite <-(assoc_L (++))|lia|..].
    + intros h Hh. rewrite fmap_cons, not_elem_of_cons in Hh. destruct Hh as [? ?].
      rewrite Hout by done. by apply Hother.
    + intros b' [->|Hb']%elem_of_cons Hlt.
      * rewrite Hout by done.
        rewrite (deref_set_Next _ _ _ _ _ _ Hset2), decide_True by (split; [done|lia]).
        rewrite (deref_set_NextInput _ _ _ _ _ _ Hset1), decide_True by done.
        unfold fanned_in. simpl. by rewrite Hsink.
      * rewrite Hin by (done || lia).
        by rewrite Hnames, Hother by auto.
Qed.

Lemma mapM_lowered {A} (f : A → M result) :
  (∀ x s r s', f x s = Ok r s' → lowered s r s') →
  ∀ l s bs s', mapM f l s = Ok bs s' → branches_lowered s bs s'.
Proof.
  intros Hf. induction l as [|x l IH]; intros s bs s' H.
  - apply mapM_Ok_nil in H as [-> ->]. split; simpl; try done. apply region_refl.
  - apply mapM_Ok_cons in H as (b & s1 & bs' & Hb & Hbs & ->).
    apply Hf in Hb as [Hr1 Hen Hex HN HNI]. apply IH in Hbs as [Hr2 Hens Hexs HNs HNIs].
    pose proof (region_handle_bounds _ _ _ _ Hr1 Hex) as [_ ?].
    split; simpl.
    + by eapply region_trans.
    + by constructor.
    + by constructor.
    + constructor; [|done]. by rewrite (rg_frame _ _ _ Hr2).
    + constructor; [|done]. by rewrite (rg_frame _ _ _ Hr2).
Qed.

Lemma NoDup_bind_choice {A B} (f : B → A) (g : B → list A) (l : list B) :
  NoDup (l ≫= g) → Forall (fun b => f b ∈ g b) l → NoDup (f <$> l).
Proof.
  induction l as [|b l IH]; simpl; intros Hnd Hin; [constructor|].
  apply Forall_cons in Hin as [Hb Hin]. apply NoDup_app in Hnd as (_ & Hdisj & Hnd).
  constructor; [|by apply IH].
  intros (b' & E & Hb')%list_elem_of_fmap. apply (Hdisj _ Hb).
  apply list_elem_of_bind. exists b'. split; [|done].
  rewrite E. by apply (proj1 (Forall_forall _ _) Hin).
Qed.

Lemma branches_exit_bounds s bs s' b :
  branches_lowered s bs s' → b ∈ bs →
  length (heap s) ≤ Exit_unum_function b < length (heap s').
Proof.
  intros Hbl Hb. apply (region_handle_bounds _ _ _ _ (bl_region _ _ _ Hbl)).
  apply list_elem_of_bind. exists b. split; [|done].
  by apply (proj1 (Forall_forall _ _) (bl_exit _ _ _ Hbl)).
Qed.

Lemma branches_exit_NoDup s bs s' :
  branches_lowered s bs s' → NoDup (Exit_unum_function <$> bs).
Proof.
  intros Hbl. apply (NoDup_bind_choice _ unum_IR); [|apply Hbl].
  rewrite (rg_IR _ _ _ (bl_region _ _ _ Hbl)). apply NoDup_seq.
Qed.

Theorem lowering_lowered file fuel :
  (∀ name sm s r s',
     _translate_state_machine file fuel name sm s = Ok r s' → lowered s r s') ∧
  (∀ sm s r s',
     translate_state_machine file fuel sm s = Ok r s' → lowered s r s').
Proof.
  induction fuel as [|fuel [IH1 IH2]]; [done|]. split.
  - intros name sm s r s' H. simpl in H.
    destruct (States sm !! name)
      as [[Resource End_ Next_|Iterator Next_|Branches Next_]|] eqn:Hst; [| | |done].
    + (* Task *)
      inv_bind H. apply get_state_unum_function_name_Ok in Hstep as ->.
      case_bool_decide.
      * inv_bind H. apply mret_Ok in H as [<- <-].
        pose proof (region_new_task _ _ _ _ Hstep) as Hr.
        apply new_dict_Ok in Hstep as (-> & Hh & _).
        split; simpl; [done|set_solver|set_solver|..];
          by rewrite (deref_app_new _ _ _ Hh).
      * destruct Next_ as [next|]; [|done].
        inv_bind H. apply IH1 in Hstep as Hl.
        inv_bind H. apply get_Name_Ok in Hstep0 as [-> ->].
        inv_bind H. apply mret_Ok in H as [<- <-].
        pose proof (region_new_task _ _ _ _ Hstep0) as Hr.
        apply new_dict_Ok in Hstep0 as (-> & Hh & _).
        pose proof (lowered_handle_bounds _ _ _ _ Hl (lw_exit _ _ _ Hl)) as [_ ?].
        pose proof (lw_exit _ _ _ Hl).
        split; simpl; [|set_solver|set_solver|..].
        -- eapply region_perm; [|eapply region_trans; [apply Hl|apply Hr]].
           by rewrite Permutation_app_comm.
        -- rewrite (deref_app_old _ _ _ _ Hh) by done. apply Hl.
        -- rewrite (deref_app_old _ _ _ _ Hh) by done. apply Hl.
    + (* Map *)
      inv_bind H. rename Hstep into Hit. apply IH2 in Hit as Hl.
      inv_bind H. apply get_unum_map_counter_Ok in Hstep as [-> ->].
      inv_bind H. apply get_Name_Ok in Hstep as [-> ->].
      inv_bind H. rename Hstep into Hnew1. inv_bind H. rename Hstep into Hnew2.
      inv_bind H. rename Hstep into Hincr.
      inv_bind H. apply get_Name_Ok in Hstep as [-> ->].
      inv_bind H. rename Hstep into Hset1.
      inv_bind H. apply get_Name_Ok in Hstep as [-> ->].
      inv_bind H. rename Hstep into Hset2.
      destruct (region_map_barrier_pair _ _ _ _ _ _ _ _ _ _ _ Hnew1 Hnew2 Hincr)
        as (Hr3 & -> & -> & Hd1 & Hd2 & Hlen3); [done|done|].
      pose proof (lowered_handle_bounds _ _ _ _ Hl (lw_exit _ _ _ Hl)) as [? ?].
      pose proof (lw_exit _ _ _ Hl). pose proof (lw_entry _ _ _ Hl).
      assert (∀ h, h ≠ Exit_unum_function a → deref h s5 = deref h s3) as Hother.
      { intros h Hh.
        rewrite (deref_set_NextInput _ _ _ _ _ _ Hset2), decide_False by (by intros [? _]).
        by rewrite (deref_set_Next _ _ _ _ _ _ Hset1), decide_False by (by intros [? _]). }
      apply (wire_successor_lowered _ (fun next => IH1 next sm) _ _ s) in H;
        [done|..|set_solver|set_solver| |].
      * eapply region_set_NextInput; [|done|lia].
        eapply region_set_Next; [|done|lia|].
        -- eapply region_perm; [|eapply region_trans; [apply Hl|apply Hr3]].
           symmetry. apply Permutation_wrap.
        -- rewrite (rg_frame _ _ _ Hr3) by done. apply Hl.
      * rewrite Hother by lia. by rewrite Hd2.
      * rewrite Hother by lia. by rewrite Hd2.
    + (* Parallel *)
      inv_bind H. rename Hstep into Hbs.
      apply (mapM_lowered _ (IH2)) in Hbs as Hbl.
      inv_bind H. apply get_unum_parallel_counter_Ok in Hstep as [-> ->].
      inv_bind H. apply get_entry_names_Ok in Hstep as [-> ->].
      inv_bind H. rename Hstep into Hnew1. inv_bind H. rename Hstep into Hnew2.
      inv_bind H. rename Hstep into Hincr.
      inv_bind H. apply parallel_fan_in_values_Ok in Hstep as [-> ->].
      inv_bind H. rename Hstep into Hloop.
      destruct (region_parallel_barrier_pair _ _ _ _ _ _ _ _ _ _ _ Hnew1 Hnew2 Hincr)
        as (Hr3 & -> & -> & Hd1 & Hd2 & Hlen3); [done|done|].
      assert (region s ((a ≫= unum_IR) ++ [length (heap s0); S (length (heap s0))]) s3) as Hr.
      { eapply region_trans; [apply Hbl|done]. }
      eapply for_b_in_branches_region in Hloop as (Hr4 & -> & Hlen4 & Hout & _);
        [|exact Hr|..].
      * apply (wire_successor_lowered _ (fun next => IH1 next sm) _ _ s) in H;
          [done| |set_solver|set_solver|..].
        -- eapply region_perm; [|done]. symmetry. apply Permutation_wrap.
        -- rewrite Hout, Hd2; [done|]. 
           intros (b & E & Hb)%list_elem_of_fmap.
           pose proof (branches_exit_bounds _ _ _ _ Hbl Hb). lia.
        -- rewrite Hout, Hd2; [done|]. 
           intros (b & E & Hb)%list_elem_of_fmap.
           pose proof (branches_exit_bounds _ _ _ _ Hbl Hb). lia.
      * apply Forall_forall. intros b Hb. by apply (branches_exit_bounds _ _ _ _ Hbl Hb).
      * by eapply branches_exit_NoDup.
      * apply Forall_forall. intros b Hb.
        rewrite (rg_frame _ _ _ Hr3) by (by apply (branches_exit_bounds _ _ _ _ Hbl Hb)).
        by apply (proj1 (Forall_forall _ _) (bl_exit_Next _ _ _ Hbl)).
  - intros sm s r s' H. simpl in H.
    destruct (States sm !! StartAt sm); [|done]. by apply IH1 in H.
Qed.

(** * The checkpoint pass *)

Lemma deref_set_Checkpoint h v s u s' h' :
  set_Checkpoint h v s = Ok u s' →
  deref h' s' =
  if decide (h' = h ∧ h < length (heap s)) then checkpointed v (deref h s)
  else deref h' s.
Proof.
  intros (Hh & _)%set_Checkpoint_Ok. case_decide as Hd.
  - destruct Hd as [-> ?]. by erewrite deref_insert_eq.
  - destruct (decide (h' = h)) as [->|]; [|by erewrite deref_insert_ne].
    unfold deref. rewrite Hh, list_insert_ge; [done|]. lia.
Qed.

Lemma for_c_in_ir_Ok d ir : ∀ s u s',
  for_c_in_ir d ir s = Ok u s' →
  length (heap s') = length (heap s) ∧
  trace s' = trace s ∧
  unum_map_counter s' = unum_map_counter s ∧
  unum_parallel_counter s' = unum_parallel_counter s ∧
  ∀ h, deref h s' =
       if decide (h ∈ ir ∧ h < length (heap s))
       then checkpointed (checkpoint_policy d (deref h s)) (deref h s)
       else deref h s.
Proof.
  induction ir as [|c ir IH]; intros s u s' H; simpl in H.
  - apply mret_Ok in H as [_ <-]. by split_and!.
  - inv_bind H.
    assert (set_Checkpoint c (checkpoint_policy d (deref c s)) s = Ok a s0) as Hset.
    { unfold checkpoint_policy. by destruct (has_Fan_in (deref c s)). }
    clear Hstep. apply IH in H as (Hlen & Ht & Hm & Hp & Hd).
    pose proof (set_Checkpoint_Ok _ _ _ _ _ Hset) as (Hh0 & Ht0 & Hm0 & Hp0).
    assert (length (heap s0) = length (heap s)) as Hlen0 by (by rewrite Hh0, length_insert).
    split_and!; try congruence.
    intros h. rewrite Hd, Hlen0.
    rewrite !(deref_set_Checkpoint _ _ _ _ _ _ Hset).
    destruct (decide (h = c)) as [->|Hne].
    + destruct (decide (c < length (heap s))).
      * rewrite (decide_True (P := c ∈ c :: ir ∧ _))
          by (split; [apply elem_of_cons; by left|done]).
        rewrite (decide_True (P := c = c ∧ _)) by done.
        by case_decide.
      * by rewrite !decide_False by (intros [_ ?]; done).
    + rewrite (decide_False (P := h = c ∧ _)) by (by intros [? _]).
      destruct (decide (h ∈ ir ∧ h < length (heap s))) as [[? ?]|Hn].
      * by rewrite decide_True by (split; [apply elem_of_cons; by right|done]).
      * rewrite decide_False; [done|]. intros [Hin ?]. apply Hn.
        apply elem_of_cons in Hin as [?|?]; done.
Qed.

(** * Task states *)

Lemma get_state_unum_function_name_plain file Resource s :
  str_in "arn:aws:lambda" Resource = false →
  get_state_unum_function_name file Resource s = Ok Resource s.
Proof. intros E. unfold get_state_unum_function_name. by rewrite E. Qed.

(** The dictionary built for a Task state carries the name that
    [get_state_unum_function_name] returned. *)
Lemma Task_entry_name file fuel name sm Resource End_ Next_ s r s' :
  States sm !! name = Some (Task Resource End_ Next_) →
  _translate_state_machine file fuel name sm s = Ok r s' →
  ∃ u, get_state_unum_function_name file Resource s = Ok u s ∧
       name_of s' (Entry_unum_function r) = u ∧
       head (unum_IR r) = Some (Entry_unum_function r).
Proof.
  intros Hst H. destruct fuel as [|fuel]; [done|]. simpl in H. rewrite Hst in H.
  inv_bind H. pose proof (get_state_unum_function_name_Ok _ _ _ _ _ Hstep) as ->.
  exists a. split; [done|]. case_bool_decide.
  - inv_bind H. apply mret_Ok in H as [<- <-]. simpl.
    apply new_dict_Ok in Hstep0 as (-> & Hh & _).
    unfold name_of. by rewrite (deref_app_new _ _ _ Hh).
  - destruct Next_ as [next|]; [|done].
    inv_bind H. inv_bind H. apply get_Name_Ok in Hstep1 as [-> ->].
    inv_bind H. apply mret_Ok in H as [<- <-]. simpl.
    apply new_dict_Ok in Hstep1 as (-> & Hh & _).
    unfold name_of at 1. by rewrite (deref_app_new _ _ _ Hh).
Qed.

(** * Map and Parallel states *)

Section wire_successor_frame.
Context (lower : string → M result).
Hypothesis lower_lowered : ∀ next s r s', lower next s = Ok r s' → lowered s r s'.

(** The successor wiring leaves the dictionaries of [ir] other than the
    sink as they are, and keeps every name. *)
Lemma wire_successor_frame state_name Next_ ir entry sink s r s' :
  wire_successor lower state_name Next_ ir entry sink s = Ok r s' →
  Entry_unum_function r = entry ∧
  (∀ h, h ∈ ir → h ∈ unum_IR r) ∧
  (∀ h, h < length (heap s) → h ≠ sink → deref h s' = deref h s) ∧
  (∀ h, h < length (heap s) → name_of s' h = name_of s h).
Proof.
  intros H. unfold wire_successor in H. destruct Next_ as [next|].
  - inv_bind H. apply lower_lowered in Hstep as Hl.
    inv_bind H. apply get_Name_Ok in Hstep0 as [-> ->].
    inv_bind H. rename Hstep0 into Hset1. inv_bind H. rename Hstep0 into Hset2.
    apply mret_Ok in H as [<- <-]. simpl. split_and!; [done|set_solver|..].
    + intros h Hlt Hne.
      rewrite (deref_set_NextInput _ _ _ _ _ _ Hset2), decide_False by (by intros [? _]).
      rewrite (deref_set_Next _ _ _ _ _ _ Hset1), decide_False by (by intros [? _]).
      by apply (deref_frame _ _ _ _ Hl).
    + intros h Hlt.
      rewrite (name_of_set_NextInput _ _ _ _ _ Hset2), (name_of_set_Next _ _ _ _ _ Hset1).
      unfold name_of. by rewrite (deref_frame _ _ _ _ Hl).
  - by apply mret_Ok in H as [<- <-].
Qed.
End wire_successor_frame.

(** The steps of a successful lowering of a Map state. *)
Lemma Map_lowering file fuel name sm Iterator Next_ s r s' :
  States sm !! name = Some (Map Iterator Next_) →
  _translate_state_machine file (S fuel) name sm s = Ok r s' →
  ∃ iterator s1,
    translate_state_machine file fuel Iterator s = Ok iterator s1 ∧
    let unum_map := length (heap s1) in
    let unum_map_sink := S (length (heap s1)) in
    let exit := Exit_unum_function iterator in
    Entry_unum_function r = unum_map ∧
    (∀ h, h ∈ [unum_map] ++ unum_IR iterator ++ [unum_map_sink] → h ∈ unum_IR r) ∧
    (∀ h, h < length (heap s1) → name_of s' h = name_of s1 h) ∧
    name_of s' unum_map = "UnumMap" +:+ pretty (unum_map_counter s1) ∧
    name_of s' unum_map_sink = "UnumMapSink" +:+ pretty (unum_map_counter s1) ∧
    Next (deref unum_map s') = Some (NextName (name_of s' (Entry_unum_function iterator))) ∧
    NextInput (deref unum_map s') = Some MapInput ∧
    Next (deref exit s') = Some (NextName (name_of s' unum_map_sink)) ∧
    NextInput (deref exit s') = Some (Fan_in [name_of s' exit +:+ "-unumIndex-*"]).
Proof.
  intros Hst H. simpl in H. rewrite Hst in H.
  inv_bind H. rename Hstep into Hit. rename a into iterator.
  apply (proj2 (lowering_lowered file fuel)) in Hit as Hl.
  exists iterator, s0. split; [done|].
  inv_bind H. apply get_unum_map_counter_Ok in Hstep as [-> ->].
  inv_bind H. apply get_Name_Ok in Hstep as [-> ->].
  inv_bind H. rename Hstep into Hnew1. inv_bind H. rename Hstep into Hnew2.
  inv_bind H. rename Hstep into Hincr.
  inv_bind H. apply get_Name_Ok in Hstep as [-> ->].
  inv_bind H. rename Hstep into Hset1.
  inv_bind H. apply get_Name_Ok in Hstep as [-> ->].
  inv_bind H. rename Hstep into Hset2.
  destruct (region_map_barrier_pair _ _ _ _ _ _ _ _ _ _ _ Hnew1 Hnew2 Hincr)
    as (Hr3 & -> & -> & Hd1 & Hd2 & Hlen3); [done|done|].
  pose proof (lowered_handle_bounds _ _ _ _ Hl (lw_exit _ _ _ Hl)) as [? ?].
  pose proof (lowered_handle_bounds _ _ _ _ Hl (lw_entry _ _ _ Hl)) as [? ?].
  pose proof (length_set_Next _ _ _ _ _ Hset1) as Hlen4.
  pose proof (length_set_NextInput _ _ _ _ _ Hset2) as Hlen5.
  assert (∀ h, name_of s5 h = name_of s3 h) as Hnames.
  { intros h. by rewrite (name_of_set_NextInput _ _ _ _ _ Hset2),
      (name_of_set_Next _ _ _ _ _ Hset1). }
  assert (∀ h, h < length (heap s0) → name_of s3 h = name_of s0 h) as Hnames3.
  { intros h ?. unfold name_of. by rewrite (rg_frame _ _ _ Hr3). }
  assert (∀ h, h ≠ Exit_unum_function iterator → deref h s5 = deref h s3) as Hother.
  { intros h Hh.
    rewrite (deref_set_NextInput _ _ _ _ _ _ Hset2), decide_False by (by intros [? _]).
    by rewrite (deref_set_Next _ _ _ _ _ _ Hset1), decide_False by (by intros [? _]). }
  apply (wire_successor_frame _ (fun next => proj1 (lowering_lowered file fuel) next sm))
    in H as (HE & Hin & Hframe & Hnm).
  assert (name_of s' (length (heap s0)) = "UnumMap" +:+ pretty (unum_map_counter s0)) as Hn1.
  { rewrite Hnm, Hnames by lia. unfold name_of. by rewrite Hd1. }
  assert (name_of s' (S (length (heap s0))) = "UnumMapSink" +:+ pretty (unum_map_counter s0))
    as Hn2.
  { rewrite Hnm, Hnames by lia. unfold name_of. by rewrite Hd2. }
  simpl. split_and!; try done.
  - intros h ?. rewrite Hnm, Hnames by lia. by apply Hnames3.
  - rewrite Hframe, Hother, Hd1 by lia. simpl.
    by rewrite Hnm, Hnames, Hnames3 by lia.
  - by rewrite Hframe, Hother, Hd1 by lia.
  - rewrite Hframe by lia.
    rewrite (deref_set_NextInput _ _ _ _ _ _ Hset2), decide_True by (split; [done|lia]).
    simpl.
    rewrite (deref_set_Next _ _ _ _ _ _ Hset1), decide_True by (split; [done|lia]).
    simpl. rewrite Hn2. unfold name_of. by rewrite Hd2.
  - rewrite Hframe by lia.
    rewrite (deref_set_NextInput _ _ _ _ _ _ Hset2), decide_True by (split; [done|lia]).
    simpl. do 3 f_equal.
    rewrite Hnm by lia. 
    by rewrite (name_of_set_NextInput _ _ _ _ _ Hset2).
Qed.

Lemma mapM_Ok_length {A B} (f : A → M B) l : ∀ s k s',
  mapM f l s = Ok k s' → length k = length l.
Proof.
  induction l as [|x l IH]; intros s k s' H.
  - by apply mapM_Ok_nil in H as [-> _].
  - apply mapM_Ok_cons in H as (y & s1 & k' & _ & Hk & ->). simpl. f_equal. eauto.
Qed.

(** The steps of a successful lowering of a Parallel state. *)
Lemma Parallel_lowering file fuel name sm Branches Next_ s r s' :
  States sm !! name = Some (Parallel Branches Next_) →
  _translate_state_machine file (S fuel) name sm s = Ok r s' →
  ∃ branches s1,
    mapM (translate_state_machine file fuel) Branches s = Ok branches s1 ∧
    let unum_parallel := length (heap s1) in
    let unum_parallel_sink := S (length (heap s1)) in
    let parallel_fan_in_vals :=
      imap (fun i b => name_of s' (Exit_unum_function b) +:+ "-unumIndex-" +:+ pretty i)
           branches in
    Entry_unum_function r = unum_parallel ∧
    (∀ h, h ∈ [unum_parallel] ++ (branches ≫= unum_IR) ++ [unum_parallel_sink] →
          h ∈ unum_IR r) ∧
    (∀ h, h < length (heap s1) → name_of s' h = name_of s1 h) ∧
    name_of s' unum_parallel = "UnumParallel" +:+ pretty (unum_parallel_counter s1) ∧
    name_of s' unum_parallel_sink =
      "UnumParallelSink" +:+ pretty (unum_parallel_counter s1) ∧
    Next (deref unum_parallel s') =
      Some (NextNames ((fun b => name_of s' (Entry_unum_function b)) <$> branches)) ∧
    NextInput (deref unum_parallel s') = Some Scalar ∧
    ∀ b, b ∈ branches →
      Next (deref (Exit_unum_function b) s') = Some (NextName (name_of s' unum_parallel_sink)) ∧
      NextInput (deref (Exit_unum_function b) s') = Some (Fan_in parallel_fan_in_vals).
Proof.
  intros Hst H. simpl in H. rewrite Hst in H.
  inv_bind H. rename Hstep into Hbs. rename a into branches.
  apply (mapM_lowered _ (proj2 (lowering_lowered file fuel))) in Hbs as Hbl.
  exists branches, s0. split; [done|].
  inv_bind H. apply get_unum_parallel_counter_Ok in Hstep as [-> ->].
  inv_bind H. apply get_entry_names_Ok in Hstep as [-> ->].
  inv_bind H. rename Hstep into Hnew1. inv_bind H. rename Hstep into Hnew2.
  inv_bind H. rename Hstep into Hincr.
  inv_bind H. apply parallel_fan_in_values_Ok in Hstep as [-> ->].
  inv_bind H. rename Hstep into Hloop.
  destruct (region_parallel_barrier_pair _ _ _ _ _ _ _ _ _ _ _ Hnew1 Hnew2 Hincr)
    as (Hr3 & -> & -> & Hd1 & Hd2 & Hlen3); [done|done|].
  assert (region s ((branches ≫= unum_IR) ++ [length (heap s0); S (length (heap s0))]) s3)
    as Hr.
  { eapply region_trans; [apply Hbl|done]. }
  assert (∀ b, b ∈ branches →
            length (heap s) ≤ Exit_unum_function b < length (heap s0)) as Hexits.
  { intros b Hb. by apply (branches_exit_bounds _ _ _ _ Hbl Hb). }
  assert (∀ b, b ∈ branches →
            length (heap s) ≤ Entry_unum_function b < length (heap s0)) as Hentries.
  { intros b Hb. apply (region_handle_bounds _ _ _ _ (bl_region _ _ _ Hbl)).
    apply list_elem_of_bind. exists b. split; [|done].
    by apply (proj1 (Forall_forall _ _) (bl_entry _ _ _ Hbl)). }
  eapply for_b_in_branches_region in Hloop as (Hr4 & -> & Hlen4 & Hout & Hin);
    [|exact Hr|..]; cycle 1.
  { apply Forall_forall. intros b Hb. by apply Hexits. }
  { by eapply branches_exit_NoDup. }
  { apply Forall_forall. intros b Hb.
    rewrite (rg_frame _ _ _ Hr3) by (by apply Hexits).
    by apply (proj1 (Forall_forall _ _) (bl_exit_Next _ _ _ Hbl)). }
  assert (∀ h, name_of s4 h = name_of s3 h) as Hnames.
  { intros h. unfold name_of.
    destruct (decide (h ∈ Exit_unum_function <$> branches)) as [Hh|Hh]; [|by rewrite Hout].
    apply list_elem_of_fmap in Hh as (b & -> & Hb).
    rewrite Hin; [done|done|]. pose proof (Hexits b Hb). lia. }
  assert (∀ h, h < length (heap s0) → name_of s3 h = name_of s0 h) as Hnames3.
  { intros h ?. unfold name_of. by rewrite (rg_frame _ _ _ Hr3). }
  assert (∀ h, length (heap s0) ≤ h → deref h s4 = deref h s3) as Hnew.
  { intros h Hh. apply Hout. intros (b & -> & Hb)%list_elem_of_fmap.
    pose proof (Hexits b Hb). lia. }
  apply (wire_successor_frame _ (fun next => proj1 (lowering_lowered file fuel) next sm))
    in H as (HE & Hir & Hframe & Hnm).
  assert (name_of s' (S (length (heap s0)))
          = "UnumParallelSink" +:+ pretty (unum_parallel_counter s0)) as Hn2.
  { rewrite Hnm, Hnames by lia. unfold name_of. by rewrite Hd2. }
  simpl. split_and!; try done.
  - intros h ?. rewrite Hnm, Hnames by lia. by apply Hnames3.
  - rewrite Hnm, Hnames by lia. unfold name_of. by rewrite Hd1.
  - rewrite Hframe, Hnew, Hd1 by lia. simpl. do 2 f_equal.
    apply list_fmap_ext. intros i b Hb. apply list_elem_of_lookup_2 in Hb.
    pose proof (Hentries b Hb).
    by rewrite Hnm, Hnames, Hnames3 by lia.
  - rewrite Hframe, Hnew, Hd1 by lia. done.
  - intros b Hb. pose proof (Hexits b Hb).
    rewrite Hframe, Hin by (done || lia). simpl. split.
    + rewrite Hn2. unfold name_of. by rewrite Hd2.
    + do 2 f_equal. apply imap_ext. intros i b' Hb'. simpl.
      apply list_elem_of_lookup_2 in Hb'. pose proof (Hexits b' Hb').
      by rewrite Hnm, Hnames by lia.
Qed.

(** * Barrier names *)

Lemma pretty_N_go_not_S x : ∀ s s',
  s ≠ ("S" +:+ s') → pretty_N_go x s ≠ ("S" +:+ s').
Proof.
  induction (N.lt_wf_0 x) as [x _ IH]. intros s s' Hs.
  destruct (decide (x = 0)%N) as [->|Hx]; [by rewrite pretty_N_go_0|].
  rewrite pretty_N_go_step by lia. apply IH; [apply N.div_lt; lia|].
  unfold pretty_N_char. simpl. repeat case_match; discriminate.
Qed.

Lemma pretty_nat_not_S (n : nat) s : pretty n ≠ ("S" +:+ s).
Proof.
  unfold pretty, pretty_nat, pretty, pretty_N. case_decide; [discriminate|].
  by apply pretty_N_go_not_S.
Qed.

Lemma NoDup_barrier_names m m' p p' : NoDup (barrier_names m m' p p').
Proof.
  unfold barrier_names. apply NoDup_app. split_and!.
  - apply NoDup_bind; [| |apply NoDup_seq].
    + intros n1 n2 y _ _ H1 H2.
      apply elem_of_cons in H1 as [->|H1]; [|apply list_elem_of_singleton in H1 as ->];
        (apply elem_of_cons in H2 as [H2|H2]; [|apply list_elem_of_singleton in H2]);
        simpl in H2; injection H2 as H2.
      * by apply (inj pretty).
      * by apply pretty_nat_not_S in H2.
      * symmetry in H2. by apply pretty_nat_not_S in H2.
      * by apply (inj pretty).
    + intros n _. apply NoDup_cons. split; [|apply NoDup_singleton].
      intros H%list_elem_of_singleton. simpl in H. injection H as H.
      by apply pretty_nat_not_S in H.
  - intros x (n1 & H1 & _)%list_elem_of_bind (n2 & H2 & _)%list_elem_of_bind.
    apply elem_of_cons in H1 as [->|H1]; [|apply list_elem_of_singleton in H1 as ->];
      (apply elem_of_cons in H2 as [H2|H2]; [|apply list_elem_of_singleton in H2]);
      simpl in H2; discriminate H2.
  - apply NoDup_bind; [| |apply NoDup_seq].
    + intros n1 n2 y _ _ H1 H2.
      apply elem_of_cons in H1 as [->|H1]; [|apply list_elem_of_singleton in H1 as ->];
        (apply elem_of_cons in H2 as [H2|H2]; [|apply list_elem_of_singleton in H2]);
        simpl in H2; injection H2 as H2.
      * by apply (inj pretty).
      * by apply pretty_nat_not_S in H2.
      * symmetry in H2. by apply pretty_nat_not_S in H2.
      * by apply (inj pretty).
    + intros n _. apply NoDup_cons. split; [|apply NoDup_singleton].
      intros H%list_elem_of_singleton. simpl in H. injection H as H.
      by apply pretty_nat_not_S in H.
Qed.

(** * Whole runs *)

(** A successful run of [main]: the lowering, then the checkpoint pass,
    which only sets ["Checkpoint"] entries. *)
Lemma main_Ok file fuel sm d s r s' :
  main file fuel sm d s = Ok r s' →
  ∃ s1, translate_state_machine file fuel sm s = Ok r s1 ∧
        new_events s s' = new_events s s1 ∧
        (∀ h, name_of s' h = name_of s1 h) ∧
        ∀ h, deref h s' =
             if decide (h ∈ unum_IR r ∧ h < length (heap s1))
             then checkpointed (checkpoint_policy d (deref h s1)) (deref h s1)
             else deref h s1.
Proof.
  intros H. unfold main in H. inv_bind H. inv_bind H. apply mret_Ok in H as [<- <-].
  exists s0. split; [done|].
  apply for_c_in_ir_Ok in Hstep0 as (_ & Ht & _ & _ & Hd).
  split_and!; [|intros h|done].
  - unfold new_events. by rewrite Ht.
  - unfold name_of. rewrite Hd. by case_decide.
Qed.

Lemma fmap_name_of_ext s s' (l : list handle) :
  (∀ h, name_of s' h = name_of s h) → name_of s' <$> l = name_of s <$> l.
Proof. intros Hnm. apply list_fmap_ext. intros i h _. apply Hnm. Qed.

(** * Task chains *)

Lemma get_state_unum_function_name_resolve file Resource s :
  get_state_unum_function_name file Resource s =
  match resolve file Resource with
  | inr n => Ok n s
  | inl e => Raise e s
  end.
Proof.
  unfold get_state_unum_function_name, resolve.
  destruct (str_in _ _); [|done]. destruct file as [[m| |]|]; [|done|done|done].
  by destruct (key_of_first_value m Resource).
Qed.

Lemma chain_lookup_A rA rB rC :
  States (chain_ABC rA rB rC) !! "A" = Some (Task rA None (Some "B")).
Proof. vm_compute. reflexivity. Qed.
Lemma chain_lookup_B rA rB rC :
  States (chain_ABC rA rB rC) !! "B" = Some (Task rB None (Some "C")).
Proof. vm_compute. reflexivity. Qed.
Lemma chain_lookup_C rA rB rC :
  States (chain_ABC rA rB rC) !! "C" = Some (Task rC (Some true) None).
Proof. vm_compute. reflexivity. Qed.

Lemma translate_state_machine_S file fuel sm :
  translate_state_machine file (S fuel) sm =
  match States sm !! StartAt sm with
  | None => raise (KeyError (StartAt sm))
  | Some _ => _translate_state_machine file fuel (StartAt sm) sm
  end.
Proof. done. Qed.

Lemma Task_End_S file fuel name sm Resource Next_ :
  States sm !! name = Some (Task Resource (Some true) Next_) →
  _translate_state_machine file (S fuel) name sm =
  (unum_function_name ← get_state_unum_function_name file Resource;
   config ← new_dict NewTask (named unum_function_name);
   mret {| State_Name := name; unum_IR := [config];
           Entry_unum_function := config; Exit_unum_function := config |}).
Proof. intros Hst. simpl. by rewrite Hst. Qed.

Lemma Task_Next_S file fuel name sm Resource End_ next :
  States sm !! name = Some (Task Resource End_ (Some next)) →
  End_ ≠ Some true →
  _translate_state_machine file (S fuel) name sm =
  (unum_function_name ← get_state_unum_function_name file Resource;
   next_state ← _translate_state_machine file fuel next sm;
   entry_name ← get_Name (Entry_unum_function next_state);
   config ← new_dict NewTask (named_next unum_function_name (NextName entry_name) Scalar);
   mret {| State_Name := name; unum_IR := [config] ++ unum_IR next_state;
           Entry_unum_function := config;
           Exit_unum_function := Exit_unum_function next_state |}).
Proof. intros Hst HEnd. simpl. rewrite Hst. by rewrite bool_decide_eq_false_2. Qed.

Lemma deref_snoc_new m p l c t :
  deref (length l) (Globals m p (l ++ [c]) t) = c.
Proof. unfold deref. simpl. by rewrite list_lookup_middle. Qed.

Lemma deref_snoc_old m p l c t t' h :
  h < length l → deref h (Globals m p (l ++ [c]) t) = deref h (Globals m p l t').
Proof. intros. unfold deref. simpl. by rewrite lookup_app_l. Qed.

Lemma chain_ABC_Ok file rA rB rC nA nB nC fuel s :
  resolve file rA = inr nA → resolve file rB = inr nB → resolve file rC = inr nC →
  ∃ r s', translate_state_machine file (4 + fuel) (chain_ABC rA rB rC) s = Ok r s' ∧
          IR_of r s' = chain_IR nA nB nC.
Proof.
  intros HA HB HC. change (4 + fuel) with (S (S (S (S fuel)))).
  rewrite translate_state_machine_S. change (StartAt (chain_ABC rA rB rC)) with "A".
  rewrite chain_lookup_A.
  rewrite (Task_Next_S _ _ _ _ _ _ _ (chain_lookup_A _ _ _)) by done.
  rewrite (Task_Next_S _ _ _ _ _ _ _ (chain_lookup_B _ _ _)) by done.
  rewrite (Task_End_S _ _ _ _ _ _ (chain_lookup_C _ _ _)).
  unfold mbind, M_bind. rewrite !get_state_unum_function_name_resolve, HA.
  rewrite !get_state_unum_function_name_resolve, HB.
  rewrite !get_state_unum_function_name_resolve, HC.
  eexists _, _. split; [reflexivity|].
  unfold IR_of, chain_IR. simpl.
  rewrite !deref_snoc_new. unfold deref. simpl.
  rewrite <-!(assoc_L (++)). simpl.
  rewrite (list_lookup_middle (heap s) _ (named nC) (length (heap s))) by done.
  rewrite lookup_app_r, length_app by (rewrite length_app; lia). simpl.
  by replace (length (heap s) + 1 - length (heap s)) with 1 by lia.
Qed.

(** The lowering of a state machine made of Task states only is independent
    of the state it starts in: it neither reads nor advances the counters. *)
Lemma Tasks_only_state_independent file sm :
  Tasks_only sm →
  ∀ fuel name, state_independent (_translate_state_machine file fuel name sm).
Proof.
  intros Hsm. induction fuel as [|fuel IH]; intros name; [by left|].
  destruct (States sm !! name) as [st|] eqn:Hst; cycle 1.
  { right; left. exists (KeyError name). intros s. simpl. by rewrite Hst. }
  destruct (Hsm _ _ Hst) as (R & E & N & ->).
  destruct (resolve file R) as [e|n] eqn:HR.
  { right; left. exists e. intros s. simpl. rewrite Hst. unfold mbind, M_bind.
    by rewrite get_state_unum_function_name_resolve, HR. }
  destruct (decide (E = Some true)) as [->|HE].
  { right; right. exists [named n], n. intros s. eexists _, _.
    rewrite (Task_End_S _ _ _ _ _ _ Hst). unfold mbind, M_bind.
    rewrite get_state_unum_function_name_resolve, HR.
    split; [reflexivity|]. unfold IR_of, name_of. simpl.
    by rewrite deref_snoc_new. }
  destruct N as [next|]; cycle 1.
  { right; left. exists RuntimeError. intros s. simpl. rewrite Hst. unfold mbind, M_bind.
    rewrite get_state_unum_function_name_resolve, HR.
    by rewrite bool_decide_eq_false_2. }
  rewrite (Task_Next_S _ _ _ _ _ _ _ Hst) by done.
  destruct (IH next) as [Hout|[(e & He)|(ir & en & Hok)]].
  - left. intros s. unfold mbind, M_bind.
    by rewrite get_state_unum_function_name_resolve, HR, Hout.
  - right; left. exists e. intros s. unfold mbind, M_bind.
    by rewrite get_state_unum_function_name_resolve, HR, He.
  - right; right. exists (named_next n (NextName en) Scalar :: ir), n. intros s.
    destruct (Hok s) as (r1 & s1 & H1 & HIR & Hen).
    pose proof (proj1 (lowering_lowered file fuel) _ _ _ _ _ H1) as Hl.
    eexists _, _. unfold mbind, M_bind.
    rewrite get_state_unum_function_name_resolve, HR, H1.
    split; [reflexivity|]. unfold IR_of, name_of. simpl.
    destruct s1 as [m p l t]. rewrite !deref_snoc_new. simpl.
    split; [|done]. f_equal; [by rewrite <-Hen|].
    rewrite <-HIR. unfold IR_of. apply list_fmap_ext. intros i h Hh.
    apply list_elem_of_lookup_2 in Hh.
    apply (lowered_handle_bounds _ _ _ _ Hl) in Hh as [_ Hh].
    by apply deref_snoc_old.
Qed.

Lemma chain_ABC_Tasks_only rA rB rC : Tasks_only (chain_ABC rA rB rC).
Proof.
  intros name st H. unfold chain_ABC in H. simpl in H.
  apply lookup_insert_Some in H as [[_ <-]|[_ H]]; [by eauto|].
  apply lookup_insert_Some in H as [[_ <-]|[_ H]]; [by eauto|].
  apply lookup_singleton_Some in H as [_ <-]. by eauto.
Qed.

(** * The shape of each case of the lowering *)

Section wire_successor_shape.
Context (lower : string → M result).

(** The two ways the successor wiring returns. *)
Lemma wire_successor_Ok state_name Next_ ir entry sink s r s' :
  wire_successor lower state_name Next_ ir entry sink s = Ok r s' →
  (Next_ = None ∧ s' = s ∧
   r = {| State_Name := state_name; unum_IR := ir;
          Entry_unum_function := entry; Exit_unum_function := sink |}) ∨
  (∃ next next_state s1,
     Next_ = Some next ∧ lower next s = Ok next_state s1 ∧
     r = {| State_Name := state_name; unum_IR := ir ++ unum_IR next_state;
            Entry_unum_function := entry;
            Exit_unum_function := Exit_unum_function next_state |} ∧
     unum_map_counter s' = unum_map_counter s1 ∧
     unum_parallel_counter s' = unum_parallel_counter s1 ∧
     length (heap s') = length (heap s1) ∧
     (∀ h, h ≠ sink → deref h s' = deref h s1) ∧
     (sink < length (heap s1) →
      deref sink s' =
      {| Name := name_of s1 sink;
         Next := Some (NextName (name_of s1 (Entry_unum_function next_state)));
         NextInput := Some Scalar;
         Checkpoint := Checkpoint (deref sink s1) |})).
Proof.
  intros H. unfold wire_successor in H. destruct Next_ as [next|].
  - right. inv_bind H. rename a into nx.
    inv_bind H. apply get_Name_Ok in Hstep0 as [-> ->].
    inv_bind H. rename Hstep0 into Hset1. inv_bind H. rename Hstep0 into Hset2.
    apply mret_Ok in H as [<- <-].
    pose proof (set_Next_Ok _ _ _ _ _ Hset1) as (_ & _ & Hm1 & Hp1).
    pose proof (set_NextInput_Ok _ _ _ _ _ Hset2) as (_ & _ & Hm2 & Hp2).
    pose proof (length_set_Next _ _ _ _ _ Hset1) as Hl1.
    pose proof (length_set_NextInput _ _ _ _ _ Hset2) as Hl2.
    exists next, nx, s0. split_and!; try done; try congruence.
    + intros h Hh.
      rewrite (deref_set_NextInput _ _ _ _ _ _ Hset2), decide_False by (by intros [? _]).
      by rewrite (deref_set_Next _ _ _ _ _ _ Hset1), decide_False by (by intros [? _]).
    + intros Hlt.
      rewrite (deref_set_NextInput _ _ _ _ _ _ Hset2), decide_True by (split; [done|lia]).
      rewrite (deref_set_Next _ _ _ _ _ _ Hset1), decide_True by done.
      done.
  - left. by apply mret_Ok in H as [<- <-].
Qed.
End wire_successor_shape.

(** A terminal Task: ["End"] is true. *)
Lemma Task_End_Ok file fuel name sm Resource Next_ s r s' :
  States sm !! name = Some (Task Resource (Some true) Next_) →
  _translate_state_machine file (S fuel) name sm s = Ok r s' →
  ∃ u, get_state_unum_function_name file Resource s = Ok u s ∧
    r = {| State_Name := name; unum_IR := [length (heap s)];
           Entry_unum_function := length (heap s);
           Exit_unum_function := length (heap s) |} ∧
    heap s' = heap s ++ [named u] ∧
    unum_map_counter s' = unum_map_counter s ∧
    unum_parallel_counter s' = unum_parallel_counter s.
Proof.
  intros Hst H. rewrite (Task_End_S _ _ _ _ _ _ Hst) in H.
  inv_bind H. pose proof (get_state_unum_function_name_Ok _ _ _ _ _ Hstep) as ->.
  inv_bind H. apply mret_Ok in H as [<- <-].
  apply new_dict_Ok in Hstep0 as (-> & Hh & _ & Hm & Hp).
  by exists a.
Qed.

(** A Task with a successor. *)
Lemma Task_Next_Ok file fuel name sm Resource End_ next s r s' :
  States sm !! name = Some (Task Resource End_ (Some next)) →
  End_ ≠ Some true →
  _translate_state_machine file (S fuel) name sm s = Ok r s' →
  ∃ u next_state s1,
    get_state_unum_function_name file Resource s = Ok u s ∧
    _translate_state_machine file fuel next sm s = Ok next_state s1 ∧
    r = {| State_Name := name;
           unum_IR := length (heap s1) :: unum_IR next_state;
           Entry_unum_function := length (heap s1);
           Exit_unum_function := Exit_unum_function next_state |} ∧
    heap s' =
      heap s1 ++
      [named_next u (NextName (name_of s1 (Entry_unum_function next_state))) Scalar] ∧
    unum_map_counter s' = unum_map_counter s1 ∧
    unum_parallel_counter s' = unum_parallel_counter s1.
Proof.
  intros Hst HEnd H. rewrite (Task_Next_S _ _ _ _ _ _ _ Hst HEnd) in H.
  inv_bind H. pose proof (get_state_unum_function_name_Ok _ _ _ _ _ Hstep) as ->.
  inv_bind H. inv_bind H. apply get_Name_Ok in Hstep1 as [-> ->].
  inv_bind H. apply mret_Ok in H as [<- <-].
  apply new_dict_Ok in Hstep1 as (-> & Hh & _ & Hm & Hp).
  by exists a, a0, s0.
Qed.

(** A Map state, up to the successor wiring. *)
Lemma Map_Ok file fuel name sm Iterator Next_ s r s' :
  States sm !! name = Some (Map Iterator Next_) →
  _translate_state_machine file (S fuel) name sm s = Ok r s' →
  ∃ iterator s1 s2,
    translate_state_machine file fuel Iterator s = Ok iterator s1 ∧
    let unum_map := length (heap s1) in
    let unum_map_sink := S (length (heap s1)) in
    let exit := Exit_unum_function iterator in
    let n := unum_map_counter s1 in
    unum_map_counter s2 = n + 1 ∧
    unum_parallel_counter s2 = unum_parallel_counter s1 ∧
    length (heap s2) = S (S (length (heap s1))) ∧
    (∀ h, h < length (heap s1) → h ≠ exit → deref h s2 = deref h s1) ∧
    deref exit s2 =
      fanned_in ("UnumMapSink" +:+ pretty n) [name_of s1 exit +:+ "-unumIndex-*"]
                (deref exit s1) ∧
    deref unum_map s2 =
      named_next ("UnumMap" +:+ pretty n)
                 (NextName (name_of s1 (Entry_unum_function iterator))) MapInput ∧
    deref unum_map_sink s2 = named ("UnumMapSink" +:+ pretty n) ∧
    wire_successor (fun next => _translate_state_machine file fuel next sm)
      name Next_ ([unum_map] ++ unum_IR iterator ++ [unum_map_sink])
      unum_map unum_map_sink s2 = Ok r s'.
Proof.
  intros Hst H. simpl in H. rewrite Hst in H.
  inv_bind H. rename Hstep into Hit. rename a into iterator.
  apply (proj2 (lowering_lowered file fuel)) in Hit as Hl.
  inv_bind H. apply get_unum_map_counter_Ok in Hstep as [-> ->].
  inv_bind H. apply get_Name_Ok in Hstep as [-> ->].
  inv_bind H. rename Hstep into Hnew1. inv_bind H. rename Hstep into Hnew2.
  inv_bind H. rename Hstep into Hincr.
  inv_bind H. apply get_Name_Ok in Hstep as [-> ->].
  inv_bind H. rename Hstep into Hset1.
  inv_bind H. apply get_Name_Ok in Hstep as [-> ->].
  inv_bind H. rename Hstep into Hset2.
  destruct (region_map_barrier_pair _ _ _ _ _ _ _ _ _ _ _ Hnew1 Hnew2 Hincr)
    as (Hr3 & -> & -> & Hd1 & Hd2 & Hlen3); [done|done|].
  pose proof (lowered_handle_bounds _ _ _ _ Hl (lw_exit _ _ _ Hl)) as [? ?].
  pose proof (length_set_Next _ _ _ _ _ Hset1) as Hlen4.
  pose proof (length_set_NextInput _ _ _ _ _ Hset2) as Hlen5.
  pose proof (set_Next_Ok _ _ _ _ _ Hset1) as (_ & _ & Hm4 & Hp4).
  pose proof (set_NextInput_Ok _ _ _ _ _ Hset2) as (_ & _ & Hm5 & Hp5).
  pose proof (incr_unum_map_counter_Ok _ _ _ Hincr) as (_ & _ & Hm3 & Hp3).
  pose proof (new_dict_Ok _ _ _ _ _ Hnew1) as (_ & _ & _ & Hm1 & Hp1).
  pose proof (new_dict_Ok _ _ _ _ _ Hnew2) as (_ & _ & _ & Hm2 & Hp2).
  assert (∀ h, h ≠ Exit_unum_function iterator → deref h s5 = deref h s3) as Hother.
  { intros h Hh.
    rewrite (deref_set_NextInput _ _ _ _ _ _ Hset2), decide_False by (by intros [? _]).
    by rewrite (deref_set_Next _ _ _ _ _ _ Hset1), decide_False by (by intros [? _]). }
  exists iterator, s0, s5. split; [done|]. simpl.
  split_and!; try lia; try congruence.
  - intros h ? ?. rewrite Hother by done. by apply (rg_frame _ _ _ Hr3).
  - rewrite (deref_set_NextInput _ _ _ _ _ _ Hset2), decide_True by (split; [done|lia]).
    rewrite (deref_set_Next _ _ _ _ _ _ Hset1), decide_True by (split; [done|lia]).
    simpl. unfold fanned_in.
    rewrite (name_of_set_Next _ _ _ _ _ Hset1).
    rewrite (rg_frame _ _ _ Hr3) by done.
    unfold name_of at 1 2. rewrite Hd2, (rg_frame _ _ _ Hr3) by done. done.
  - by rewrite Hother, Hd1 by lia.
  - by rewrite Hother, Hd2 by lia.
  - done.
Qed.

Lemma for_b_in_branches_counters vals sink bs : ∀ ir s ir' s',
  for_b_in_branches vals sink bs ir s = Ok ir' s' →
  unum_map_counter s' = unum_map_counter s ∧
  unum_parallel_counter s' = unum_parallel_counter s.
Proof.
  induction bs as [|b bs IH]; intros ir s ir' s' H; simpl in H.
  - by apply mret_Ok in H as [_ <-].
  - inv_bind H. rename Hstep into Hset1.
    inv_bind H. apply get_Name_Ok in Hstep as [-> ->].
    inv_bind H. rename Hstep into Hset2.
    apply IH in H as [-> ->].
    apply set_Next_Ok in Hset2 as (_ & _ & -> & ->).
    by apply set_NextInput_Ok in Hset1 as (_ & _ & -> & ->).
Qed.

(** A Parallel state, up to the successor wiring. *)
Lemma Parallel_Ok file fuel name sm Branches Next_ s r s' :
  States sm !! name = Some (Parallel Branches Next_) →
  _translate_state_machine file (S fuel) name sm s = Ok r s' →
  ∃ branches s1 s2,
    mapM (translate_state_machine file fuel) Branches s = Ok branches s1 ∧
    let unum_parallel := length (heap s1) in
    let unum_parallel_sink := S (length (heap s1)) in
    let n := unum_parallel_counter s1 in
    let parallel_fan_in_vals :=
      imap (fun i b => name_of s1 (Exit_unum_function b) +:+ "-unumIndex-" +:+ pretty i)
           branches in
    unum_map_counter s2 = unum_map_counter s1 ∧
    unum_parallel_counter s2 = n + 1 ∧
    length (heap s2) = S (S (length (heap s1))) ∧
    (∀ h, h < length (heap s1) → h ∉ Exit_unum_function <$> branches →
          deref h s2 = deref h s1) ∧
    (∀ b, b ∈ branches →
          deref (Exit_unum_function b) s2 =
          fanned_in ("UnumParallelSink" +:+ pretty n) parallel_fan_in_vals
                    (deref (Exit_unum_function b) s1)) ∧
    deref unum_parallel s2 =
      named_next ("UnumParallel" +:+ pretty n)
        (NextNames ((fun b => name_of s1 (Entry_unum_function b)) <$> branches)) Scalar ∧
    deref unum_parallel_sink s2 = named ("UnumParallelSink" +:+ pretty n) ∧
    wire_successor (fun next => _translate_state_machine file fuel next sm)
      name Next_ ([unum_parallel] ++ (branches ≫= unum_IR) ++ [unum_parallel_sink])
      unum_parallel unum_parallel_sink s2 = Ok r s'.
Proof.
  intros Hst H. simpl in H. rewrite Hst in H.
  inv_bind H. rename Hstep into Hbs. rename a into branches.
  apply (mapM_lowered _ (proj2 (lowering_lowered file fuel))) in Hbs as Hbl.
  inv_bind H. apply get_unum_parallel_counter_Ok in Hstep as [-> ->].
  inv_bind H. apply get_entry_names_Ok in Hstep as [-> ->].
  inv_bind H. rename Hstep into Hnew1. inv_bind H. rename Hstep into Hnew2.
  inv_bind H. rename Hstep into Hincr.
  inv_bind H. apply parallel_fan_in_values_Ok in Hstep as [-> ->].
  inv_bind H. rename Hstep into Hloop.
  destruct (region_parallel_barrier_pair _ _ _ _ _ _ _ _ _ _ _ Hnew1 Hnew2 Hincr)
    as (Hr3 & -> & -> & Hd1 & Hd2 & Hlen3); [done|done|].
  pose proof (incr_unum_parallel_counter_Ok _ _ _ Hincr) as (_ & _ & Hm3 & Hp3).
  pose proof (new_dict_Ok _ _ _ _ _ Hnew1) as (_ & _ & _ & Hm1 & Hp1).
  pose proof (new_dict_Ok _ _ _ _ _ Hnew2) as (_ & _ & _ & Hm2 & Hp2).
  assert (region s ((branches ≫= unum_IR) ++ [length (heap s0); S (length (heap s0))]) s3)
    as Hr.
  { eapply region_trans; [apply Hbl|done]. }
  assert (∀ b, b ∈ branches →
            length (heap s) ≤ Exit_unum_function b < length (heap s0)) as Hexits.
  { intros b Hb. by apply (branches_exit_bounds _ _ _ _ Hbl Hb). }
  pose proof (rg_map_counter _ _ _ Hr) as Hmr. pose proof (rg_parallel_counter _ _ _ Hr) as Hpr.
  pose proof (for_b_in_branches_counters _ _ _ _ _ _ _ Hloop) as [Hm4 Hp4].
  eapply for_b_in_branches_region in Hloop as (Hr4 & -> & Hlen4 & Hout & Hin);
    [|exact Hr|..]; cycle 1.
  { apply Forall_forall. intros b Hb. by apply Hexits. }
  { by eapply branches_exit_NoDup. }
  { apply Forall_forall. intros b Hb.
    rewrite (rg_frame _ _ _ Hr3) by (by apply Hexits).
    by apply (proj1 (Forall_forall _ _) (bl_exit_Next _ _ _ Hbl)). }
  assert (∀ h, length (heap s0) ≤ h → deref h s4 = deref h s3) as Hnew.
  { intros h Hh. apply Hout. intros (b & -> & Hb)%list_elem_of_fmap.
    pose proof (Hexits b Hb). lia. }
  assert (∀ h, h < length (heap s0) → name_of s3 h = name_of s0 h) as Hnames3.
  { intros h ?. unfold name_of. by rewrite (rg_frame _ _ _ Hr3). }
  exists branches, s0, s4. split; [done|]. simpl.
  split_and!; try lia.
  - intros h ? ?. rewrite Hout by done. by apply (rg_frame _ _ _ Hr3).
  - intros b Hb. pose proof (Hexits b Hb).
    rewrite Hin by (done || lia). unfold name_of at 1. rewrite Hd2. simpl.
    rewrite (rg_frame _ _ _ Hr3) by lia. f_equal.
    apply imap_ext. intros i b' Hb'. simpl.
    apply list_elem_of_lookup_2 in Hb'. pose proof (Hexits b' Hb').
    by rewrite Hnames3 by lia.
  - by rewrite Hnew, Hd1 by lia.
  - by rewrite Hnew, Hd2 by lia.
  - done.
Qed.

Lemma for_b_in_branches_total vals sink bs : ∀ ir s,
  ∃ ir' s', for_b_in_branches vals sink bs ir s = Ok ir' s' ∧
            length (heap s') = length (heap s) ∧
            unum_map_counter s' = unum_map_counter s ∧
            unum_parallel_counter s' = unum_parallel_counter s.
Proof.
  induction bs as [|b bs IH]; intros ir s; [by eexists _, _|].
  cbn [for_b_in_branches]. unfold mbind, M_bind.
  destruct (set_NextInput (Exit_unum_function b) (Fan_in vals) s) as [u1 s1| |] eqn:E1;
    [|done|done].
  unfold get_Name at 1.
  destruct (set_Next (Exit_unum_function b) (NextName (Name (deref sink s1))) s1)
    as [u2 s2| |] eqn:E2; [|done|done].
  destruct (IH (ir ++ unum_IR b) s2) as (ir' & s' & -> & Hl & Hm & Hp).
  exists ir', s'. split; [done|].
  pose proof (length_set_NextInput _ _ _ _ _ E1).
  pose proof (length_set_Next _ _ _ _ _ E2).
  apply set_NextInput_Ok in E1 as (_ & _ & ? & ?).
  apply set_Next_Ok in E2 as (_ & _ & ? & ?).
  split_and!; congruence.
Qed.

(** * Every emitted dictionary but the exit is wired *)

Lemma wired_frame r s s' :
  wired r s → (∀ h, h ∈ unum_IR r → deref h s' = deref h s) → wired r s'.
Proof.
  intros [Hh Hl Hc Hk] Heq. split; [done|done|..].
  - intros h Hin. rewrite Heq by done. by apply Hc.
  - intros h Hin Hne. rewrite Heq by done. by apply Hk.
Qed.

Lemma last_app_nonempty {A} (l k : list A) x :
  head k = Some x → last (l ++ k) = last k.
Proof.
  intros Hk. destruct k as [|y k]; [done|].
  by rewrite last_app_cons.
Qed.

Lemma last_wrap {A} (x y : A) l : last (x :: l ++ [y]) = Some y.
Proof. by rewrite app_comm_cons, last_snoc. Qed.

Lemma elem_of_wrap {A} (x y : A) l h :
  h ∈ [x] ++ l ++ [y] ↔ h = x ∨ h ∈ l ∨ h = y.
Proof.
  simpl. rewrite elem_of_cons, elem_of_app, list_elem_of_singleton. done.
Qed.

Section wire_successor_wired.
Context (lower : string → M result).
Hypothesis lower_lowered : ∀ next s r s', lower next s = Ok r s' → lowered s r s'.
Hypothesis lower_wired : ∀ next s r s', lower next s = Ok r s' → wired r s'.

Lemma wire_successor_wired state_name Next_ ir entry sink s r s' :
  wired {| State_Name := state_name; unum_IR := ir;
           Entry_unum_function := entry; Exit_unum_function := sink |} s →
  (∀ h, h ∈ ir → h < length (heap s)) →
  sink ∈ ir →
  wire_successor lower state_name Next_ ir entry sink s = Ok r s' →
  wired r s'.
Proof.
  intros [Hh Hl Hc Hk] Hbound Hsink H. simpl in *.
  apply wire_successor_Ok in H
    as [(-> & -> & ->)|(next & nx & s1 & -> & Hnx & -> & _ & _ & _ & Hother & Hs)];
    [by split|].
  pose proof (lower_lowered _ _ _ _ Hnx) as Hlow.
  pose proof (lower_wired _ _ _ _ Hnx) as [Hh1 Hl1 Hc1 Hk1].
  pose proof (lw_exit _ _ _ Hlow) as Hex.
  pose proof (rg_length _ _ _ (lw_region _ _ _ Hlow)) as Hlen.
  pose proof (Hbound _ Hsink) as Hsb.
  assert (∀ h, h ∈ unum_IR nx → h ≠ sink) as Hfresh.
  { intros h Hin ->. apply (lowered_handle_bounds _ _ _ _ Hlow) in Hin. lia. }
  split; simpl.
  - destruct ir as [|h0 ir]; [done|]. done.
  - by rewrite (last_app_nonempty _ _ _ Hh1).
  - intros h [Hin|Hin]%elem_of_app.
    + destruct (decide (h = sink)) as [->|Hne].
      * rewrite Hs by lia. simpl. rewrite (deref_frame _ _ _ _ Hlow) by done.
        by apply Hc.
      * rewrite Hother, (deref_frame _ _ _ _ Hlow) by auto. by apply Hc.
    + rewrite Hother by auto. by apply Hc1.
  - intros h [Hin|Hin]%elem_of_app Hne.
    + destruct (decide (h = sink)) as [->|Hne'].
      * rewrite Hs by lia. done.
      * rewrite Hother, (deref_frame _ _ _ _ Hlow) by auto. by apply Hk.
    + rewrite Hother by auto. by apply Hk1.
Qed.
End wire_successor_wired.

Lemma mapM_wired {A} (f : A → M result) :
  (∀ x s r s', f x s = Ok r s' → lowered s r s') →
  (∀ x s r s', f x s = Ok r s' → wired r s') →
  ∀ l s bs s', mapM f l s = Ok bs s' → Forall (fun b => wired b s') bs.
Proof.
  intros Hf Hw. induction l as [|x l IH]; intros s bs s' H.
  - by apply mapM_Ok_nil in H as [-> ->].
  - apply mapM_Ok_cons in H as (b & s1 & bs' & Hb & Hbs & ->).
    pose proof (Hf _ _ _ _ Hb) as Hl.
    pose proof (bl_region _ _ _ (mapM_lowered _ Hf _ _ _ _ Hbs)) as Hr.
    constructor; [|by eapply IH].
    apply (wired_frame _ s1); [by eapply Hw|].
    intros h Hin. apply (rg_frame _ _ _ Hr).
    by apply (lowered_handle_bounds _ _ _ _ Hl) in Hin as [_ ?].
Qed.

Theorem lowering_wired file fuel :
  (∀ name sm s r s',
     _translate_state_machine file fuel name sm s = Ok r s' → wired r s') ∧
  (∀ sm s r s',
     translate_state_machine file fuel sm s = Ok r s' → wired r s').
Proof.
  induction fuel as [|fuel [IH1 IH2]]; [done|]. split.
  - intros name sm s r s' H.
    destruct (States sm !! name)
      as [[Resource End_ Next_|Iterator Next_|Branches Next_]|] eqn:Hst;
      [| | |by simpl in H; rewrite Hst in H].
    + (* Task *)
      destruct (decide (End_ = Some true)) as [->|HEnd].
      * destruct (Task_End_Ok _ _ _ _ _ _ _ _ _ Hst H) as (u & _ & -> & Hh & _).
        split; simpl; [done|done|..].
        -- intros h ->%list_elem_of_singleton. by rewrite (deref_app_new _ _ _ Hh).
        -- by intros h ->%list_elem_of_singleton.
      * destruct Next_ as [next|]; cycle 1.
        { simpl in H. rewrite Hst in H. inv_bind H.
          by rewrite bool_decide_eq_false_2 in H. }
        destruct (Task_Next_Ok _ _ _ _ _ _ _ _ _ _ Hst HEnd H)
          as (u & nx & s1 & _ & Hnx & -> & Hh & _).
        pose proof (proj1 (lowering_lowered file fuel) _ _ _ _ _ Hnx) as Hl.
        pose proof (IH1 _ _ _ _ _ Hnx) as [Hh1 Hl1 Hc1 Hk1].
        split; simpl; [done|..].
        -- destruct (unum_IR nx) as [|h0 l] eqn:E; [done|]. by rewrite last_cons_cons.
        -- intros h [->|Hin]%elem_of_cons.
           ++ by rewrite (deref_app_new _ _ _ Hh).
           ++ rewrite (deref_app_old _ _ _ _ Hh); [by apply Hc1|].
              by apply (lowered_handle_bounds _ _ _ _ Hl) in Hin as [_ ?].
        -- intros h [->|Hin]%elem_of_cons Hne.
           ++ by rewrite (deref_app_new _ _ _ Hh).
           ++ rewrite (deref_app_old _ _ _ _ Hh); [by apply Hk1|].
              by apply (lowered_handle_bounds _ _ _ _ Hl) in Hin as [_ ?].
    + (* Map *)
      destruct (Map_Ok _ _ _ _ _ _ _ _ _ Hst H)
        as (it & s1 & s2 & Hit & _ & _ & Hlen & Hother & Hexit & Hentry & Hsink & Hw).
      pose proof (proj2 (lowering_lowered file fuel) _ _ _ _ Hit) as Hl.
      pose proof (IH2 _ _ _ _ Hit) as [Hh1 Hl1 Hc1 Hk1].
      pose proof (lw_exit _ _ _ Hl) as Hex.
      apply (wire_successor_wired _
               (fun next => proj1 (lowering_lowered file fuel) next sm)
               (fun next => IH1 next sm)) in Hw; [done|..].
      * split; simpl.
        -- done.
        -- apply last_wrap.
        -- intros h [->|[Hin| ->]]%elem_of_wrap.
           ++ by rewrite Hentry.
           ++ pose proof (lowered_handle_bounds _ _ _ _ Hl Hin) as [_ ?].
              destruct (decide (h = Exit_unum_function it)) as [->|Hne].
              ** rewrite Hexit. simpl. by apply Hc1.
              ** rewrite Hother by done. by apply Hc1.
           ++ by rewrite Hsink.
        -- intros h [->|[Hin| ->]]%elem_of_wrap Hne.
           ++ by rewrite Hentry.
           ++ pose proof (lowered_handle_bounds _ _ _ _ Hl Hin) as [_ ?].
              destruct (decide (h = Exit_unum_function it)) as [->|Hne'].
              ** by rewrite Hexit.
              ** rewrite Hother by done. by apply Hk1.
           ++ done.
      * intros h [->|[Hin| ->]]%elem_of_wrap; [lia| |lia].
        apply (lowered_handle_bounds _ _ _ _ Hl) in Hin. lia.
      * apply elem_of_wrap. by right; right.
    + (* Parallel *)
      destruct (Parallel_Ok _ _ _ _ _ _ _ _ _ Hst H)
        as (bs & s1 & s2 & Hbs & _ & _ & Hlen & Hother & Hexit & Hentry & Hsink & Hw).
      pose proof (mapM_lowered _ (proj2 (lowering_lowered file fuel)) _ _ _ _ Hbs) as Hbl.
      pose proof (mapM_wired _ (proj2 (lowering_lowered file fuel)) IH2 _ _ _ _ Hbs) as Hwd.
      assert (∀ h, h ∈ bs ≫= unum_IR →
              h < length (heap s1) ∧ Checkpoint (deref h s2) = None ∧
              continuation_ok (deref h s2)) as Hnodes.
      { intros h Hin.
        pose proof (region_handle_bounds _ _ _ _ (bl_region _ _ _ Hbl) Hin) as [_ Hlt].
        split; [done|].
        apply list_elem_of_bind in Hin as (b & Hin & Hb).
        pose proof (proj1 (Forall_forall _ _) Hwd b Hb) as [_ _ Hc1 Hk1].
        destruct (decide (h ∈ Exit_unum_function <$> bs)) as [Hx|Hx].
        - apply list_elem_of_fmap in Hx as (b' & -> & Hb').
          rewrite (Hexit b' Hb'). simpl. split; [|done].
          pose proof (proj1 (Forall_forall _ _) Hwd b' Hb') as [_ _ Hc' _].
          apply Hc'. by apply (proj1 (Forall_forall _ _) (bl_exit _ _ _ Hbl)).
        - rewrite Hother by done. split; [by apply Hc1|]. apply Hk1; [done|].
          intros ->. apply Hx. by apply list_elem_of_fmap_2. }
      apply (wire_successor_wired _
               (fun next => proj1 (lowering_lowered file fuel) next sm)
               (fun next => IH1 next sm)) in Hw; [done|..].
      * split; simpl.
        -- done.
        -- apply last_wrap.
        -- intros h [->|[Hin| ->]]%elem_of_wrap.
           ++ by rewrite Hentry.
           ++ by apply Hnodes.
           ++ by rewrite Hsink.
        -- intros h [->|[Hin| ->]]%elem_of_wrap Hne.
           ++ by rewrite Hentry.
           ++ by apply Hnodes.
           ++ done.
      * intros h [->|[Hin| ->]]%elem_of_wrap; [lia| |lia].
        apply Hnodes in Hin. lia.
      * apply elem_of_wrap. by right; right.
  - intros sm s r s' H. simpl in H.
    destruct (States sm !! StartAt sm); [|done]. by apply IH1 in H.
Qed.

(** * Every continuation names an emitted dictionary *)

Lemma targets_in_transfer ir ir' s s' h :
  targets_in ir s h →
  Next (deref h s') = Next (deref h s) →
  (∀ h', h' ∈ ir → h' ∈ ir' ∧ name_of s' h' = name_of s h') →
  targets_in ir' s' h.
Proof.
  intros Ht HN Hsub n Hn. unfold next_names in Hn. rewrite HN in Hn.
  destruct (Ht n Hn) as (h' & Hin & <-).
  exists h'. by apply Hsub.
Qed.

Lemma targets_in_None ir s h : Next (deref h s) = None → targets_in ir s h.
Proof. intros HN n Hn. unfold next_names in Hn. rewrite HN in Hn. by inversion Hn. Qed.

Lemma targets_in_NextName ir s h n h' :
  Next (deref h s) = Some (NextName n) → h' ∈ ir → name_of s h' = n →
  targets_in ir s h.
Proof.
  intros HN Hin Hnm m Hm. unfold next_names in Hm. rewrite HN in Hm.
  apply list_elem_of_singleton in Hm as ->. by exists h'.
Qed.

Lemma head_elem_of {A} (l : list A) x : head l = Some x → x ∈ l.
Proof. destruct l; [done|]. intros [= ->]. by left. Qed.

Section wire_successor_closed.
Context (lower : string → M result).
Hypothesis lower_lowered : ∀ next s r s', lower next s = Ok r s' → lowered s r s'.
Hypothesis lower_wired : ∀ next s r s', lower next s = Ok r s' → wired r s'.
Hypothesis lower_closed : ∀ next s r s', lower next s = Ok r s' → closed r s'.

Lemma wire_successor_closed state_name Next_ ir entry sink s r s' :
  closed {| State_Name := state_name; unum_IR := ir;
            Entry_unum_function := entry; Exit_unum_function := sink |} s →
  (∀ h, h ∈ ir → h < length (heap s)) →
  sink ∈ ir →
  wire_successor lower state_name Next_ ir entry sink s = Ok r s' →
  closed r s'.
Proof.
  intros Hc Hbound Hsink H. unfold closed in Hc. simpl in Hc.
  apply wire_successor_Ok in H
    as [(-> & -> & ->)|(next & nx & s1 & -> & Hnx & -> & _ & _ & _ & Hother & Hs)];
    [done|].
  pose proof (lower_lowered _ _ _ _ Hnx) as Hlow.
  pose proof (lower_wired _ _ _ _ Hnx) as [Hh1 _ _ _].
  pose proof (lower_closed _ _ _ _ Hnx) as Hc1.
  pose proof (rg_length _ _ _ (lw_region _ _ _ Hlow)) as Hlen.
  pose proof (Hbound _ Hsink) as Hsb.
  assert (∀ h, h ∈ unum_IR nx → h ≠ sink) as Hfresh.
  { intros h Hin ->. apply (lowered_handle_bounds _ _ _ _ Hlow) in Hin. lia. }
  assert (∀ h, name_of s' h = name_of s1 h) as Hnames.
  { intros h. unfold name_of. destruct (decide (h = sink)) as [->|Hne].
    - by rewrite Hs by lia.
    - by rewrite Hother. }
  assert (∀ h, h ∈ ir → name_of s1 h = name_of s h) as Hnames1.
  { intros h Hin. unfold name_of. by rewrite (deref_frame _ _ _ _ Hlow) by auto. }
  intros h Hin. simpl in *. apply elem_of_app in Hin as [Hin|Hin].
  - destruct (decide (h = sink)) as [->|Hne].
    + eapply (targets_in_NextName _ _ _ _ (Entry_unum_function nx)).
      * by rewrite Hs by lia.
      * apply elem_of_app. right. by apply head_elem_of.
      * apply Hnames.
    + apply (targets_in_transfer ir _ s); [by apply Hc| |].
      * by rewrite Hother, (deref_frame _ _ _ _ Hlow) by auto.
      * intros h' Hin'. split; [apply elem_of_app; by left|].
        by rewrite Hnames, Hnames1.
  - apply (targets_in_transfer (unum_IR nx) _ s1); [by apply Hc1| |].
    + by rewrite Hother by auto.
    + intros h' Hin'. split; [apply elem_of_app; by right|]. apply Hnames.
Qed.
End wire_successor_closed.

Lemma mapM_closed {A} (f : A → M result) :
  (∀ x s r s', f x s = Ok r s' → lowered s r s') →
  (∀ x s r s', f x s = Ok r s' → closed r s') →
  ∀ l s bs s', mapM f l s = Ok bs s' → Forall (fun b => closed b s') bs.
Proof.
  intros Hf Hw. induction l as [|x l IH]; intros s bs s' H.
  - by apply mapM_Ok_nil in H as [-> ->].
  - apply mapM_Ok_cons in H as (b & s1 & bs' & Hb & Hbs & ->).
    pose proof (Hf _ _ _ _ Hb) as Hl.
    pose proof (bl_region _ _ _ (mapM_lowered _ Hf _ _ _ _ Hbs)) as Hr.
    constructor; [|by eapply IH].
    assert (∀ h, h ∈ unum_IR b → deref h s' = deref h s1) as Heq.
    { intros h Hin. apply (rg_frame _ _ _ Hr).
      by apply (lowered_handle_bounds _ _ _ _ Hl) in Hin as [_ ?]. }
    intros h Hin. apply (targets_in_transfer (unum_IR b) _ s1).
    + by apply (Hw _ _ _ _ Hb).
    + by rewrite Heq.
    + intros h' Hin'. split; [done|]. unfold name_of. by rewrite Heq.
Qed.

Theorem lowering_closed file fuel :
  (∀ name sm s r s',
     _translate_state_machine file fuel name sm s = Ok r s' → closed r s') ∧
  (∀ sm s r s',
     translate_state_machine file fuel sm s = Ok r s' → closed r s').
Proof.
  induction fuel as [|fuel [IH1 IH2]]; [done|]. split.
  - intros name sm s r s' H.
    destruct (States sm !! name)
      as [[Resource End_ Next_|Iterator Next_|Branches Next_]|] eqn:Hst;
      [| | |by simpl in H; rewrite Hst in H].
    + (* Task *)
      destruct (decide (End_ = Some true)) as [->|HEnd].
      * destruct (Task_End_Ok _ _ _ _ _ _ _ _ _ Hst H) as (u & _ & -> & Hh & _).
        intros h Hin. simpl in Hin. apply list_elem_of_singleton in Hin as ->.
        apply targets_in_None. by rewrite (deref_app_new _ _ _ Hh).
      * destruct Next_ as [next|]; cycle 1.
        { simpl in H. rewrite Hst in H. inv_bind H.
          by rewrite bool_decide_eq_false_2 in H. }
        destruct (Task_Next_Ok _ _ _ _ _ _ _ _ _ _ Hst HEnd H)
          as (u & nx & s1 & _ & Hnx & -> & Hh & _).
        pose proof (proj1 (lowering_lowered file fuel) _ _ _ _ _ Hnx) as Hl.
        pose proof (proj1 (lowering_wired file fuel) _ _ _ _ _ Hnx) as [Hh1 _ _ _].
        pose proof (IH1 _ _ _ _ _ Hnx) as Hc1.
        assert (∀ h, h ∈ unum_IR nx → deref h s' = deref h s1) as Hold.
        { intros h Hin. apply (deref_app_old _ _ _ _ Hh).
          by apply (lowered_handle_bounds _ _ _ _ Hl) in Hin as [_ ?]. }
        apply head_elem_of in Hh1.
        intros h Hin. simpl in *. apply elem_of_cons in Hin as [->|Hin].
        -- eapply (targets_in_NextName _ _ _ _ (Entry_unum_function nx)).
           ++ by rewrite (deref_app_new _ _ _ Hh).
           ++ by right.
           ++ unfold name_of. by rewrite Hold.
        -- apply (targets_in_transfer (unum_IR nx) _ s1); [by apply Hc1| |].
           ++ by rewrite Hold.
           ++ intros h' Hin'. split; [by right|]. unfold name_of. by rewrite Hold.
    + (* Map *)
      destruct (Map_Ok _ _ _ _ _ _ _ _ _ Hst H)
        as (it & s1 & s2 & Hit & _ & _ & Hlen & Hother & Hexit & Hentry & Hsink & Hw).
      pose proof (proj2 (lowering_lowered file fuel) _ _ _ _ Hit) as Hl.
      pose proof (proj2 (lowering_wired file fuel) _ _ _ _ Hit) as [Hh1 _ _ _].
      pose proof (IH2 _ _ _ _ Hit) as Hc1.
      apply head_elem_of in Hh1.
      assert (∀ h, h ∈ unum_IR it → name_of s2 h = name_of s1 h) as Hnames.
      { intros h Hin. unfold name_of.
        pose proof (lowered_handle_bounds _ _ _ _ Hl Hin) as [_ ?].
        destruct (decide (h = Exit_unum_function it)) as [->|Hne].
        - by rewrite Hexit.
        - by rewrite Hother. }
      apply (wire_successor_closed _
               (fun next => proj1 (lowering_lowered file fuel) next sm)
               (fun next => proj1 (lowering_wired file fuel) next sm)
               (fun next => IH1 next sm)) in Hw; [done|..].
      * intros h Hin. simpl in *. apply elem_of_wrap in Hin as [->|[Hin| ->]].
        -- eapply (targets_in_NextName _ _ _ _ (Entry_unum_function it)).
           ++ by rewrite Hentry.
           ++ apply elem_of_wrap. by right; left.
           ++ by apply Hnames.
        -- pose proof (lowered_handle_bounds _ _ _ _ Hl Hin) as [_ ?].
           destruct (decide (h = Exit_unum_function it)) as [->|Hne].
           ++ eapply (targets_in_NextName _ _ _ _ (S (length (heap s1)))).
              ** by rewrite Hexit.
              ** apply elem_of_wrap. by right; right.
              ** unfold name_of. by rewrite Hsink.
           ++ apply (targets_in_transfer (unum_IR it) _ s1); [by apply Hc1| |].
              ** by rewrite Hother.
              ** intros h' Hin'. split; [|by apply Hnames].
                 apply elem_of_wrap. by right; left.
        -- apply targets_in_None. by rewrite Hsink.
      * intros h [->|[Hin| ->]]%elem_of_wrap; [lia| |lia].
        apply (lowered_handle_bounds _ _ _ _ Hl) in Hin. lia.
      * apply elem_of_wrap. by right; right.
    + (* Parallel *)
      destruct (Parallel_Ok _ _ _ _ _ _ _ _ _ Hst H)
        as (bs & s1 & s2 & Hbs & _ & _ & Hlen & Hother & Hexit & Hentry & Hsink & Hw).
      pose proof (mapM_lowered _ (proj2 (lowering_lowered file fuel)) _ _ _ _ Hbs) as Hbl.
      pose proof (mapM_wired _ (proj2 (lowering_lowered file fuel))
                    (proj2 (lowering_wired file fuel)) _ _ _ _ Hbs) as Hwd.
      pose proof (mapM_closed _ (proj2 (lowering_lowered file fuel)) IH2 _ _ _ _ Hbs) as Hcl.
      assert (∀ h, h ∈ bs ≫= unum_IR → h < length (heap s1)) as Hlt.
      { intros h Hin.
        by pose proof (region_handle_bounds _ _ _ _ (bl_region _ _ _ Hbl) Hin) as [_ ?]. }
      assert (∀ h, h ∈ bs ≫= unum_IR → name_of s2 h = name_of s1 h) as Hnames.
      { intros h Hin. unfold name_of. pose proof (Hlt _ Hin).
        destruct (decide (h ∈ Exit_unum_function <$> bs)) as [Hx|Hx].
        - apply list_elem_of_fmap in Hx as (b' & -> & Hb'). by rewrite (Hexit b' Hb').
        - by rewrite Hother. }
      apply (wire_successor_closed _
               (fun next => proj1 (lowering_lowered file fuel) next sm)
               (fun next => proj1 (lowering_wired file fuel) next sm)
               (fun next => IH1 next sm)) in Hw; [done|..].
      * intros h Hin. simpl in *. apply elem_of_wrap in Hin as [->|[Hin| ->]].
        -- intros n Hn. unfold next_names in Hn. rewrite Hentry in Hn. simpl in Hn.
           apply list_elem_of_fmap in Hn as (b & -> & Hb).
           pose proof (proj1 (Forall_forall _ _) Hwd b Hb) as [Hhb _ _ _].
           apply head_elem_of in Hhb.
           assert (Entry_unum_function b ∈ bs ≫= unum_IR) as Hin'.
           { apply list_elem_of_bind. by exists b. }
           exists (Entry_unum_function b). split; [|by apply Hnames].
           apply elem_of_wrap. by right; left.
        -- destruct (decide (h ∈ Exit_unum_function <$> bs)) as [Hx|Hx].
           ++ apply list_elem_of_fmap in Hx as (b' & -> & Hb').
              eapply (targets_in_NextName _ _ _ _ (S (length (heap s1)))).
              ** by rewrite (Hexit b' Hb').
              ** apply elem_of_wrap. by right; right.
              ** unfold name_of. by rewrite Hsink.
           ++ pose proof (Hlt _ Hin).
              apply list_elem_of_bind in Hin as (b & Hin & Hb).
              pose proof (proj1 (Forall_forall _ _) Hcl b Hb) as Hcb.
              apply (targets_in_transfer (unum_IR b) _ s1); [by apply Hcb| |].
              ** by rewrite Hother.
              ** intros h' Hin'.
                 assert (h' ∈ bs ≫= unum_IR) by (apply list_elem_of_bind; by exists b).
                 split; [|by apply Hnames].
                 apply elem_of_wrap. by right; left.
        -- apply targets_in_None. by rewrite Hsink.
      * intros h [->|[Hin| ->]]%elem_of_wrap; [lia| |lia].
        apply Hlt in Hin. lia.
      * apply elem_of_wrap. by right; right.
  - intros sm s r s' H. simpl in H.
    destruct (States sm !! StartAt sm); [|done]. by apply IH1 in H.
Qed.

(** * The recursion budget *)

Lemma agrees_beyond_refl {A} (m : M A) : agrees_beyond m m.
Proof. by intros s _. Qed.

Lemma agrees_beyond_bind {A B} (m m' : M A) (k k' : A → M B) :
  agrees_beyond m m' → (∀ a, agrees_beyond (k a) (k' a)) →
  agrees_beyond (m ≫= k) (m' ≫= k').
Proof.
  intros Hm Hk s H. unfold mbind, M_bind in *.
  destruct (m s) as [a s1|e s1|] eqn:E; [| |done].
  - rewrite (Hm s) by (by rewrite E). rewrite E. by apply Hk.
  - rewrite (Hm s) by (by rewrite E). by rewrite E.
Qed.

Lemma agrees_beyond_mapM {A B} (f g : A → M B) l :
  (∀ x, agrees_beyond (f x) (g x)) → agrees_beyond (mapM f l) (mapM g l).
Proof.
  intros Hfg. induction l as [|x l IH]; [apply agrees_beyond_refl|].
  simpl. apply agrees_beyond_bind; [done|]. intros y.
  apply agrees_beyond_bind; [done|]. intros k. apply agrees_beyond_refl.
Qed.

Lemma agrees_beyond_wire_successor lower lower' state_name Next_ ir entry sink :
  (∀ next, agrees_beyond (lower next) (lower' next)) →
  agrees_beyond (wire_successor lower state_name Next_ ir entry sink)
                (wire_successor lower' state_name Next_ ir entry sink).
Proof.
  intros Hl. unfold wire_successor. destruct Next_ as [next|];
    [|apply agrees_beyond_refl].
  apply agrees_beyond_bind; [done|]. intros ?. apply agrees_beyond_refl.
Qed.

Lemma agrees_beyond_step file fuel fuel' :
  (∀ name sm, agrees_beyond (_translate_state_machine file fuel name sm)
                            (_translate_state_machine file fuel' name sm)) →
  (∀ sm, agrees_beyond (translate_state_machine file fuel sm)
                       (translate_state_machine file fuel' sm)) →
  (∀ name sm, agrees_beyond (_translate_state_machine file (S fuel) name sm)
                            (_translate_state_machine file (S fuel') name sm)) ∧
  (∀ sm, agrees_beyond (translate_state_machine file (S fuel) sm)
                       (translate_state_machine file (S fuel') sm)).
Proof.
  intros IH1 IH2. split.
  - intros name sm. cbn [_translate_state_machine].
    destruct (States sm !! name)
      as [[Resource End_ Next_|Iterator Next_|Branches Next_]|];
      [| | |apply agrees_beyond_refl].
    + apply agrees_beyond_bind; [apply agrees_beyond_refl|]. intros u.
      destruct (bool_decide (End_ = Some true)); [apply agrees_beyond_refl|].
      destruct Next_ as [next|]; [|apply agrees_beyond_refl].
      apply agrees_beyond_bind; [apply IH1|]. intros ?. apply agrees_beyond_refl.
    + apply agrees_beyond_bind; [apply IH2|]. intros ?.
      repeat (apply agrees_beyond_bind; [apply agrees_beyond_refl|]; intros ?).
      by apply agrees_beyond_wire_successor.
    + apply agrees_beyond_bind; [by apply agrees_beyond_mapM|]. intros ?.
      repeat (apply agrees_beyond_bind; [apply agrees_beyond_refl|]; intros ?).
      by apply agrees_beyond_wire_successor.
  - intros sm. cbn [translate_state_machine].
    destruct (States sm !! StartAt sm); [apply IH1|apply agrees_beyond_refl].
Qed.

Lemma agrees_beyond_fuel file fuel : ∀ fuel', fuel ≤ fuel' →
  (∀ name sm, agrees_beyond (_translate_state_machine file fuel name sm)
                            (_translate_state_machine file fuel' name sm)) ∧
  (∀ sm, agrees_beyond (translate_state_machine file fuel sm)
                       (translate_state_machine file fuel' sm)).
Proof.
  induction fuel as [|fuel IH]; intros fuel' Hle.
  - by split; intros; intros s H.
  - destruct fuel' as [|fuel']; [lia|].
    destruct (IH fuel') as [IH1 IH2]; [lia|]. by apply agrees_beyond_step.
Qed.

(** * The exceptions of a run *)

Lemma raises_only_bind {A B} P (m : M A) (k : A → M B) :
  raises_only P m → (∀ a, raises_only P (k a)) → raises_only P (m ≫= k).
Proof.
  intros Hm Hk s e s' H. unfold mbind, M_bind in H.
  destruct (m s) as [a s1|e1 s1|] eqn:E; [|injection H as <- <-|done].
  - by apply (Hk a s1 e s').
  - by apply (Hm s e1 s1).
Qed.

Lemma raises_only_mret {A} P (a : A) : raises_only P (mret a).
Proof. by intros s e s' H. Qed.

Lemma raises_only_mapM {A B} P (f : A → M B) l :
  (∀ x, raises_only P (f x)) → raises_only P (mapM f l).
Proof.
  intros Hf. induction l as [|x l IH]; [apply raises_only_mret|].
  simpl. apply raises_only_bind; [done|]. intros y.
  apply raises_only_bind; [done|]. intros k. apply raises_only_mret.
Qed.

Lemma raises_only_for_b_in_branches P vals sink bs : ∀ ir,
  raises_only P (for_b_in_branches vals sink bs ir).
Proof.
  induction bs as [|b bs IH]; intros ir; [apply raises_only_mret|].
  simpl. repeat (apply raises_only_bind; [by intros s e s' H|]; intros ?).
  apply IH.
Qed.

Lemma raises_only_wire_successor P lower state_name Next_ ir entry sink :
  (∀ next, raises_only P (lower next)) →
  raises_only P (wire_successor lower state_name Next_ ir entry sink).
Proof.
  intros Hl. unfold wire_successor. destruct Next_ as [next|];
    [|apply raises_only_mret].
  apply raises_only_bind; [done|]. intros ?.
  repeat (apply raises_only_bind; [by intros s e s' H|]; intros ?).
  apply raises_only_mret.
Qed.

Lemma raises_only_get_state_unum_function_name file Resource :
  raises_only (explained_by file) (get_state_unum_function_name file Resource).
Proof.
  intros s e s' H. unfold get_state_unum_function_name in H.
  destruct (str_in "arn:aws:lambda" Resource) eqn:Harn; [|done].
  destruct file as [[m| |]|]; [|by injection H as <- _..].
  destruct (key_of_first_value m Resource) eqn:E; [done|].
  injection H as <- _. exists m. split_and!; [done| |done].
  clear Harn. induction m as [|[k v] m IH]; [by apply not_elem_of_nil|].
  simpl in *. destruct (String.eqb v Resource) eqn:Ev; [done|].
  apply String.eqb_neq in Ev. intros [?|?]%elem_of_cons; [done|]. by apply IH.
Qed.

Lemma lowering_raises_only file fuel :
  (∀ name sm, raises_only (explained_by file) (_translate_state_machine file fuel name sm)) ∧
  (∀ sm, raises_only (explained_by file) (translate_state_machine file fuel sm)).
Proof.
  induction fuel as [|fuel [IH1 IH2]]; [by split; intros; intros s e s' H|]. split.
  - intros name sm. cbn [_translate_state_machine].
    destruct (States sm !! name)
      as [[Resource End_ Next_|Iterator Next_|Branches Next_]|];
      [| | |by intros s e s' [= <- _]].
    + apply raises_only_bind; [apply raises_only_get_state_unum_function_name|].
      intros u. destruct (bool_decide (End_ = Some true)).
      { apply raises_only_bind; [by intros s e s' H|]. intros ?. apply raises_only_mret. }
      destruct Next_ as [next|]; [|by intros s e s' [= <- _]].
      apply raises_only_bind; [apply IH1|]. intros ?.
      repeat (apply raises_only_bind; [by intros s e s' H|]; intros ?).
      apply raises_only_mret.
    + apply raises_only_bind; [apply IH2|]. intros ?.
      repeat (apply raises_only_bind; [by intros s e s' H|]; intros ?).
      by apply raises_only_wire_successor.
    + apply raises_only_bind; [by apply raises_only_mapM|]. intros ?.
      repeat (apply raises_only_bind;
                [first [by intros s e s' H|apply raises_only_for_b_in_branches]|];
              intros ?).
      by apply raises_only_wire_successor.
  - intros sm. cbn [translate_state_machine].
    destruct (States sm !! StartAt sm); [apply IH1|by intros s e s' [= <- _]].
Qed.

(** * Counters, handles and the checkpoint pass *)

Lemma length_barrier_names m m' p p' :
  length (barrier_names m m' p p') = 2 * (m' - m) + 2 * (p' - p).
Proof.
  unfold barrier_names. rewrite length_app.
  assert (∀ (f : nat → list string) l, (∀ n, length (f n) = 2) →
          length (l ≫= f) = 2 * length l) as Hbind.
  { intros f l Hf. induction l as [|x l IH]; [done|].
    change ((x :: l) ≫= f) with (f x ++ (l ≫= f)).
    rewrite length_app, Hf, IH. simpl. lia. }
  rewrite !Hbind, !length_seq by done. done.
Qed.

Lemma NoDup_unum_IR s r s' : lowered s r s' → NoDup (unum_IR r).
Proof.
  intros Hl. rewrite (rg_IR _ _ _ (lw_region _ _ _ Hl)). apply NoDup_seq.
Qed.

Lemma main_deref file fuel sm d s r s' :
  main file fuel sm d s = Ok r s' →
  ∃ s1, translate_state_machine file fuel sm s = Ok r s1 ∧
        ∀ h, h ∈ unum_IR r →
             deref h s' = checkpointed (checkpoint_policy d (deref h s1)) (deref h s1).
Proof.
  intros H. apply main_Ok in H as (s1 & Ht & _ & _ & Hd).
  exists s1. split; [done|]. intros h Hin.
  pose proof (proj2 (lowering_lowered file fuel) _ _ _ _ Ht) as Hl.
  pose proof (lowered_handle_bounds _ _ _ _ Hl Hin) as [_ ?].
  by rewrite Hd, decide_True.
Qed.

(** * Strings: occurrences of one character *)

Lemma str_in_char_cons a c s :
  str_in (String a "") (String c s) = Ascii.eqb c a || str_in (String a "") s.
Proof.
  cbn [str_in String.prefix].
  destruct (ascii_dec a c) as [<-|Hne].
  - rewrite Ascii.eqb_refl. by destruct s.
  - destruct (Ascii.eqb c a) eqn:E; [|done].
    apply Ascii.eqb_eq in E. congruence.
Qed.

Lemma str_in_char_app_r a x s :
  str_in (String a "") (x +:+ String a s) = true.
Proof.
  induction x as [|c x IH].
  - change ("" +:+ String a s) with (String a s).
    by rewrite str_in_char_cons, Ascii.eqb_refl.
  - change (String c x +:+ String a s) with (String c (x +:+ String a s)).
    rewrite str_in_char_cons, IH. apply orb_true_r.
Qed.

(** What follows the last occurrence of a character is determined by the
    whole string. *)
Lemma after_last_char a x : ∀ y s t,
  str_in (String a "") s = false → str_in (String a "") t = false →
  x +:+ String a s = y +:+ String a t → s = t.
Proof.
  induction x as [|c x IH]; intros [|d y] s t Hs Ht E.
  - by injection E.
  - change ("" +:+ String a s) with (String a s) in E.
    change (String d y +:+ String a t) with (String d (y +:+ String a t)) in E.
    injection E as _ ->. by rewrite str_in_char_app_r in Hs.
  - change ("" +:+ String a t) with (String a t) in E.
    change (String c x +:+ String a s) with (String c (x +:+ String a s)) in E.
    injection E as _ <-. by rewrite str_in_char_app_r in Ht.
  - change (String c x +:+ String a s) with (String c (x +:+ String a s)) in E.
    change (String d y +:+ String a t) with (String d (y +:+ String a t)) in E.
    injection E as _ E. by apply (IH y).
Qed.

Lemma string_app_assoc (x y z : string) : (x +:+ y) +:+ z = x +:+ (y +:+ z).
Proof.
  induction x as [|c x IH]; [done|].
  change (String c ((x +:+ y) +:+ z) = String c (x +:+ (y +:+ z))).
  by rewrite IH.
Qed.

Lemma pretty_N_go_no_dash x : ∀ s,
  str_in "-" s = false → str_in "-" (pretty_N_go x s) = false.
Proof.
  induction (N.lt_wf_0 x) as [x _ IH]. intros s Hs.
  destruct (decide (x = 0)%N) as [->|Hx]; [by rewrite pretty_N_go_0|].
  rewrite pretty_N_go_step by lia. apply IH; [apply N.div_lt; lia|].
  rewrite str_in_char_cons, Hs.
  unfold pretty_N_char. by repeat case_match.
Qed.

Lemma pretty_nat_no_dash (n : nat) : str_in "-" (pretty n) = false.
Proof.
  unfold pretty, pretty_nat, pretty, pretty_N. case_decide; [done|].
  by apply pretty_N_go_no_dash.
Qed.

(** The keys [name-unumIndex-i] of different indices differ. *)
Lemma unumIndex_key_inj (x y : string) (i j : nat) :
  x +:+ "-unumIndex-" +:+ pretty i = y +:+ "-unumIndex-" +:+ pretty j → i = j.
Proof.
  intros E. apply (inj (@pretty nat _)).
  apply (after_last_char "-" (x +:+ "-unumIndex") (y +:+ "-unumIndex"));
    [apply pretty_nat_no_dash|apply pretty_nat_no_dash|].
  by rewrite !string_app_assoc.
Qed.

Lemma NoDup_imap_key {A B} (f : nat → A → B) (l : list A) :
  (∀ i j x y, f i x = f j y → i = j) → NoDup (imap f l).
Proof.
  intros Hf. apply NoDup_alt. intros i j k Hi Hj.
  rewrite list_lookup_imap in Hi, Hj.
  destruct (l !! i) as [x|]; [|done]. destruct (l !! j) as [y|]; [|done].
  simpl in *. apply (Hf i j x y). congruence.
Qed.

(** * Fields of a resource *)

Lemma str_in_colon_cons c s :
  str_in ":" (String c s) = Ascii.eqb c ":" || str_in ":" s.
Proof. apply str_in_char_cons. Qed.

Lemma split_not_nil sep s : split sep s ≠ [].
Proof.
  destruct s as [|c s]; [done|]. simpl.
  destruct (Ascii.eqb c sep); [done|]. by destruct (split sep s).
Qed.

(** A string without a colon is its own single field. *)
Lemma split_no_colon s : str_in ":" s = false → split ":" s = [s].
Proof.
  induction s as [|c s IH]; [done|].
  rewrite str_in_colon_cons. intros [Hc Hs]%orb_false_elim.
  cbn [split]. rewrite Hc, IH by done. done.
Qed.

(** The fields of [field:rest] are [field] and the fields of [rest]. *)
Lemma split_field field rest :
  str_in ":" field = false →
  split ":" (field +:+ ":" +:+ rest) = field :: split ":" rest.
Proof.
  induction field as [|c f IH]; [done|].
  rewrite str_in_colon_cons. intros [Hc Hs]%orb_false_elim.
  change (String c f +:+ ":" +:+ rest) with (String c (f +:+ ":" +:+ rest)).
  cbn [split]. rewrite Hc, IH by done. done.
Qed.

Lemma str_in_colon_app_r a b : str_in ":" b = true → str_in ":" (a +:+ b) = true.
Proof.
  intros Hb. induction a as [|c a IH]; [done|].
  change (String c a +:+ b) with (String c (a +:+ b)).
  rewrite str_in_colon_cons, IH. apply orb_true_r.
Qed.

Lemma split_join_colon fields :
  fields ≠ [] → Forall (fun f => str_in ":" f = false) fields →
  split ":" (join_colon fields) = fields.
Proof.
  intros Hne Hall. induction Hall as [|f fs Hf Hfs IH]; [done|].
  destruct fs as [|g fs]; [by apply split_no_colon|].
  change (join_colon (f :: g :: fs)) with (f +:+ ":" +:+ join_colon (g :: fs)).
  rewrite split_field by done. by rewrite IH.
Qed.

Lemma join_colon_split s : join_colon (split ":" s) = s.
Proof.
  induction s as [|c s IH]; [done|]. cbn [split].
  destruct (Ascii.eqb c ":") eqn:E.
  - apply Ascii.eqb_eq in E as ->.
    pose proof (split_not_nil ":" s). destruct (split ":" s) as [|f fs]; [done|].
    change (join_colon ("" :: f :: fs)) with ("" +:+ ":" +:+ join_colon (f :: fs)).
    by rewrite IH.
  - pose proof (split_not_nil ":" s). destruct (split ":" s) as [|f fs]; [done|].
    destruct fs as [|g fs]; simpl in *; by rewrite <-IH.
Qed.

Lemma split_fields_no_colon s :
  Forall (fun f => str_in ":" f = false) (split ":" s).
Proof.
  induction s as [|c s IH]; [by repeat constructor|]. cbn [split].
  destruct (Ascii.eqb c ":") eqn:E; [by constructor|].
  pose proof (split_not_nil ":" s). destruct (split ":" s) as [|f fs]; [done|].
  apply Forall_cons in IH as [Hf Hfs]. constructor; [|done].
  by rewrite str_in_colon_cons, E, Hf.
Qed.

Lemma str_in_colon_join f g fs : str_in ":" (join_colon (f :: g :: fs)) = true.
Proof.
  change (join_colon (f :: g :: fs)) with (f +:+ (":" +:+ join_colon (g :: fs))).
  apply str_in_colon_app_r.
  change (":" +:+ join_colon (g :: fs)) with (String ":" (join_colon (g :: fs))).
  by rewrite str_in_colon_cons, Ascii.eqb_refl.
Qed.

(** * The mapping of function names *)

Lemma key_of_first_value_Some m x k :
  key_of_first_value m x = Some k ↔
  ∃ before after, m = before ++ (k, x) :: after ∧ x ∉ before.*2.
Proof.
  induction m as [|[k' v] m IH]; simpl.
  - split; [done|]. intros (b & a & H & _). by destruct b.
  - destruct (String.eqb v x) eqn:E.
    + apply String.eqb_eq in E as ->. split.
      * intros [= ->]. exists [], m. split; [done|]. by apply not_elem_of_nil.
      * intros ([|[k2 v2] b] & a & H & Hb); simplify_eq/=; [done|].
        exfalso. apply Hb. by left.
    + apply String.eqb_neq in E. rewrite IH. split.
      * intros (b & a & -> & Hb). exists ((k', v) :: b), a. split; [done|].
        simpl. by intros [?|?]%elem_of_cons.
      * intros ([|[k2 v2] b] & a & H & Hb); simplify_eq/=.
        exists b, a. split; [done|]. intros ?. apply Hb. by right.
Qed.

Lemma key_of_first_value_None m x :
  key_of_first_value m x = None ↔ x ∉ m.*2.
Proof.
  induction m as [|[k' v] m IH]; simpl.
  - split; [intros _; by apply not_elem_of_nil|done].
  - destruct (String.eqb v x) eqn:E.
    + apply String.eqb_eq in E as ->. split; [done|]. intros H. exfalso. apply H. by left.
    + apply String.eqb_neq in E. rewrite IH. split.
      * by intros ? [?|?]%elem_of_cons.
      * intros H ?. apply H. by right.
Qed.

(** * The outcome does not depend on the state a run starts in *)

Lemma same_kind_bind {A B A' B'} (m : M A) (m' : M A') (k : A → M B) (k' : A' → M B') s1 s2 :
  same_kind (m s1) (m' s2) →
  (∀ a a' t1 t2, same_kind (k a t1) (k' a' t2)) →
  same_kind ((m ≫= k) s1) ((m' ≫= k') s2).
Proof.
  intros Hm Hk. unfold mbind, M_bind.
  destruct (m s1), (m' s2); simpl in *; first [done|apply Hk].
Qed.

Lemma same_kind_mapM {A B} (f : A → M B) l :
  (∀ x, state_blind (f x)) → state_blind (mapM f l).
Proof.
  intros Hf. induction l as [|x l IH]; intros s1 s2; [done|].
  simpl. apply same_kind_bind; [apply Hf|]. intros y y' t1 t2.
  apply same_kind_bind; [apply IH|]. done.
Qed.

Lemma same_kind_for_b_in_branches vals vals' sink sink' bs bs' ir ir' s1 s2 :
  same_kind (for_b_in_branches vals sink bs ir s1)
            (for_b_in_branches vals' sink' bs' ir' s2).
Proof.
  destruct (for_b_in_branches_total vals sink bs ir s1) as (? & ? & -> & _).
  by destruct (for_b_in_branches_total vals' sink' bs' ir' s2) as (? & ? & -> & _).
Qed.

Lemma same_kind_wire_successor lower lower' state_name Next_ ir ir' entry entry' sink sink' s1 s2 :
  (∀ next t1 t2, same_kind (lower next t1) (lower' next t2)) →
  same_kind (wire_successor lower state_name Next_ ir entry sink s1)
            (wire_successor lower' state_name Next_ ir' entry' sink' s2).
Proof.
  intros Hl. unfold wire_successor. destruct Next_ as [next|]; [|done].
  apply same_kind_bind; [apply Hl|]. intros ? ? ? ?.
  repeat (apply same_kind_bind; [done|]; intros ? ? ? ?). done.
Qed.

Lemma same_kind_get_state_unum_function_name file Resource :
  state_blind (get_state_unum_function_name file Resource).
Proof.
  intros s1 s2. rewrite !get_state_unum_function_name_resolve.
  by destruct (resolve file Resource).
Qed.

Lemma lowering_state_blind file fuel :
  (∀ name sm, state_blind (_translate_state_machine file fuel name sm)) ∧
  (∀ sm, state_blind (translate_state_machine file fuel sm)).
Proof.
  induction fuel as [|fuel [IH1 IH2]]; [by split; intros; intros s1 s2|]. split.
  - intros name sm s1 s2. cbn [_translate_state_machine].
    destruct (States sm !! name)
      as [[Resource End_ Next_|Iterator Next_|Branches Next_]|]; [| | |done].
    + apply same_kind_bind; [apply same_kind_get_state_unum_function_name|].
      intros u u' t1 t2. destruct (bool_decide (End_ = Some true)).
      { apply same_kind_bind; [done|]. done. }
      destruct Next_ as [next|]; [|done].
      apply same_kind_bind; [apply IH1|]. intros ? ? ? ?.
      repeat (apply same_kind_bind; [done|]; intros ? ? ? ?). done.
    + apply same_kind_bind; [apply IH2|]. intros ? ? ? ?.
      repeat (apply same_kind_bind; [done|]; intros ? ? ? ?).
      apply same_kind_wire_successor. intros next. apply IH1.
    + apply same_kind_bind; [by apply same_kind_mapM|]. intros ? ? ? ?.
      repeat (apply same_kind_bind;
                [first [done|apply same_kind_for_b_in_branches]|]; intros ? ? ? ?).
      apply same_kind_wire_successor. intros next. apply IH1.
  - intros sm s1 s2. cbn [translate_state_machine].
    destruct (States sm !! StartAt sm); [apply IH1|done].
Qed.

Lemma same_kind_for_c_in_ir d ir ir' s1 s2 :
  same_kind (for_c_in_ir d ir s1) (for_c_in_ir d ir' s2).
Proof.
  assert (∀ ir s, ∃ u s', for_c_in_ir d ir s = Ok u s') as Htot.
  { clear. induction ir as [|c ir IH]; intros s; [by eexists _, _|].
    simpl. unfold mbind, M_bind.
    destruct (has_Fan_in (deref c s)); apply IH. }
  destruct (Htot ir s1) as (? & ? & ->). by destruct (Htot ir' s2) as (? & ? & ->).
Qed.

(** * Dictionaries the successor wiring leaves alone *)

Section wire_successor_old.
Context (lower : string → M result).
Hypothesis lower_lowered : ∀ next s r s', lower next s = Ok r s' → lowered s r s'.

(** The successor wiring leaves every dictionary that existed before it,
    but the sink, as it was. *)
Lemma wire_successor_old state_name Next_ ir entry sink s r s' h :
  wire_successor lower state_name Next_ ir entry sink s = Ok r s' →
  h < length (heap s) → h ≠ sink → deref h s' = deref h s.
Proof.
  intros H Hlt Hne.
  apply wire_successor_Ok in H
    as [(_ & -> & _)|(next & nx & s1 & _ & Hnx & _ & _ & _ & _ & Hother & _)]; [done|].
  rewrite Hother by done. by apply (deref_frame _ _ _ _ (lower_lowered _ _ _ _ Hnx)).
Qed.
End wire_successor_old.

(** * When the lowering succeeds *)











(** * The claims *)

(** C1.  For every Parallel state, a successful lowering leaves on the exit
    of every branch a ["Next"] that names the parallel sink and a fan-in
    ["NextInput"] whose values are one and the same list [keys] for all
    branches; [keys] has as many entries as the state has branches, and its
    i-th entry is the name of the exit of the i-th branch followed by
    "-unumIndex-" and by i, counted from 0 in the declared order of the
    branches. *)
Theorem Parallel_fan_in file fuel name sm Branches Next_ s r s' :
  States sm !! name = Some (Parallel Branches Next_) →
  _translate_state_machine file (S fuel) name sm s = Ok r s' →
  ∃ branches s1 keys,
    mapM (translate_state_machine file fuel) Branches s = Ok branches s1 ∧
    length branches = length Branches ∧
    length keys = length Branches ∧
    let unum_parallel_sink := S (length (heap s1)) in
    unum_parallel_sink ∈ unum_IR r ∧
    name_of s' unum_parallel_sink =
      "UnumParallelSink" +:+ pretty (unum_parallel_counter s1) ∧
    ∀ i b, branches !! i = Some b →
      Exit_unum_function b ∈ unum_IR r ∧
      keys !! i =
        Some (name_of s' (Exit_unum_function b) +:+ "-unumIndex-" +:+ pretty i) ∧
      Next (deref (Exit_unum_function b) s') =
        Some (NextName (name_of s' unum_parallel_sink)) ∧
      NextInput (deref (Exit_unum_function b) s') = Some (Fan_in keys).
Proof.
  intros Hst H.
  destruct (Parallel_lowering _ _ _ _ _ _ _ _ _ Hst H)
    as (branches & s1 & Hbs & _ & Hir & _ & _ & Hsink & _ & _ & Hexits).
  pose proof (mapM_lowered _ (proj2 (lowering_lowered file fuel)) _ _ _ _ Hbs) as Hbl.
  pose proof (mapM_Ok_length _ _ _ _ _ Hbs) as Hlen.
  exists branches, s1,
    (imap (fun i b => name_of s' (Exit_unum_function b) +:+ "-unumIndex-" +:+ pretty i)
          branches).
  split; [done|]. split; [done|].
  split; [by rewrite length_imap|]. simpl.
  split.
  { apply Hir. apply elem_of_cons; right. apply elem_of_app; right.
    by apply list_elem_of_singleton. }
  split; [done|]. intros i b Hb. pose proof (list_elem_of_lookup_2 _ _ _ Hb) as Hin.
  destruct (Hexits b Hin) as [HN HNI]. split_and!; try done.
  - apply Hir. apply elem_of_cons. right. apply elem_of_app. left.
    apply list_elem_of_bind. exists b. split; [|done].
    by apply (proj1 (Forall_forall _ _) (bl_exit _ _ _ Hbl)).
  - by rewrite list_lookup_imap, Hb.
Qed.

Lemma Parallel_fan_in_witness :
  ∃ r s',
    _translate_state_machine None 3 "P" scenario3 initial_globals = Ok r s' ∧
    ∃ branches s1 keys,
      mapM (translate_state_machine None 2) scenario3_branches initial_globals
        = Ok branches s1 ∧
      length branches = 2 ∧
      length keys = 2 ∧
      S (length (heap s1)) ∈ unum_IR r ∧
      name_of s' (S (length (heap s1))) =
        "UnumParallelSink" +:+ pretty (unum_parallel_counter s1) ∧
      ∀ i b, branches !! i = Some b →
        Exit_unum_function b ∈ unum_IR r ∧
        keys !! i =
          Some (name_of s' (Exit_unum_function b) +:+ "-unumIndex-" +:+ pretty i) ∧
        Next (deref (Exit_unum_function b) s') =
          Some (NextName (name_of s' (S (length (heap s1))))) ∧
        NextInput (deref (Exit_unum_function b) s') = Some (Fan_in keys).
Proof.
  assert (∃ r s', _translate_state_machine None 3 "P" scenario3 initial_globals = Ok r s')
    as (r & s' & H) by (eexists _, _; vm_compute; reflexivity).
  exists r, s'. split; [exact H|].
  assert (States scenario3 !! "P" = Some (Parallel scenario3_branches None)) as Hst
    by (vm_compute; reflexivity).
  exact (Parallel_fan_in None 2 "P" scenario3 _ None initial_globals r s' Hst H).
Defined.

(** C2, as the specification states it, fails when the default checkpoint
    policy is false: the sink of Scenario 2 then carries ["Checkpoint"]
    false, not true. *)
Lemma Scenario2_sink_checkpoint_is_the_default :
  ¬ ∃ c0, emitted IR_of (main None 4 scenario2 false initial_globals)
          = Some (Scenario2_expected_IR c0).
Proof. intros [c0 H]. vm_compute in H. discriminate H. Qed.

(** C2, amended.  For every Map state, a successful lowering leaves on the
    exit of the iterator a ["Next"] that names the map sink and a fan-in
    ["NextInput"] whose only value is the name of that exit followed by
    "-unumIndex-*".  In particular the Map of Scenario 2 compiles to the
    three dictionaries UnumMap0, f3 and UnumMapSink0 of that scenario, where
    f3 is checkpointed and UnumMap0 and UnumMapSink0 carry the default
    checkpoint policy [d]. *)
Theorem Map_fan_in :
  (∀ file fuel name sm Iterator Next_ s r s',
     States sm !! name = Some (Map Iterator Next_) →
     _translate_state_machine file (S fuel) name sm s = Ok r s' →
     ∃ iterator s1,
       translate_state_machine file fuel Iterator s = Ok iterator s1 ∧
       let unum_map_sink := S (length (heap s1)) in
       let exit := Exit_unum_function iterator in
       unum_map_sink ∈ unum_IR r ∧ exit ∈ unum_IR r ∧
       name_of s' unum_map_sink = "UnumMapSink" +:+ pretty (unum_map_counter s1) ∧
       Next (deref exit s') = Some (NextName (name_of s' unum_map_sink)) ∧
       NextInput (deref exit s') = Some (Fan_in [name_of s' exit +:+ "-unumIndex-*"])) ∧
  (∀ file fuel d,
     emitted IR_of (main file (4 + fuel) scenario2 d initial_globals) =
     Some [ {| Name := "UnumMap0"; Next := Some (NextName "f3");
               NextInput := Some MapInput; Checkpoint := Some d |};
            {| Name := "f3"; Next := Some (NextName "UnumMapSink0");
               NextInput := Some (Fan_in ["f3-unumIndex-*"]);
               Checkpoint := Some true |};
            {| Name := "UnumMapSink0"; Next := None; NextInput := None;
               Checkpoint := Some d |} ]).
Proof.
  split.
  - intros file fuel name sm Iterator Next_ s r s' Hst H.
    destruct (Map_lowering _ _ _ _ _ _ _ _ _ Hst H)
      as (iterator & s1 & Hit & _ & Hir & _ & _ & Hsink & _ & _ & HN & HNI).
    pose proof (proj2 (lowering_lowered file fuel) _ _ _ _ Hit) as Hl.
    exists iterator, s1. split; [done|]. simpl. split_and!; try done.
    + apply Hir. set_solver.
    + apply Hir. pose proof (lw_exit _ _ _ Hl). set_solver.
  - intros file fuel d. vm_compute. reflexivity.
Qed.

Lemma Map_fan_in_witness :
  ∃ r s',
    _translate_state_machine None 3 "M" scenario2 initial_globals = Ok r s' ∧
    ∃ iterator s1,
      translate_state_machine None 2 scenario2_iterator initial_globals
        = Ok iterator s1 ∧
      S (length (heap s1)) ∈ unum_IR r ∧
      Exit_unum_function iterator ∈ unum_IR r ∧
      name_of s' (S (length (heap s1))) =
        "UnumMapSink" +:+ pretty (unum_map_counter s1) ∧
      Next (deref (Exit_unum_function iterator) s') =
        Some (NextName (name_of s' (S (length (heap s1))))) ∧
      NextInput (deref (Exit_unum_function iterator) s') =
        Some (Fan_in [name_of s' (Exit_unum_function iterator) +:+ "-unumIndex-*"]).
Proof.
  assert (∃ r s', _translate_state_machine None 3 "M" scenario2 initial_globals = Ok r s')
    as (r & s' & H) by (eexists _, _; vm_compute; reflexivity).
  exists r, s'. split; [exact H|].
  assert (States scenario2 !! "M" = Some (Map scenario2_iterator None)) as Hst
    by (vm_compute; reflexivity).
  exact (proj1 Map_fan_in None 2 "M" scenario2 _ None initial_globals r s' Hst H).
Defined.



(** C4, as the specification states it, fails: two Task states with the
    same resource are emitted under the same name. *)
Lemma same_resource_twice_names :
  emitted names_of (main None 3 same_resource_twice true initial_globals)
  = Some ["f"; "f"]
  ∧ ¬ NoDup ["f"; "f"].
Proof.
  split; [vm_compute; reflexivity|].
  intros [Hin _]%NoDup_cons. apply Hin. by left.
Qed.

(** C4, amended.  In every successful run of [main] each dictionary that was
    created is emitted exactly once, and the barriers created for Map and
    Parallel states, however nested, carry pairwise distinct names: the
    names of the counter values consumed by the run.  Hence all emitted
    names are pairwise distinct whenever the names of the Task steps are
    pairwise distinct and none of them is the name of a barrier. *)
Theorem barrier_names_are_distinct file fuel sm d s r s' :
  main file fuel sm d s = Ok r s' →
  let tasks := task_handles (new_events s s') in
  let barriers := barrier_handles (new_events s s') in
  unum_IR r ≡ₚ tasks ++ barriers ∧
  NoDup (unum_IR r) ∧
  name_of s' <$> barriers ≡ₚ
    barrier_names (unum_map_counter s) (unum_map_counter s')
                  (unum_parallel_counter s) (unum_parallel_counter s') ∧
  NoDup (name_of s' <$> barriers) ∧
  (NoDup (name_of s' <$> tasks) →
   (∀ x, x ∈ name_of s' <$> tasks → x ∉ name_of s' <$> barriers) →
   NoDup (names_of r s')).
Proof.
  intros H. destruct (main_Ok _ _ _ _ _ _ _ H) as (s1 & Hl & Hev & Hnm & _).
  assert (unum_map_counter s' = unum_map_counter s1 ∧
          unum_parallel_counter s' = unum_parallel_counter s1) as [Hm Hp].
  { unfold main in H. inv_bind H. inv_bind H. apply mret_Ok in H as [<- <-].
    rewrite Hl in Hstep. injection Hstep as <-.
    by apply for_c_in_ir_Ok in Hstep0 as (_ & _ & ? & ? & _). }
  apply (proj2 (lowering_lowered file fuel)) in Hl as [Hr _ _ _ _].
  simpl. rewrite Hev, Hm, Hp.
  rewrite !(fmap_name_of_ext s1 s') by done.
  pose proof (rg_created _ _ _ Hr) as Hc.
  pose proof (rg_barrier_names _ _ _ Hr) as Hb.
  assert (NoDup (unum_IR r)) as Hnd by (rewrite (rg_IR _ _ _ Hr); apply NoDup_seq).
  split_and!; try done.
  - by rewrite Hb; apply NoDup_barrier_names.
  - intros Ht Hdisj.
    assert (names_of r s' = name_of s1 <$> unum_IR r) as ->.
    { unfold names_of, IR_of. rewrite <-list_fmap_compose. apply list_fmap_ext.
      intros i h _. apply (Hnm h). }
    rewrite <-Hc, fmap_app. apply NoDup_app. split_and!; try done.
    rewrite Hb; apply NoDup_barrier_names.
Qed.

Lemma barrier_names_are_distinct_witness :
  ∃ r s',
    main None 4 scenario3 false initial_globals = Ok r s' ∧
    let tasks := task_handles (new_events initial_globals s') in
    let barriers := barrier_handles (new_events initial_globals s') in
    unum_IR r ≡ₚ tasks ++ barriers ∧
    NoDup (unum_IR r) ∧
    name_of s' <$> barriers ≡ₚ
      barrier_names 0 (unum_map_counter s') 0 (unum_parallel_counter s') ∧
    NoDup (name_of s' <$> barriers) ∧
    (NoDup (name_of s' <$> tasks) →
     (∀ x, x ∈ name_of s' <$> tasks → x ∉ name_of s' <$> barriers) →
     NoDup (names_of r s')).
Proof.
  assert (∃ r s', main None 4 scenario3 false initial_globals = Ok r s')
    as (r & s' & H) by (eexists _, _; vm_compute; reflexivity).
  exists r, s'. split; [exact H|].
  exact (barrier_names_are_distinct None 4 scenario3 false initial_globals r s' H).
Defined.

(** C5, as the specification states it, fails: a Parallel state without
    branches is lowered to its two barriers. *)
Lemma empty_Parallel_returns_IR :
  emitted IR_of (_translate_state_machine None 1 "P" empty_Parallel initial_globals)
  = Some [ named_next "UnumParallel0" (NextNames []) Scalar;
           named "UnumParallelSink0" ].
Proof. vm_compute. reflexivity. Qed.

(** C5, amended.  Lowering a Parallel state whose branch list is empty
    raises nothing at that state: it creates the barrier pair, the entry
    with an empty list as ["Next"], advances the parallel counter and goes
    on with the successor wiring; without a successor it returns the IR of
    these two barriers. *)
Theorem empty_Parallel_is_lowered file fuel name sm Next_ s :
  States sm !! name = Some (Parallel [] Next_) →
  ∃ s3,
    unum_map_counter s3 = unum_map_counter s ∧
    unum_parallel_counter s3 = unum_parallel_counter s + 1 ∧
    heap s3 =
      heap s ++
      [ named_next ("UnumParallel" +:+ pretty (unum_parallel_counter s))
                   (NextNames []) Scalar;
        named ("UnumParallelSink" +:+ pretty (unum_parallel_counter s)) ] ∧
    _translate_state_machine file (S fuel) name sm s =
      wire_successor (fun next => _translate_state_machine file fuel next sm)
                     name Next_ [length (heap s); S (length (heap s))]
                     (length (heap s)) (S (length (heap s))) s3 ∧
    (Next_ = None →
     _translate_state_machine file (S fuel) name sm s =
       Ok {| State_Name := name;
             unum_IR := [length (heap s); S (length (heap s))];
             Entry_unum_function := length (heap s);
             Exit_unum_function := S (length (heap s)) |} s3).
Proof.
  intros Hst.
  eexists {| unum_map_counter := _; unum_parallel_counter := _;
             heap := _; trace := _ |}.
  split; [reflexivity|]. split; [reflexivity|]. split; [reflexivity|].
  match goal with |- ?L = ?R ∧ _ => assert (L = R) as E end.
  { simpl. rewrite Hst. unfold mbind, M_bind. simpl.
    rewrite length_app, <-(assoc_L (++)). simpl.
    replace (length (heap s) + 1) with (S (length (heap s))) by lia.
    reflexivity. }
  split; [done|]. intros ->. by rewrite E.
Qed.

Lemma empty_Parallel_is_lowered_witness :
  ∃ r s',
    _translate_state_machine None 1 "P" empty_Parallel initial_globals = Ok r s' ∧
    heap s' = [ named_next "UnumParallel0" (NextNames []) Scalar;
                named "UnumParallelSink0" ].
Proof.
  assert (States empty_Parallel !! "P" = Some (Parallel [] None)) as Hst
    by (vm_compute; reflexivity).
  destruct (empty_Parallel_is_lowered None 0 "P" empty_Parallel None initial_globals Hst)
    as (s3 & _ & _ & Hheap & _ & HOk).
  eexists _, s3. split; [exact (HOk eq_refl)|exact Hheap].
Defined.




(** C7.  When the lowering of a state returns, the exit dictionary of the
    result is one of the dictionaries of its IR and has neither ["Next"]
    nor ["NextInput"]: it is left to the caller.  During the call no item
    assignment of ["Next"] replaced a value that was already there, and the
    dictionaries that existed before the call are unchanged. *)
Theorem exit_is_left_open file fuel state_name sm s r s' :
  _translate_state_machine file fuel state_name sm s = Ok r s' →
  Exit_unum_function r ∈ unum_IR r ∧
  Next (deref (Exit_unum_function r) s') = None ∧
  NextInput (deref (Exit_unum_function r) s') = None ∧
  trace s' = trace s ++ new_events s s' ∧
  Forall fresh_write (new_events s s') ∧
  (∀ h, h < length (heap s) → deref h s' = deref h s).
Proof.
  intros H. apply (proj1 (lowering_lowered file fuel)) in H as [Hr ? ? ? ?].
  split_and!; try done; apply Hr.
Qed.

Lemma exit_is_left_open_witness :
  ∃ r s',
    _translate_state_machine None 5 "Outer" nested_maps initial_globals = Ok r s' ∧
    Exit_unum_function r ∈ unum_IR r ∧
    Next (deref (Exit_unum_function r) s') = None ∧
    NextInput (deref (Exit_unum_function r) s') = None ∧
    trace s' = trace initial_globals ++ new_events initial_globals s' ∧
    Forall fresh_write (new_events initial_globals s') ∧
    (∀ h, h < length (heap initial_globals) → deref h s' = deref h initial_globals).
Proof.
  assert (∃ r s',
            _translate_state_machine None 5 "Outer" nested_maps initial_globals = Ok r s')
    as (r & s' & H) by (eexists _, _; vm_compute; reflexivity).
  exists r, s'. split; [exact H|].
  exact (exit_is_left_open None 5 "Outer" nested_maps initial_globals r s' H).
Defined.

(** C8, as the specification states it, fails: for a Task with neither
    ["End"] nor ["Next"] whose resource is a Lambda ARN that the mapping
    does not hold, the name resolution raises first, and the exception is
    the ValueError of the resolver, not the one of the malformed Task. *)
Lemma dangling_arn_Task_raises_ValueError :
  _translate_state_machine (Some (Mapping [])) 1 "T" dangling_arn_Task initial_globals
  = Raise (ValueError "arn:aws:lambda:us-east-1:123456789012:function:f") initial_globals
  ∧ _translate_state_machine (Some (Mapping [])) 1 "T" dangling_arn_Task initial_globals
    ≠ Raise RuntimeError initial_globals.
Proof. split; [vm_compute; reflexivity|]. vm_compute. discriminate. Qed.

(** C8, amended.  Lowering a Task state that has neither a true ["End"]
    nor a ["Next"] never returns an IR: it raises, in the state it was called
    in.  The name is resolved first: when the name resolution raises, its
    exception is the one the lowering ends in; when the resource resolves to
    a name, which it always does when it does not contain "arn:aws:lambda",
    the exception is the one of the bare [raise] of the Task case (what the
    specification calls MalformedGraph). *)
Theorem Task_without_End_and_Next file fuel name sm Resource End_ s :
  States sm !! name = Some (Task Resource End_ None) →
  End_ ≠ Some true →
  (∃ e, _translate_state_machine file (S fuel) name sm s = Raise e s) ∧
  (∀ e s', get_state_unum_function_name file Resource s = Raise e s' →
           _translate_state_machine file (S fuel) name sm s = Raise e s') ∧
  (∀ u, get_state_unum_function_name file Resource s = Ok u s →
        _translate_state_machine file (S fuel) name sm s = Raise RuntimeError s) ∧
  (str_in "arn:aws:lambda" Resource = false →
   _translate_state_machine file (S fuel) name sm s = Raise RuntimeError s) ∧
  _translate_state_machine file (S fuel) name sm s =
    match resolve file Resource with
    | inl e => Raise e s
    | inr _ => Raise RuntimeError s
    end.
Proof.
  intros Hst HEnd.
  assert (_translate_state_machine file (S fuel) name sm s =
          match resolve file Resource with
          | inl e => Raise e s
          | inr _ => Raise RuntimeError s
          end) as Hrun.
  { simpl. rewrite Hst. unfold mbind, M_bind.
    rewrite get_state_unum_function_name_resolve.
    destruct (resolve file Resource); [done|].
    by rewrite bool_decide_eq_false_2. }
  split_and!; [| | | |done].
  - rewrite Hrun. destruct (resolve file Resource); eauto.
  - intros e s' He. rewrite Hrun.
    rewrite get_state_unum_function_name_resolve in He.
    destruct (resolve file Resource); [|done]. by injection He as <- <-.
  - intros u Hu. rewrite Hrun.
    rewrite get_state_unum_function_name_resolve in Hu.
    by destruct (resolve file Resource).
  - intros E. rewrite Hrun. unfold resolve. by rewrite E.
Qed.

Lemma Task_without_End_and_Next_witness :
  _translate_state_machine None 1 "T" dangling_Task initial_globals
  = Raise RuntimeError initial_globals ∧
  _translate_state_machine (Some NotAMapping) 1 "T" dangling_arn_Task initial_globals
  = Raise AttributeError initial_globals.
Proof.
  assert (States dangling_Task !! "T" = Some (Task "f1" None None)) as Hst
    by (vm_compute; reflexivity).
  assert (States dangling_arn_Task !! "T" =
          Some (Task "arn:aws:lambda:us-east-1:123456789012:function:f" None None))
    as Hst' by (vm_compute; reflexivity).
  assert (@None bool ≠ Some true) as HEnd by discriminate.
  assert (get_state_unum_function_name (Some NotAMapping)
            "arn:aws:lambda:us-east-1:123456789012:function:f" initial_globals
          = Raise AttributeError initial_globals) as He by (vm_compute; reflexivity).
  split.
  - exact (proj1 (proj2 (proj2 (proj2 (Task_without_End_and_Next
                   None 0 "T" dangling_Task "f1" None initial_globals Hst HEnd))))
             eq_refl).
  - exact (proj1 (proj2 (Task_without_End_and_Next
                   (Some NotAMapping) 0 "T" dangling_arn_Task
                   "arn:aws:lambda:us-east-1:123456789012:function:f" None
                   initial_globals Hst' HEnd))
             AttributeError initial_globals He).
Defined.

(** C9.  Lowering the chain A -> B -> C(End) a second time, in the state
    the first run left behind, prints what the first run printed: the same
    IR element for element, or the same exception.  When the three resources
    resolve to the names [nA], [nB] and [nC] and the call stack is deep
    enough, what is printed is the IR of the chain over these names. *)
Theorem chain_ABC_twice file rA rB rC fuel s :
  printed (translate_state_machine file fuel (chain_ABC rA rB rC)
             (state_after (translate_state_machine file fuel (chain_ABC rA rB rC) s) s))
  = printed (translate_state_machine file fuel (chain_ABC rA rB rC) s) ∧
  ∀ nA nB nC,
    resolve file rA = inr nA → resolve file rB = inr nB → resolve file rC = inr nC →
    4 ≤ fuel →
    printed (translate_state_machine file fuel (chain_ABC rA rB rC) s)
    = inl (chain_IR nA nB nC).
Proof.
  split.
  - destruct fuel as [|fuel]; [done|].
    rewrite translate_state_machine_S. change (StartAt (chain_ABC rA rB rC)) with "A".
    rewrite chain_lookup_A.
    destruct (Tasks_only_state_independent file _ (chain_ABC_Tasks_only rA rB rC) fuel "A")
      as [Hout|[(e & He)|(ir & en & Hok)]].
    + by rewrite !Hout.
    + by rewrite !He.
    + destruct (Hok s) as (r & s' & -> & HIR & _). simpl.
      destruct (Hok s') as (r2 & s2 & -> & HIR2 & _). simpl. by rewrite HIR, HIR2.
  - intros nA nB nC HA HB HC Hfuel.
    destruct fuel as [|[|[|[|fuel]]]]; try lia.
    destruct (chain_ABC_Ok file rA rB rC nA nB nC fuel s HA HB HC) as (r & s' & H & HIR).
    change (S (S (S (S fuel)))) with (4 + fuel). rewrite H. simpl. by rewrite HIR.
Qed.

Lemma chain_ABC_twice_witness :
  printed (translate_state_machine None 4 (chain_ABC "fA" "fB" "fC") initial_globals)
  = inl (chain_IR "fA" "fB" "fC").
Proof.
  apply (proj2 (chain_ABC_twice None "fA" "fB" "fC" 4 initial_globals));
    [reflexivity|reflexivity|reflexivity|lia].
Defined.

(** C10.  For a resource that does not contain "arn:aws:lambda",
    [get_state_unum_function_name] returns the resource itself whatever the
    mapping file holds, and even when there is none or it cannot be parsed:
    the mapping is not consulted.  A terminal Task state with such a
    resource is lowered, whatever the file, to the one dictionary whose
    ["Name"] is the resource; a Task state with a successor is lowered, as
    soon as its successor is, to an IR whose first dictionary has the
    resource as ["Name"]; and whenever the lowering of a Task state with
    such a resource returns, the entry, the first dictionary of its IR, has
    exactly the resource as its ["Name"].  The mapping decides the name only
    for a resource that contains "arn:aws:lambda". *)
Theorem plain_resource_is_the_name Resource :
  (str_in "arn:aws:lambda" Resource = false →
   (∀ file s, get_state_unum_function_name file Resource s = Ok Resource s) ∧
   (∀ file fuel name sm Next_ s,
      States sm !! name = Some (Task Resource (Some true) Next_) →
      ∃ r s',
        _translate_state_machine file (S fuel) name sm s = Ok r s' ∧
        IR_of r s' = [named Resource] ∧
        heap s' = heap s ++ [named Resource]) ∧
   (∀ file fuel name sm End_ next s next_state s1,
      States sm !! name = Some (Task Resource End_ (Some next)) →
      End_ ≠ Some true →
      _translate_state_machine file fuel next sm s = Ok next_state s1 →
      ∃ r s',
        _translate_state_machine file (S fuel) name sm s = Ok r s' ∧
        head (IR_of r s') =
          Some (named_next Resource
                  (NextName (name_of s1 (Entry_unum_function next_state))) Scalar)) ∧
   (∀ file fuel name sm End_ Next_ s r s',
      States sm !! name = Some (Task Resource End_ Next_) →
      _translate_state_machine file fuel name sm s = Ok r s' →
      name_of s' (Entry_unum_function r) = Resource ∧
      head (IR_of r s') = Some (deref (Entry_unum_function r) s'))) ∧
  (str_in "arn:aws:lambda" Resource = true →
   ∀ file s,
     get_state_unum_function_name file Resource s =
     match file with
     | None => Raise OSError s
     | Some Unparsable => Raise YAMLError s
     | Some NotAMapping => Raise AttributeError s
     | Some (Mapping arn_to_name_mapping) =>
         match key_of_first_value arn_to_name_mapping Resource with
         | Some function_name => Ok function_name s
         | None => Raise (ValueError Resource) s
         end
     end).
Proof.
  split.
  - intros E. split_and!; [intros; by apply get_state_unum_function_name_plain|..].
    + intros file fuel name sm Next_ s Hst.
      rewrite (Task_End_S _ _ _ _ _ _ Hst). unfold mbind, M_bind.
      rewrite get_state_unum_function_name_plain by done.
      eexists _, _. split; [reflexivity|]. split; [|reflexivity].
      unfold IR_of. simpl. by rewrite deref_snoc_new.
    + intros file fuel name sm End_ next s next_state s1 Hst HEnd Hnx.
      rewrite (Task_Next_S _ _ _ _ _ _ _ Hst HEnd). unfold mbind, M_bind.
      rewrite get_state_unum_function_name_plain by done. rewrite Hnx.
      eexists _, _. split; [reflexivity|].
      unfold IR_of. simpl. by rewrite deref_snoc_new.
    + intros file fuel name sm End_ Next_ s r s' Hst H.
      destruct (Task_entry_name _ _ _ _ _ _ _ _ _ _ Hst H) as (u & Hu & Hn & Hhd).
      rewrite get_state_unum_function_name_plain in Hu by done.
      injection Hu as <-. split; [done|].
      unfold IR_of. destruct (unum_IR r); simplify_eq/=. done.
  - intros E file s. unfold get_state_unum_function_name. rewrite E.
    destruct file as [[m| |]|]; [|done|done|done].
    by destruct (key_of_first_value m Resource).
Qed.

Lemma plain_resource_is_the_name_witness :
  ∃ r s',
    _translate_state_machine (Some Unparsable) 1 "T" scenario2_iterator initial_globals
      = Ok r s' ∧
    IR_of r s' = [named "f3"] ∧
    heap s' = heap initial_globals ++ [named "f3"].
Proof.
  assert (str_in "arn:aws:lambda" "f3" = false) as E by (vm_compute; reflexivity).
  assert (States scenario2_iterator !! "T" = Some (Task "f3" (Some true) None)) as Hst
    by (vm_compute; reflexivity).
  exact (proj1 (proj2 (proj1 (plain_resource_is_the_name "f3") E))
           (Some Unparsable) 0 "T" scenario2_iterator None initial_globals Hst).
Defined.

(** * Further properties of the code *)

(** X1.  What [get_state_unum_function_name] does with a resource that
    contains "arn:aws:lambda", by what function-arn.yaml is. When the file
    holds a mapping, it returns a name exactly when the mapping has an entry
    with that name and the resource as value and no earlier entry has the
    resource as value; it raises exactly the ValueError of the resource, and
    exactly when no entry has the resource as value. When the file holds no
    mapping (an empty file, a scalar, a sequence) it raises AttributeError;
    when the file is not YAML, the exception of [load_yaml]; when the file
    cannot be opened, OSError. The program state is left as it is in every
    case. *)
Theorem resolver_reads_the_first_entry m Resource s :
  str_in "arn:aws:lambda" Resource = true →
  (∀ function_name s',
     get_state_unum_function_name (Some (Mapping m)) Resource s = Ok function_name s' ↔
     s' = s ∧ ∃ before after,
       m = before ++ (function_name, Resource) :: after ∧ Resource ∉ before.*2) ∧
  (∀ e s',
     get_state_unum_function_name (Some (Mapping m)) Resource s = Raise e s' ↔
     s' = s ∧ e = ValueError Resource ∧ Resource ∉ m.*2) ∧
  get_state_unum_function_name (Some NotAMapping) Resource s = Raise AttributeError s ∧
  get_state_unum_function_name (Some Unparsable) Resource s = Raise YAMLError s ∧
  get_state_unum_function_name None Resource s = Raise OSError s ∧
  (∀ file, get_state_unum_function_name file Resource s ≠ OutOfFuel).
Proof.
  intros Harn.
  assert (∀ file, get_state_unum_function_name file Resource s ≠ OutOfFuel) as Hfuel.
  { intros file. rewrite get_state_unum_function_name_resolve.
    by destruct (resolve file Resource). }
  unfold get_state_unum_function_name in *. rewrite Harn in *.
  split_and!; [| |done|done|done|done].
  - intros u s'. destruct (key_of_first_value m Resource) as [k|] eqn:E.
    + unfold mret, M_ret. split.
      * intros [= <- <-]. split; [done|]. by apply key_of_first_value_Some.
      * intros [-> H]. apply key_of_first_value_Some in H. congruence.
    + split; [done|]. intros [_ H].
      apply key_of_first_value_Some in H. congruence.
  - intros e s'. destruct (key_of_first_value m Resource) as [k|] eqn:E.
    + split; [done|]. intros (_ & _ & H).
      apply key_of_first_value_None in H. congruence.
    + unfold raise. split.
      * intros [= <- <-]. split_and!; [done|done|]. by apply key_of_first_value_None.
      * by intros (-> & -> & _).
Qed.

Lemma resolver_reads_the_first_entry_witness :
  get_state_unum_function_name (Some (Mapping two_functions))
    "arn:aws:lambda:us-east-1:123456789012:function:g" initial_globals
  = Ok "G" initial_globals.
Proof.
  assert (str_in "arn:aws:lambda" "arn:aws:lambda:us-east-1:123456789012:function:g"
          = true) as Harn by (vm_compute; reflexivity).
  apply (proj1 (resolver_reads_the_first_entry two_functions
                  "arn:aws:lambda:us-east-1:123456789012:function:g"
                  initial_globals Harn)).
  split; [reflexivity|].
  exists [("F", "arn:aws:lambda:us-east-1:123456789012:function:f")], [].
  split; [reflexivity|].
  intros [E|E]%elem_of_cons; [discriminate E|by apply elem_of_nil in E].
Defined.

(** X2.  When no two entries of the mapping have the same value, every entry
    whose value contains "arn:aws:lambda" is resolved back to its key:
    [get_state_unum_function_name] inverts the mapping. *)
Theorem resolver_inverts_the_mapping m function_name Resource s :
  NoDup m.*2 →
  (function_name, Resource) ∈ m →
  str_in "arn:aws:lambda" Resource = true →
  get_state_unum_function_name (Some (Mapping m)) Resource s = Ok function_name s.
Proof.
  intros Hnd Hin Harn. unfold get_state_unum_function_name. rewrite Harn.
  assert (key_of_first_value m Resource = Some function_name) as ->; [|done].
  induction m as [|[k v] m IH]; [by apply elem_of_nil in Hin|].
  simpl in *. apply NoDup_cons in Hnd as [Hv Hnd].
  apply elem_of_cons in Hin as [[= <- <-]|Hin].
  - by rewrite String.eqb_refl.
  - destruct (String.eqb v Resource) eqn:E; [|by apply IH].
    apply String.eqb_eq in E as ->. exfalso. apply Hv.
    apply list_elem_of_fmap. by exists (function_name, Resource).
Qed.

Lemma resolver_inverts_the_mapping_witness :
  get_state_unum_function_name (Some (Mapping two_functions))
    "arn:aws:lambda:us-east-1:123456789012:function:g" initial_globals
  = Ok "G" initial_globals.
Proof.
  assert (NoDup two_functions.*2) as Hnd
    by (apply (bool_decide_unpack _); vm_compute; reflexivity).
  assert (("G", "arn:aws:lambda:us-east-1:123456789012:function:g") ∈ two_functions)
    as Hin by (apply (bool_decide_unpack _); vm_compute; reflexivity).
  assert (str_in "arn:aws:lambda" "arn:aws:lambda:us-east-1:123456789012:function:g"
          = true) as Harn by (vm_compute; reflexivity).
  exact (resolver_inverts_the_mapping two_functions "G"
           "arn:aws:lambda:us-east-1:123456789012:function:g" initial_globals
           Hnd Hin Harn).
Defined.

(** X3.  Every resource is the colon-separated join of the fields [split]
    computes, none of which contains a colon. On a Task whose resource is
    the join of colon-free fields, [lambda_state] answers True when there is
    at most one field (no colon in the resource), raises IndexError when
    there are exactly two, and otherwise answers whether the third field is
    "lambda"; the fields after the third are not looked at. *)
Theorem lambda_state_reads_the_third_field :
  (∀ Resource,
     Forall (fun f => str_in ":" f = false) (split ":" Resource) ∧
     join_colon (split ":" Resource) = Resource) ∧
  (∀ fields End_ Next_,
     Forall (fun f => str_in ":" f = false) fields →
     lambda_state (Task (join_colon fields) End_ Next_) =
     match fields with
     | [] | [_] => inr true
     | [_; _] => inl IndexError
     | _ :: _ :: service :: _ => inr (bool_decide (service = "lambda"))
     end).
Proof.
  split; [intros Resource; split; [apply split_fields_no_colon|apply join_colon_split]|].
  intros fields End_ Next_ Hall. unfold lambda_state. cbn [state_Resource].
  destruct fields as [|f [|g fs]].
  - done.
  - apply Forall_cons in Hall as [Hf _]. cbn [join_colon]. by rewrite Hf.
  - rewrite str_in_colon_join. cbn [negb].
    rewrite split_join_colon by done.
    destruct fs as [|service fs]; [done|]. cbn [lookup list_lookup].
    destruct (String.eqb service "lambda") eqn:E.
    + apply String.eqb_eq in E. by rewrite bool_decide_eq_true_2.
    + apply String.eqb_neq in E. by rewrite bool_decide_eq_false_2.
Qed.

Lemma lambda_state_reads_the_third_field_witness :
  lambda_state (Task (join_colon ["arn"; "aws"; "states"; "us-east-1"]) None None)
  = inr (bool_decide ("states" = "lambda")).
Proof.
  assert (Forall (fun f => str_in ":" f = false) ["arn"; "aws"; "states"; "us-east-1"])
    as Hall by (repeat constructor).
  exact (proj2 lambda_state_reads_the_third_field
           ["arn"; "aws"; "states"; "us-east-1"] None None Hall).
Defined.

(** X4.  A resource that starts with "arn:aws:lambda:" is a Lambda state for
    [lambda_state], and its name always comes out of the mapping: whenever
    [get_state_unum_function_name] returns a name for it, function-arn.yaml
    holds a mapping with an entry of that name whose value is the resource,
    and the program state is as it was. *)
Theorem Lambda_ARN_is_a_lambda_state rest End_ Next_ :
  let Resource := "arn:aws:lambda:" +:+ rest in
  lambda_state (Task Resource End_ Next_) = inr true ∧
  (∀ file s function_name s',
     get_state_unum_function_name file Resource s = Ok function_name s' →
     s' = s ∧ ∃ m, file = Some (Mapping m) ∧ (function_name, Resource) ∈ m).
Proof.
  intros Resource. split.
  - unfold lambda_state. cbn [state_Resource].
    assert (str_in ":" Resource = true) as ->.
    { apply (str_in_colon_app_r "arn" (":aws:lambda:" +:+ rest)).
      change (":aws:lambda:" +:+ rest) with (String ":" ("aws:lambda:" +:+ rest)).
      by rewrite str_in_colon_cons, Ascii.eqb_refl. }
    cbn [negb]. unfold Resource.
    change ("arn:aws:lambda:" +:+ rest)
      with ("arn" +:+ ":" +:+ ("aws" +:+ ":" +:+ ("lambda" +:+ ":" +:+ rest))).
    rewrite !split_field by done. done.
  - intros file s u s' H.
    assert (str_in "arn:aws:lambda" Resource = true) as Harn.
    { unfold Resource. destruct rest; vm_compute; reflexivity. }
    unfold get_state_unum_function_name in H. rewrite Harn in H.
    destruct file as [[m| |]|]; [|done|done|done].
    destruct (key_of_first_value m Resource) as [k|] eqn:E; [|done].
    apply mret_Ok in H as [-> ->]. split; [done|].
    exists m. split; [done|].
    apply key_of_first_value_Some in E as (before & after & -> & _).
    apply elem_of_app. right. by left.
Qed.

Lemma Lambda_ARN_is_a_lambda_state_witness :
  initial_globals = initial_globals ∧
  ∃ m, Some (Mapping two_functions) = Some (Mapping m) ∧
       ("G", "arn:aws:lambda:" +:+ "us-east-1:123456789012:function:g") ∈ m.
Proof.
  assert (get_state_unum_function_name (Some (Mapping two_functions))
            ("arn:aws:lambda:" +:+ "us-east-1:123456789012:function:g") initial_globals
          = Ok "G" initial_globals) as H by (vm_compute; reflexivity).
  exact (proj2 (Lambda_ARN_is_a_lambda_state "us-east-1:123456789012:function:g"
                  None None)
           (Some (Mapping two_functions)) initial_globals "G" initial_globals H).
Defined.

(** X5.  A Task state with a successor and no true ["End"]: a successful
    lowering has resolved the name [u] of the Task, has lowered the
    successor first (in the state the call started in), and returns the IR
    of the successor with one new dictionary in front of it; this dictionary
    is the entry, it has the name [u], the entry of the successor as
    ["Next"] and ["Scalar"] as ["NextInput"]; the exit is the exit of the
    successor, whose dictionaries are left as the successor returned them.
    *)
Theorem Task_with_successor file fuel name sm Resource End_ next s r s' :
  States sm !! name = Some (Task Resource End_ (Some next)) →
  End_ ≠ Some true →
  _translate_state_machine file (S fuel) name sm s = Ok r s' →
  ∃ u next_state s1,
    get_state_unum_function_name file Resource s = Ok u s ∧
    _translate_state_machine file fuel next sm s = Ok next_state s1 ∧
    unum_IR r = Entry_unum_function r :: unum_IR next_state ∧
    Exit_unum_function r = Exit_unum_function next_state ∧
    deref (Entry_unum_function r) s' =
      named_next u (NextName (name_of s' (Entry_unum_function next_state))) Scalar ∧
    (∀ h, h ∈ unum_IR next_state → deref h s' = deref h s1).
Proof.
  intros Hst HEnd H.
  destruct (Task_Next_Ok _ _ _ _ _ _ _ _ _ _ Hst HEnd H)
    as (u & nx & s1 & Hu & Hnx & -> & Hh & _).
  pose proof (proj1 (lowering_lowered file fuel) _ _ _ _ _ Hnx) as Hl.
  assert (∀ h, h ∈ unum_IR nx → deref h s' = deref h s1) as Hold.
  { intros h Hin. apply (deref_app_old _ _ _ _ Hh).
    by apply (lowered_handle_bounds _ _ _ _ Hl) in Hin as [_ ?]. }
  exists u, nx, s1. simpl. split_and!; try done.
  rewrite (deref_app_new _ _ _ Hh). unfold name_of.
  by rewrite (Hold _ (lw_entry _ _ _ Hl)).
Qed.

Lemma Task_with_successor_witness :
  ∃ r s',
    _translate_state_machine None 3 "A" (chain_ABC "fa" "fb" "fc") initial_globals
      = Ok r s' ∧
    ∃ u next_state s1,
      get_state_unum_function_name None "fa" initial_globals = Ok u initial_globals ∧
      _translate_state_machine None 2 "B" (chain_ABC "fa" "fb" "fc") initial_globals
        = Ok next_state s1 ∧
      unum_IR r = Entry_unum_function r :: unum_IR next_state ∧
      Exit_unum_function r = Exit_unum_function next_state ∧
      deref (Entry_unum_function r) s' =
        named_next u (NextName (name_of s' (Entry_unum_function next_state))) Scalar ∧
      (∀ h, h ∈ unum_IR next_state → deref h s' = deref h s1).
Proof.
  assert (∃ r s',
            _translate_state_machine None 3 "A" (chain_ABC "fa" "fb" "fc") initial_globals
              = Ok r s')
    as (r & s' & H) by (eexists _, _; vm_compute; reflexivity).
  exists r, s'. split; [exact H|].
  assert (States (chain_ABC "fa" "fb" "fc") !! "A" = Some (Task "fa" None (Some "B")))
    as Hst by (vm_compute; reflexivity).
  assert (@None bool ≠ Some true) as HEnd by discriminate.
  exact (Task_with_successor None 2 "A" (chain_ABC "fa" "fb" "fc") "fa" None "B"
           initial_globals r s' Hst HEnd H).
Defined.

(** X6.  A Task state whose ["End"] is true is terminal whatever its
    ["Next"] says: when its name resolves to [u], the lowering returns, for
    every recursion budget, the IR made of the single new dictionary
    [{"Name": u}], which is entry and exit; the successor is never looked
    up, and the counters are not touched. *)
Theorem End_wins_over_Next file fuel name sm Resource Next_ u s :
  States sm !! name = Some (Task Resource (Some true) Next_) →
  get_state_unum_function_name file Resource s = Ok u s →
  ∃ s',
    _translate_state_machine file (S fuel) name sm s =
      Ok {| State_Name := name; unum_IR := [length (heap s)];
            Entry_unum_function := length (heap s);
            Exit_unum_function := length (heap s) |} s' ∧
    heap s' = heap s ++ [named u] ∧
    unum_map_counter s' = unum_map_counter s ∧
    unum_parallel_counter s' = unum_parallel_counter s.
Proof.
  intros Hst Hu. rewrite (Task_End_S _ _ _ _ _ _ Hst).
  unfold mbind, M_bind. rewrite Hu. eexists. split; [reflexivity|]. done.
Qed.

Lemma End_wins_over_Next_witness :
  ∃ s',
    _translate_state_machine None 1 "A" End_and_Next initial_globals =
      Ok {| State_Name := "A"; unum_IR := [0];
            Entry_unum_function := 0; Exit_unum_function := 0 |} s' ∧
    heap s' = heap initial_globals ++ [named "f"] ∧
    unum_map_counter s' = unum_map_counter initial_globals ∧
    unum_parallel_counter s' = unum_parallel_counter initial_globals.
Proof.
  assert (States End_and_Next !! "A" = Some (Task "f" (Some true) (Some "Z")))
    as Hst by (vm_compute; reflexivity).
  assert (get_state_unum_function_name None "f" initial_globals = Ok "f" initial_globals)
    as Hu by (vm_compute; reflexivity).
  exact (End_wins_over_Next None 0 "A" End_and_Next "f" (Some "Z") "f" initial_globals
           Hst Hu).
Defined.

(** X7.  The layout of the IR of a Map state. A successful lowering has
    lowered the iterator first; with [n] the value of the map counter after
    that, the entry is the new dictionary UnumMap[n], whose ["Next"] is the
    entry of the iterator and whose ["NextInput"] is ["Map"]. Without a
    successor the IR is UnumMap[n], the IR of the iterator, UnumMapSink[n],
    in this order, and the sink, a dictionary with a name only, is the exit.
    With a successor the IR of the successor follows the sink, the sink has
    the entry of the successor as ["Next"] and ["Scalar"] as ["NextInput"],
    and the exit is the exit of the successor. *)
Theorem Map_layout file fuel name sm Iterator Next_ s r s' :
  States sm !! name = Some (Map Iterator Next_) →
  _translate_state_machine file (S fuel) name sm s = Ok r s' →
  ∃ iterator s1,
    translate_state_machine file fuel Iterator s = Ok iterator s1 ∧
    let unum_map := length (heap s1) in
    let unum_map_sink := S (length (heap s1)) in
    let n := unum_map_counter s1 in
    Entry_unum_function r = unum_map ∧
    deref unum_map s' =
      named_next ("UnumMap" +:+ pretty n)
                 (NextName (name_of s' (Entry_unum_function iterator))) MapInput ∧
    match Next_ with
    | None =>
        unum_IR r = [unum_map] ++ unum_IR iterator ++ [unum_map_sink] ∧
        Exit_unum_function r = unum_map_sink ∧
        deref unum_map_sink s' = named ("UnumMapSink" +:+ pretty n)
    | Some next =>
        ∃ next_state s2 s3,
          _translate_state_machine file fuel next sm s2 = Ok next_state s3 ∧
          unum_IR r =
            [unum_map] ++ unum_IR iterator ++ [unum_map_sink] ++ unum_IR next_state ∧
          Exit_unum_function r = Exit_unum_function next_state ∧
          deref unum_map_sink s' =
            named_next ("UnumMapSink" +:+ pretty n)
              (NextName (name_of s' (Entry_unum_function next_state))) Scalar
    end.
Proof.
  intros Hst H.
  destruct (Map_Ok _ _ _ _ _ _ _ _ _ Hst H)
    as (it & s1 & s2 & Hit & _ & _ & Hlen & Hother & Hexit & Hentry & Hsink & Hw).
  pose proof (proj2 (lowering_lowered file fuel) _ _ _ _ Hit) as Hl.
  pose proof (lowered_handle_bounds _ _ _ _ Hl (lw_entry _ _ _ Hl)) as [_ Hen].
  assert (name_of s2 (Entry_unum_function it) = name_of s1 (Entry_unum_function it)) as Hn2.
  { unfold name_of. destruct (decide (Entry_unum_function it = Exit_unum_function it)) as [E|E].
    - rewrite E, Hexit. done.
    - by rewrite Hother. }
  exists it, s1. split; [done|]. simpl.
  apply wire_successor_Ok in Hw
    as [(-> & -> & ->)|(next & nx & s3 & -> & Hnx & -> & _ & _ & _ & Hoth & Hs)]; simpl.
  - split; [done|]. split; [by rewrite Hentry, Hn2|]. done.
  - pose proof (proj1 (lowering_lowered file fuel) _ _ _ _ _ Hnx) as Hl3.
    pose proof (rg_length _ _ _ (lw_region _ _ _ Hl3)) as Hlen3.
    pose proof (lowered_handle_bounds _ _ _ _ Hl3 (lw_entry _ _ _ Hl3)) as [? ?].
    assert (∀ h, h < length (heap s2) → name_of s' h = name_of s2 h) as Hnm.
    { intros h Hh. unfold name_of.
      destruct (decide (h = S (length (heap s1)))) as [->|Hne].
      - rewrite Hs by lia. simpl. unfold name_of. by rewrite (deref_frame _ _ _ _ Hl3) by lia.
      - by rewrite Hoth, (deref_frame _ _ _ _ Hl3) by done. }
    split; [done|]. split.
    { rewrite Hoth, (deref_frame _ _ _ _ Hl3), Hentry by lia.
      by rewrite Hnm, Hn2 by lia. }
    exists nx, s2, s3. split; [done|]. split; [by rewrite <-!(assoc_L (++))|].
    split; [done|]. rewrite Hs by lia. unfold named_next. f_equal.
    + unfold name_of. by rewrite (deref_frame _ _ _ _ Hl3), Hsink by lia.
    + unfold name_of. by rewrite Hoth by lia.
    + by rewrite (deref_frame _ _ _ _ Hl3), Hsink by lia.
Qed.

Lemma Map_layout_witness :
  ∃ r s',
    _translate_state_machine None 3 "M" Map_then_Task initial_globals = Ok r s' ∧
    ∃ iterator s1,
      translate_state_machine None 2 scenario2_iterator initial_globals
        = Ok iterator s1 ∧
      Entry_unum_function r = length (heap s1) ∧
      deref (length (heap s1)) s' =
        named_next ("UnumMap" +:+ pretty (unum_map_counter s1))
                   (NextName (name_of s' (Entry_unum_function iterator))) MapInput ∧
      ∃ next_state s2 s3,
        _translate_state_machine None 2 "T" Map_then_Task s2 = Ok next_state s3 ∧
        unum_IR r =
          [length (heap s1)] ++ unum_IR iterator ++ [S (length (heap s1))]
          ++ unum_IR next_state ∧
        Exit_unum_function r = Exit_unum_function next_state ∧
        deref (S (length (heap s1))) s' =
          named_next ("UnumMapSink" +:+ pretty (unum_map_counter s1))
            (NextName (name_of s' (Entry_unum_function next_state))) Scalar.
Proof.
  assert (∃ r s', _translate_state_machine None 3 "M" Map_then_Task initial_globals
                  = Ok r s')
    as (r & s' & H) by (eexists _, _; vm_compute; reflexivity).
  exists r, s'. split; [exact H|].
  assert (States Map_then_Task !! "M" = Some (Map scenario2_iterator (Some "T")))
    as Hst by (vm_compute; reflexivity).
  exact (Map_layout None 2 "M" Map_then_Task scenario2_iterator (Some "T")
           initial_globals r s' Hst H).
Defined.

(** X8.  The layout of the IR of a Parallel state. A successful lowering has
    lowered the branches first, in their declared order; with [n] the value
    of the parallel counter after that, the entry is the new dictionary
    UnumParallel[n], whose ["Next"] is the list of the entries of the
    branches, in order, and whose ["NextInput"] is ["Scalar"]. Without a
    successor the IR is UnumParallel[n], the IRs of the branches one after
    the other, UnumParallelSink[n], and the sink, a dictionary with a name
    only, is the exit. With a successor the IR of the successor follows the
    sink, the sink has the entry of the successor as ["Next"] and ["Scalar"]
    as ["NextInput"], and the exit is the exit of the successor. *)
Theorem Parallel_layout file fuel name sm Branches Next_ s r s' :
  States sm !! name = Some (Parallel Branches Next_) →
  _translate_state_machine file (S fuel) name sm s = Ok r s' →
  ∃ branches s1,
    mapM (translate_state_machine file fuel) Branches s = Ok branches s1 ∧
    let unum_parallel := length (heap s1) in
    let unum_parallel_sink := S (length (heap s1)) in
    let n := unum_parallel_counter s1 in
    Entry_unum_function r = unum_parallel ∧
    deref unum_parallel s' =
      named_next ("UnumParallel" +:+ pretty n)
        (NextNames ((fun b => name_of s' (Entry_unum_function b)) <$> branches))
        Scalar ∧
    match Next_ with
    | None =>
        unum_IR r = [unum_parallel] ++ (branches ≫= unum_IR) ++ [unum_parallel_sink] ∧
        Exit_unum_function r = unum_parallel_sink ∧
        deref unum_parallel_sink s' = named ("UnumParallelSink" +:+ pretty n)
    | Some next =>
        ∃ next_state s2 s3,
          _translate_state_machine file fuel next sm s2 = Ok next_state s3 ∧
          unum_IR r =
            [unum_parallel] ++ (branches ≫= unum_IR) ++ [unum_parallel_sink]
            ++ unum_IR next_state ∧
          Exit_unum_function r = Exit_unum_function next_state ∧
          deref unum_parallel_sink s' =
            named_next ("UnumParallelSink" +:+ pretty n)
              (NextName (name_of s' (Entry_unum_function next_state))) Scalar
    end.
Proof.
  intros Hst H.
  destruct (Parallel_lowering _ _ _ _ _ _ _ _ _ Hst H)
    as (bs' & s1' & Hbs' & HE & _ & _ & _ & _ & HN & _).
  destruct (Parallel_Ok _ _ _ _ _ _ _ _ _ Hst H)
    as (bs & s1 & s2 & Hbs & _ & _ & Hlen & Hother & Hexit & Hentry & Hsink & Hw).
  rewrite Hbs in Hbs'. injection Hbs' as <- <-.
  exists bs, s1. split; [done|]. simpl.
  assert (deref (length (heap s1)) s' =
          named_next ("UnumParallel" +:+ pretty (unum_parallel_counter s1))
            (NextNames ((fun b => name_of s' (Entry_unum_function b)) <$> bs)) Scalar) as He.
  { apply wire_successor_Ok in Hw
      as [(-> & -> & ->)|(next & nx & s3 & -> & Hnx & -> & _ & _ & _ & Hoth & Hs)].
    - rewrite Hentry in HN |- *. simpl in HN. injection HN as HN. by rewrite HN.
    - pose proof (proj1 (lowering_lowered file fuel) _ _ _ _ _ Hnx) as Hl3.
      rewrite Hoth, (deref_frame _ _ _ _ Hl3), Hentry in HN |- * by lia.
      simpl in HN. injection HN as HN. by rewrite HN. }
  split; [done|]. split; [done|].
  apply wire_successor_Ok in Hw
    as [(-> & -> & ->)|(next & nx & s3 & -> & Hnx & -> & _ & _ & _ & Hoth & Hs)]; simpl.
  - done.
  - pose proof (proj1 (lowering_lowered file fuel) _ _ _ _ _ Hnx) as Hl3.
    pose proof (rg_length _ _ _ (lw_region _ _ _ Hl3)) as Hlen3.
    pose proof (lowered_handle_bounds _ _ _ _ Hl3 (lw_entry _ _ _ Hl3)) as [? ?].
    exists nx, s2, s3. split; [done|]. split; [by rewrite <-!(assoc_L (++))|].
    split; [done|]. rewrite Hs by lia. unfold named_next. f_equal.
    + unfold name_of. by rewrite (deref_frame _ _ _ _ Hl3), Hsink by lia.
    + unfold name_of. by rewrite Hoth by lia.
    + by rewrite (deref_frame _ _ _ _ Hl3), Hsink by lia.
Qed.

Lemma Parallel_layout_witness :
  ∃ r s',
    _translate_state_machine None 3 "P" scenario3 initial_globals = Ok r s' ∧
    ∃ branches s1,
      mapM (translate_state_machine None 2) scenario3_branches initial_globals
        = Ok branches s1 ∧
      Entry_unum_function r = length (heap s1) ∧
      deref (length (heap s1)) s' =
        named_next ("UnumParallel" +:+ pretty (unum_parallel_counter s1))
          (NextNames ((fun b => name_of s' (Entry_unum_function b)) <$> branches))
          Scalar ∧
      unum_IR r =
        [length (heap s1)] ++ (branches ≫= unum_IR) ++ [S (length (heap s1))] ∧
      Exit_unum_function r = S (length (heap s1)) ∧
      deref (S (length (heap s1))) s' =
        named ("UnumParallelSink" +:+ pretty (unum_parallel_counter s1)).
Proof.
  assert (∃ r s', _translate_state_machine None 3 "P" scenario3 initial_globals = Ok r s')
    as (r & s' & H) by (eexists _, _; vm_compute; reflexivity).
  exists r, s'. split; [exact H|].
  assert (States scenario3 !! "P" = Some (Parallel scenario3_branches None)) as Hst
    by (vm_compute; reflexivity).
  exact (Parallel_layout None 2 "P" scenario3 scenario3_branches None
           initial_globals r s' Hst H).
Defined.

(** X9.  The fan-in list written on the exits of the branches of a Parallel
    state has one key per branch and no key twice, whatever the names of the
    exits are (two branches may end in functions of the same name): the
    index that ends a key tells the keys apart. *)
Theorem Parallel_fan_in_keys_are_distinct file fuel name sm Branches Next_ s r s' :
  States sm !! name = Some (Parallel Branches Next_) →
  _translate_state_machine file (S fuel) name sm s = Ok r s' →
  ∃ branches s1 keys,
    mapM (translate_state_machine file fuel) Branches s = Ok branches s1 ∧
    length keys = length Branches ∧
    NoDup keys ∧
    ∀ b, b ∈ branches →
         NextInput (deref (Exit_unum_function b) s') = Some (Fan_in keys).
Proof.
  intros Hst H.
  destruct (Parallel_lowering _ _ _ _ _ _ _ _ _ Hst H)
    as (bs & s1 & Hbs & _ & _ & _ & _ & _ & _ & _ & Hexits).
  eexists bs, s1, _. split_and!; [done| | |intros b Hb; by apply (Hexits b Hb)].
  - rewrite length_imap. by apply mapM_Ok_length in Hbs.
  - apply NoDup_imap_key. intros i j x y. apply unumIndex_key_inj.
Qed.

Lemma Parallel_fan_in_keys_are_distinct_witness :
  ∃ r s',
    _translate_state_machine None 3 "P" scenario3 initial_globals = Ok r s' ∧
    ∃ branches s1 keys,
      mapM (translate_state_machine None 2) scenario3_branches initial_globals
        = Ok branches s1 ∧
      length keys = length scenario3_branches ∧
      NoDup keys ∧
      ∀ b, b ∈ branches →
           NextInput (deref (Exit_unum_function b) s') = Some (Fan_in keys).
Proof.
  assert (∃ r s', _translate_state_machine None 3 "P" scenario3 initial_globals = Ok r s')
    as (r & s' & H) by (eexists _, _; vm_compute; reflexivity).
  exists r, s'. split; [exact H|].
  assert (States scenario3 !! "P" = Some (Parallel scenario3_branches None)) as Hst
    by (vm_compute; reflexivity).
  exact (Parallel_fan_in_keys_are_distinct None 2 "P" scenario3 scenario3_branches None
           initial_globals r s' Hst H).
Defined.

(** X10.  What a Map or Parallel state changes in the dictionaries its
    iterator or its branches returned. Of the dictionaries of the iterator
    only the exit is touched, and it keeps its name and gets its ["Next"]
    (the map sink) and its fan-in ["NextInput"]; all the others are, when
    the lowering of the Map state returns, as the iterator returned them.
    Likewise for a Parallel state: only the exits of the branches are
    touched, each gets the parallel sink as ["Next"] and the one list of
    keys as fan-in. *)
Theorem barriers_only_rewire_the_exits file fuel name sm s r s' :
  (∀ Iterator Next_,
     States sm !! name = Some (Map Iterator Next_) →
     _translate_state_machine file (S fuel) name sm s = Ok r s' →
     ∃ iterator s1,
       translate_state_machine file fuel Iterator s = Ok iterator s1 ∧
       let exit := Exit_unum_function iterator in
       (∀ h, h ∈ unum_IR iterator → h ≠ exit → deref h s' = deref h s1) ∧
       deref exit s' =
         fanned_in ("UnumMapSink" +:+ pretty (unum_map_counter s1))
                   [name_of s1 exit +:+ "-unumIndex-*"] (deref exit s1)) ∧
  (∀ Branches Next_,
     States sm !! name = Some (Parallel Branches Next_) →
     _translate_state_machine file (S fuel) name sm s = Ok r s' →
     ∃ branches s1,
       mapM (translate_state_machine file fuel) Branches s = Ok branches s1 ∧
       let keys :=
         imap (fun i b => name_of s1 (Exit_unum_function b) +:+ "-unumIndex-" +:+ pretty i)
              branches in
       (∀ h, h ∈ branches ≫= unum_IR → h ∉ Exit_unum_function <$> branches →
             deref h s' = deref h s1) ∧
       (∀ b, b ∈ branches →
             deref (Exit_unum_function b) s' =
             fanned_in ("UnumParallelSink" +:+ pretty (unum_parallel_counter s1)) keys
                       (deref (Exit_unum_function b) s1))).
Proof.
  split.
  - intros Iterator Next_ Hst H.
    destruct (Map_Ok _ _ _ _ _ _ _ _ _ Hst H)
      as (it & s1 & s2 & Hit & _ & _ & Hlen & Hother & Hexit & _ & _ & Hw).
    pose proof (proj2 (lowering_lowered file fuel) _ _ _ _ Hit) as Hl.
    assert (∀ h, h ∈ unum_IR it → deref h s' = deref h s2) as Hold.
    { intros h Hin. pose proof (lowered_handle_bounds _ _ _ _ Hl Hin) as [_ ?].
      apply (wire_successor_old _
               (fun next => proj1 (lowering_lowered file fuel) next sm)
               _ _ _ _ _ _ _ _ _ Hw); lia. }
    exists it, s1. split; [done|]. simpl. split.
    + intros h Hin Hne. rewrite Hold by done. apply Hother; [|done].
      by apply (lowered_handle_bounds _ _ _ _ Hl) in Hin as [_ ?].
    + rewrite Hold by apply Hl. done.
  - intros Branches Next_ Hst H.
    destruct (Parallel_Ok _ _ _ _ _ _ _ _ _ Hst H)
      as (bs & s1 & s2 & Hbs & _ & _ & Hlen & Hother & Hexit & _ & _ & Hw).
    pose proof (mapM_lowered _ (proj2 (lowering_lowered file fuel)) _ _ _ _ Hbs) as Hbl.
    assert (∀ h, h ∈ bs ≫= unum_IR → h < length (heap s1)) as Hlt.
    { intros h Hin.
      by pose proof (region_handle_bounds _ _ _ _ (bl_region _ _ _ Hbl) Hin) as [_ ?]. }
    assert (∀ h, h ∈ bs ≫= unum_IR → deref h s' = deref h s2) as Hold.
    { intros h Hin. pose proof (Hlt _ Hin).
      apply (wire_successor_old _
               (fun next => proj1 (lowering_lowered file fuel) next sm)
               _ _ _ _ _ _ _ _ _ Hw); lia. }
    exists bs, s1. split; [done|]. simpl. split.
    + intros h Hin Hne. rewrite Hold by done. apply Hother; [|done]. by apply Hlt.
    + intros b Hb. rewrite Hold; [by apply Hexit|].
      apply list_elem_of_bind. exists b. split; [|done].
      by apply (proj1 (Forall_forall _ _) (bl_exit _ _ _ Hbl)).
Qed.

Lemma barriers_only_rewire_the_exits_witness :
  (∃ r s' iterator s1,
     _translate_state_machine None 3 "M" Map_then_Task initial_globals = Ok r s' ∧
     translate_state_machine None 2 scenario2_iterator initial_globals
       = Ok iterator s1 ∧
     (∀ h, h ∈ unum_IR iterator → h ≠ Exit_unum_function iterator →
           deref h s' = deref h s1) ∧
     deref (Exit_unum_function iterator) s' =
       fanned_in ("UnumMapSink" +:+ pretty (unum_map_counter s1))
                 [name_of s1 (Exit_unum_function iterator) +:+ "-unumIndex-*"]
                 (deref (Exit_unum_function iterator) s1)) ∧
  (∃ r s' branches s1,
     _translate_state_machine None 3 "P" scenario3 initial_globals = Ok r s' ∧
     mapM (translate_state_machine None 2) scenario3_branches initial_globals
       = Ok branches s1 ∧
     (∀ h, h ∈ branches ≫= unum_IR → h ∉ Exit_unum_function <$> branches →
           deref h s' = deref h s1) ∧
     (∀ b, b ∈ branches →
           deref (Exit_unum_function b) s' =
           fanned_in ("UnumParallelSink" +:+ pretty (unum_parallel_counter s1))
             (imap (fun i b => name_of s1 (Exit_unum_function b)
                               +:+ "-unumIndex-" +:+ pretty i) branches)
             (deref (Exit_unum_function b) s1))).
Proof.
  split.
  - assert (∃ r s', _translate_state_machine None 3 "M" Map_then_Task initial_globals
                    = Ok r s')
      as (r & s' & H) by (eexists _, _; vm_compute; reflexivity).
    assert (States Map_then_Task !! "M" = Some (Map scenario2_iterator (Some "T")))
      as Hst by (vm_compute; reflexivity).
    destruct (proj1 (barriers_only_rewire_the_exits None 2 "M" Map_then_Task
                       initial_globals r s')
                scenario2_iterator (Some "T") Hst H) as (iterator & s1 & Hit & Hrest).
    exists r, s', iterator, s1. split; [exact H|]. split; [exact Hit|exact Hrest].
  - assert (∃ r s', _translate_state_machine None 3 "P" scenario3 initial_globals
                    = Ok r s')
      as (r & s' & H) by (eexists _, _; vm_compute; reflexivity).
    assert (States scenario3 !! "P" = Some (Parallel scenario3_branches None))
      as Hst by (vm_compute; reflexivity).
    destruct (proj2 (barriers_only_rewire_the_exits None 2 "P" scenario3
                       initial_globals r s')
                scenario3_branches None Hst H) as (branches & s1 & Hbs & Hrest).
    exists r, s', branches, s1. split; [exact H|]. split; [exact Hbs|exact Hrest].
Defined.

(** X11.  Names that name no state. When ["StartAt"] is not a key of
    ["States"], a run ends in the KeyError of that name before anything is
    created. When the ["Next"] of a Task (whose ["End"] is not true and
    whose name resolves) is not a key of ["States"], the lowering of the
    Task ends in the KeyError of that name, again with the program state as
    it was. *)
Theorem dangling_names_raise_KeyError file fuel sm s :
  (States sm !! StartAt sm = None →
   ∀ d, main file (S fuel) sm d s = Raise (KeyError (StartAt sm)) s) ∧
  (∀ name Resource End_ next u,
     States sm !! name = Some (Task Resource End_ (Some next)) →
     End_ ≠ Some true →
     States sm !! next = None →
     get_state_unum_function_name file Resource s = Ok u s →
     _translate_state_machine file (S (S fuel)) name sm s = Raise (KeyError next) s).
Proof.
  split.
  - intros Hst d. unfold main, mbind, M_bind. rewrite translate_state_machine_S.
    by rewrite Hst.
  - intros name Resource End_ next u Hst HEnd Hnext Hu.
    rewrite (Task_Next_S _ _ _ _ _ _ _ Hst HEnd). unfold mbind, M_bind. rewrite Hu.
    simpl. by rewrite Hnext.
Qed.

Lemma dangling_names_raise_KeyError_witness :
  (∀ d, main None 1 dangling_StartAt d initial_globals
        = Raise (KeyError "X") initial_globals) ∧
  _translate_state_machine None 2 "A" dangling_Next initial_globals
  = Raise (KeyError "Z") initial_globals.
Proof.
  assert (States dangling_StartAt !! StartAt dangling_StartAt = None) as Hstart
    by (vm_compute; reflexivity).
  assert (States dangling_Next !! "A" = Some (Task "f" None (Some "Z"))) as Hst
    by (vm_compute; reflexivity).
  assert (@None bool ≠ Some true) as HEnd by discriminate.
  assert (States dangling_Next !! "Z" = None) as Hnext by (vm_compute; reflexivity).
  assert (get_state_unum_function_name None "f" initial_globals = Ok "f" initial_globals)
    as Hu by (vm_compute; reflexivity).
  split.
  - exact (proj1 (dangling_names_raise_KeyError None 0 dangling_StartAt initial_globals)
             Hstart).
  - exact (proj2 (dangling_names_raise_KeyError None 0 dangling_Next initial_globals)
             "A" "f" None "Z" "f" Hst HEnd Hnext Hu).
Defined.

(** X12.  When the ["Next"] of a Map or of a Parallel state is not a key of
    ["States"], the KeyError of that name is raised late: the iterator (the
    branches) has been lowered, the two barrier dictionaries have been
    created and the counter has been advanced by then, and the exception
    leaves the program in that state. *)
Theorem dangling_successor_of_a_barrier file fuel name sm next s :
  States sm !! next = None →
  (∀ Iterator iterator s1,
     States sm !! name = Some (Map Iterator (Some next)) →
     translate_state_machine file (S fuel) Iterator s = Ok iterator s1 →
     ∃ s2,
       _translate_state_machine file (S (S fuel)) name sm s = Raise (KeyError next) s2 ∧
       unum_map_counter s2 = unum_map_counter s1 + 1 ∧
       length (heap s2) = S (S (length (heap s1)))) ∧
  (∀ Branches branches s1,
     States sm !! name = Some (Parallel Branches (Some next)) →
     mapM (translate_state_machine file (S fuel)) Branches s = Ok branches s1 →
     ∃ s2,
       _translate_state_machine file (S (S fuel)) name sm s = Raise (KeyError next) s2 ∧
       unum_parallel_counter s2 = unum_parallel_counter s1 + 1 ∧
       length (heap s2) = S (S (length (heap s1)))).
Proof.
  intros Hnext. split.
  - intros Iterator iterator s1 Hst Hit.
    cbn [_translate_state_machine]. rewrite Hst.
    unfold mbind, M_bind at 1. rewrite Hit.
    unfold wire_successor, mbind, M_bind.
    rewrite Hnext. simpl. eexists. split; [reflexivity|]. simpl.
    split; [done|]. rewrite !length_insert, !length_app. simpl. lia.
  - intros Branches branches s1 Hst Hbs.
    cbn [_translate_state_machine]. rewrite Hst.
    unfold mbind, M_bind at 1. rewrite Hbs.
    unfold mbind, M_bind at 1. unfold get_unum_parallel_counter at 1.
    unfold mbind, M_bind at 1. unfold get_entry_names at 1.
    unfold mbind, M_bind at 1. unfold new_dict at 1.
    unfold mbind, M_bind at 1. unfold new_dict at 1.
    unfold mbind, M_bind at 1. unfold incr_unum_parallel_counter at 1.
    unfold mbind, M_bind at 1. unfold parallel_fan_in_values at 1.
    unfold mbind, M_bind at 1.
    match goal with
    | |- context [for_b_in_branches ?v ?k ?b ?i ?st] =>
        destruct (for_b_in_branches_total v k b i st) as (ir' & s4 & -> & Hl & Hm & Hp)
    end.
    unfold wire_successor, mbind, M_bind.
    rewrite Hnext. eexists. split; [reflexivity|].
    simpl in *. rewrite Hl, Hp, !length_app. simpl. lia.
Qed.

Lemma dangling_successor_of_a_barrier_witness :
  (∃ iterator s1 s2,
     translate_state_machine None 2 scenario2_iterator initial_globals
       = Ok iterator s1 ∧
     _translate_state_machine None 3 "M" dangling_Map_Next initial_globals
       = Raise (KeyError "Z") s2 ∧
     unum_map_counter s2 = unum_map_counter s1 + 1 ∧
     length (heap s2) = S (S (length (heap s1)))) ∧
  (∃ branches s1 s2,
     mapM (translate_state_machine None 2) scenario3_branches initial_globals
       = Ok branches s1 ∧
     _translate_state_machine None 3 "P" dangling_Parallel_Next initial_globals
       = Raise (KeyError "Z") s2 ∧
     unum_parallel_counter s2 = unum_parallel_counter s1 + 1 ∧
     length (heap s2) = S (S (length (heap s1)))).
Proof.
  assert (States dangling_Map_Next !! "Z" = None) as HnextM by (vm_compute; reflexivity).
  assert (States dangling_Parallel_Next !! "Z" = None) as HnextP
    by (vm_compute; reflexivity).
  assert (States dangling_Map_Next !! "M" = Some (Map scenario2_iterator (Some "Z")))
    as HstM by (vm_compute; reflexivity).
  assert (States dangling_Parallel_Next !! "P"
          = Some (Parallel scenario3_branches (Some "Z")))
    as HstP by (vm_compute; reflexivity).
  assert (∃ iterator s1,
            translate_state_machine None 2 scenario2_iterator initial_globals
              = Ok iterator s1)
    as (iterator & s1 & Hit) by (eexists _, _; vm_compute; reflexivity).
  assert (∃ branches s1,
            mapM (translate_state_machine None 2) scenario3_branches initial_globals
              = Ok branches s1)
    as (branches & s1' & Hbs) by (eexists _, _; vm_compute; reflexivity).
  split.
  - destruct (proj1 (dangling_successor_of_a_barrier None 1 "M" dangling_Map_Next "Z"
                       initial_globals HnextM)
                scenario2_iterator iterator s1 HstM Hit) as (s2 & H).
    exists iterator, s1, s2. split; [exact Hit|exact H].
  - destruct (proj2 (dangling_successor_of_a_barrier None 1 "P" dangling_Parallel_Next "Z"
                       initial_globals HnextP)
                scenario3_branches branches s1' HstP Hbs) as (s2 & H).
    exists branches, s1', s2. split; [exact Hbs|exact H].
Defined.

(** X13.  Where the exceptions of the name resolution come from. When the
    lowering of a state machine, or of one of its states, ends in OSError,
    function-arn.yaml could not be opened; when it ends in the exception of
    [load_yaml], the file is not YAML; when it ends in AttributeError, the
    file holds no mapping; and when it ends in the ValueError of a resource,
    the file holds a mapping, the resource contains "arn:aws:lambda" and no
    entry of the mapping has it as value. Nothing is said here about the
    other exceptions of the lowering. *)
Theorem exceptions_of_the_lowering file fuel :
  (∀ sm s e s',
     translate_state_machine file fuel sm s = Raise e s' → explained_by file e) ∧
  (∀ name sm s e s',
     _translate_state_machine file fuel name sm s = Raise e s' → explained_by file e).
Proof.
  split.
  - intros sm s e s'. apply (proj2 (lowering_raises_only file fuel) sm s e s').
  - intros name sm s e s'. apply (proj1 (lowering_raises_only file fuel) name sm s e s').
Qed.

Lemma exceptions_of_the_lowering_witness :
  explained_by (Some NotAMapping) AttributeError ∧
  explained_by (Some (Mapping two_functions)) (ValueError "arn:aws:lambda:x").
Proof.
  assert (translate_state_machine (Some NotAMapping) 2 dangling_arn_Task initial_globals
          = Raise AttributeError initial_globals) as H1 by (vm_compute; reflexivity).
  assert (translate_state_machine (Some (Mapping two_functions)) 2 unknown_arn_Task
            initial_globals
          = Raise (ValueError "arn:aws:lambda:x") initial_globals) as H2
    by (vm_compute; reflexivity).
  split.
  - exact (proj1 (exceptions_of_the_lowering (Some NotAMapping) 2)
             dangling_arn_Task initial_globals AttributeError initial_globals H1).
  - exact (proj1 (exceptions_of_the_lowering (Some (Mapping two_functions)) 2)
             unknown_arn_Task initial_globals (ValueError "arn:aws:lambda:x")
             initial_globals H2).
Defined.

(** X14.  A chain of Task states that never reaches a terminal state: when
    every state of a set of names is a Task whose ["End"] is not true, whose
    name resolves and whose ["Next"] is again in the set, the lowering of
    any of these states returns neither an IR nor an exception, whatever
    depth of recursion it is given; nor does a run that starts at one of
    them. *)
Theorem endless_Task_chain_never_returns file sm (on_the_chain : string → Prop) :
  (∀ name, on_the_chain name →
     ∃ Resource End_ next u,
       States sm !! name = Some (Task Resource End_ (Some next)) ∧
       End_ ≠ Some true ∧
       resolve file Resource = inr u ∧
       on_the_chain next) →
  (∀ name, on_the_chain name →
     ∀ fuel s, _translate_state_machine file fuel name sm s = OutOfFuel) ∧
  (on_the_chain (StartAt sm) →
     ∀ fuel d s, main file fuel sm d s = OutOfFuel).
Proof.
  intros Hchain.
  assert (∀ fuel name s, on_the_chain name →
            _translate_state_machine file fuel name sm s = OutOfFuel) as Hloop.
  { induction fuel as [|fuel IH]; intros name s Hn; [done|].
    destruct (Hchain name Hn) as (Resource & End_ & next & u & Hst & HEnd & Hres & Hnx).
    rewrite (Task_Next_S _ _ _ _ _ _ _ Hst HEnd). unfold mbind, M_bind at 1.
    rewrite get_state_unum_function_name_resolve, Hres.
    unfold mbind, M_bind at 1. by rewrite IH. }
  split; [by intros name Hn fuel s; apply Hloop|].
  intros Hstart fuel d s. unfold main, mbind, M_bind.
  destruct fuel as [|fuel]; [done|]. rewrite translate_state_machine_S.
  destruct (Hchain _ Hstart) as (R & E & nx & u & -> & _). by rewrite Hloop.
Qed.

Lemma endless_Task_chain_never_returns_witness :
  main None 1000 two_cycle true initial_globals = OutOfFuel.
Proof.
  assert (∀ name, name = "A" ∨ name = "B" →
            ∃ Resource End_ next u,
              States two_cycle !! name = Some (Task Resource End_ (Some next)) ∧
              End_ ≠ Some true ∧
              resolve None Resource = inr u ∧
              (next = "A" ∨ next = "B")) as Hchain.
  { intros name [->| ->].
    - exists "f", None, "B", "f". split; [vm_compute; reflexivity|].
      split; [discriminate|]. split; [vm_compute; reflexivity|]. right. reflexivity.
    - exists "g", None, "A", "g". split; [vm_compute; reflexivity|].
      split; [discriminate|]. split; [vm_compute; reflexivity|]. left. reflexivity. }
  exact (proj2 (endless_Task_chain_never_returns None two_cycle
                  (fun name => name = "A" ∨ name = "B") Hchain)
           (or_introl eq_refl) 1000 true initial_globals).
Defined.

(** X15.  The depth of recursion that is available does not show in the
    outcome: a lowering, or a whole run, that ends within some depth (with
    an IR or with an exception) ends with the same result and in the same
    state within every larger depth. *)
Theorem a_larger_budget_changes_nothing file fuel fuel' sm d s :
  fuel ≤ fuel' →
  (translate_state_machine file fuel sm s ≠ OutOfFuel →
   translate_state_machine file fuel' sm s = translate_state_machine file fuel sm s) ∧
  (main file fuel sm d s ≠ OutOfFuel →
   main file fuel' sm d s = main file fuel sm d s).
Proof.
  intros Hle. destruct (agrees_beyond_fuel file fuel fuel' Hle) as [_ H2]. split.
  - apply H2.
  - unfold main. revert s. apply agrees_beyond_bind; [apply H2|].
    intros ?. apply agrees_beyond_refl.
Qed.

Lemma a_larger_budget_changes_nothing_witness :
  main None 9 nested_maps true initial_globals
  = main None 6 nested_maps true initial_globals.
Proof.
  assert (6 ≤ 9) as Hle by lia.
  assert (main None 6 nested_maps true initial_globals ≠ OutOfFuel) as Hne
    by (vm_compute; discriminate).
  exact (proj2 (a_larger_budget_changes_nothing None 6 9 nested_maps true
                  initial_globals Hle) Hne).
Defined.



(** X17.  Accounting of a successful lowering. The counters never decrease;
    the number of barrier dictionaries created is twice the number of
    counter values consumed (map and parallel counters together); the IR has
    one dictionary per Task dictionary and per barrier dictionary created;
    and the store has grown by exactly the dictionaries of the IR. *)
Theorem two_barriers_per_counter_value file fuel sm s r s' :
  translate_state_machine file fuel sm s = Ok r s' →
  unum_map_counter s ≤ unum_map_counter s' ∧
  unum_parallel_counter s ≤ unum_parallel_counter s' ∧
  length (barrier_handles (new_events s s')) =
    2 * (unum_map_counter s' - unum_map_counter s) +
    2 * (unum_parallel_counter s' - unum_parallel_counter s) ∧
  length (unum_IR r) =
    length (task_handles (new_events s s')) +
    length (barrier_handles (new_events s s')) ∧
  length (heap s') = length (heap s) + length (unum_IR r).
Proof.
  intros H. apply (proj2 (lowering_lowered file fuel)) in H as [Hr _ _ _ _].
  pose proof (rg_length _ _ _ Hr).
  split_and!; try apply Hr.
  - rewrite <-length_barrier_names, <-(rg_barrier_names _ _ _ Hr). by rewrite length_fmap.
  - by rewrite <-(rg_created _ _ _ Hr), length_app.
  - rewrite (rg_IR _ _ _ Hr), length_seq. lia.
Qed.

Lemma two_barriers_per_counter_value_witness :
  ∃ r s',
    translate_state_machine None 6 nested_maps initial_globals = Ok r s' ∧
    unum_map_counter initial_globals ≤ unum_map_counter s' ∧
    unum_parallel_counter initial_globals ≤ unum_parallel_counter s' ∧
    length (barrier_handles (new_events initial_globals s')) =
      2 * (unum_map_counter s' - unum_map_counter initial_globals) +
      2 * (unum_parallel_counter s' - unum_parallel_counter initial_globals) ∧
    length (unum_IR r) =
      length (task_handles (new_events initial_globals s')) +
      length (barrier_handles (new_events initial_globals s')) ∧
    length (heap s') = length (heap initial_globals) + length (unum_IR r).
Proof.
  assert (∃ r s', translate_state_machine None 6 nested_maps initial_globals = Ok r s')
    as (r & s' & H) by (eexists _, _; vm_compute; reflexivity).
  exists r, s'. split; [exact H|].
  exact (two_barriers_per_counter_value None 6 nested_maps initial_globals r s' H).
Defined.

(** X18.  The counters are never reset. When a Map state has been lowered
    and later, in a state whose map counter is not below the one the first
    lowering left, any Map state is lowered (of the same or of another state
    machine, in the same process), the two entries UnumMap[n] have different
    names. The same holds for Parallel states and the parallel counter. *)
Theorem barrier_names_are_not_reused file :
  (∀ fuel1 fuel2 name1 name2 sm1 sm2 It1 Nx1 It2 Nx2 s r1 s1 s2 r2 s3,
     States sm1 !! name1 = Some (Map It1 Nx1) →
     States sm2 !! name2 = Some (Map It2 Nx2) →
     _translate_state_machine file (S fuel1) name1 sm1 s = Ok r1 s1 →
     unum_map_counter s1 ≤ unum_map_counter s2 →
     _translate_state_machine file (S fuel2) name2 sm2 s2 = Ok r2 s3 →
     name_of s1 (Entry_unum_function r1) ≠ name_of s3 (Entry_unum_function r2)) ∧
  (∀ fuel1 fuel2 name1 name2 sm1 sm2 Bs1 Nx1 Bs2 Nx2 s r1 s1 s2 r2 s3,
     States sm1 !! name1 = Some (Parallel Bs1 Nx1) →
     States sm2 !! name2 = Some (Parallel Bs2 Nx2) →
     _translate_state_machine file (S fuel1) name1 sm1 s = Ok r1 s1 →
     unum_parallel_counter s1 ≤ unum_parallel_counter s2 →
     _translate_state_machine file (S fuel2) name2 sm2 s2 = Ok r2 s3 →
     name_of s1 (Entry_unum_function r1) ≠ name_of s3 (Entry_unum_function r2)).
Proof.
  split.
  - intros fuel1 fuel2 name1 name2 sm1 sm2 It1 Nx1 It2 Nx2 s r1 s1 s2 r2 s3
      Hst1 Hst2 H1 Hle H2.
    destruct (Map_lowering _ _ _ _ _ _ _ _ _ Hst1 H1)
      as (it1 & sa & Hit1 & HE1 & _ & _ & Hn1 & _).
    destruct (Map_lowering _ _ _ _ _ _ _ _ _ Hst2 H2)
      as (it2 & sb & Hit2 & HE2 & _ & _ & Hn2 & _).
    destruct (Map_Ok _ _ _ _ _ _ _ _ _ Hst1 H1)
      as (it1' & sa' & sa2 & Hit1' & Hm1 & _ & _ & _ & _ & _ & _ & Hw1).
    rewrite Hit1 in Hit1'. injection Hit1' as <- <-.
    assert (unum_map_counter sa2 ≤ unum_map_counter s1) as Hw1le.
    { apply wire_successor_Ok in Hw1
        as [(_ & -> & _)|(next & nx & sx & _ & Hnx & _ & -> & _)]; [done|].
      apply (proj1 (lowering_lowered file fuel1)) in Hnx. apply Hnx. }
    pose proof (rg_map_counter _ _ _
      (lw_region _ _ _ (proj2 (lowering_lowered file fuel2) _ _ _ _ Hit2))) as Hle2.
    rewrite HE1, HE2, Hn1, Hn2. simpl. intros [= E]. apply (inj (String.app _)), (inj (@pretty nat _)) in E. lia.
  - intros fuel1 fuel2 name1 name2 sm1 sm2 Bs1 Nx1 Bs2 Nx2 s r1 s1 s2 r2 s3
      Hst1 Hst2 H1 Hle H2.
    destruct (Parallel_lowering _ _ _ _ _ _ _ _ _ Hst1 H1)
      as (bs1 & sa & Hbs1 & HE1 & _ & _ & Hn1 & _).
    destruct (Parallel_lowering _ _ _ _ _ _ _ _ _ Hst2 H2)
      as (bs2 & sb & Hbs2 & HE2 & _ & _ & Hn2 & _).
    destruct (Parallel_Ok _ _ _ _ _ _ _ _ _ Hst1 H1)
      as (bs1' & sa' & sa2 & Hbs1' & _ & Hp1 & _ & _ & _ & _ & _ & Hw1).
    rewrite Hbs1 in Hbs1'. injection Hbs1' as <- <-.
    assert (unum_parallel_counter sa2 ≤ unum_parallel_counter s1) as Hw1le.
    { apply wire_successor_Ok in Hw1
        as [(_ & -> & _)|(next & nx & sx & _ & Hnx & _ & _ & -> & _)]; [done|].
      apply (proj1 (lowering_lowered file fuel1)) in Hnx. apply Hnx. }
    pose proof (rg_parallel_counter _ _ _
      (bl_region _ _ _ (mapM_lowered _ (proj2 (lowering_lowered file fuel2)) _ _ _ _ Hbs2)))
      as Hle2.
    rewrite HE1, HE2, Hn1, Hn2. simpl. intros [= E]. apply (inj (String.app _)), (inj (@pretty nat _)) in E. lia.
Qed.

Lemma barrier_names_are_not_reused_witness :
  ∃ r1 s1 r2 s3,
    _translate_state_machine None 3 "M" scenario2 initial_globals = Ok r1 s1 ∧
    _translate_state_machine None 3 "M" scenario2 s1 = Ok r2 s3 ∧
    name_of s1 (Entry_unum_function r1) ≠ name_of s3 (Entry_unum_function r2).
Proof.
  assert (∃ r1 s1, _translate_state_machine None 3 "M" scenario2 initial_globals
                   = Ok r1 s1)
    as (r1 & s1 & H1) by (eexists _, _; vm_compute; reflexivity).
  assert (∃ r2 s3, _translate_state_machine None 3 "M" scenario2 s1 = Ok r2 s3)
    as (r2 & s3 & H2).
  { vm_compute in H1. injection H1 as <- <-. eexists _, _. vm_compute. reflexivity. }
  exists r1, s1, r2, s3. split; [exact H1|]. split; [exact H2|].
  assert (States scenario2 !! "M" = Some (Map scenario2_iterator None)) as Hst
    by (vm_compute; reflexivity).
  assert (unum_map_counter s1 ≤ unum_map_counter s1) as Hle by lia.
  exact (proj1 (barrier_names_are_not_reused None) 2 2 "M" "M" scenario2 scenario2
           scenario2_iterator None scenario2_iterator None
           initial_globals r1 s1 s1 r2 s3 Hst Hst H1 Hle H2).
Defined.

(** X19.  A state machine made of Task states only is lowered independently
    of what ran before: a second lowering, started in the state the first
    one left behind, prints the same IR as the first, or ends in the same
    exception. *)
Theorem Tasks_only_twice file sm fuel s :
  Tasks_only sm →
  printed (translate_state_machine file fuel sm
             (state_after (translate_state_machine file fuel sm s) s))
  = printed (translate_state_machine file fuel sm s).
Proof.
  intros Hsm. destruct fuel as [|fuel]; [done|].
  rewrite translate_state_machine_S.
  destruct (States sm !! StartAt sm); [|done].
  destruct (Tasks_only_state_independent file _ Hsm fuel (StartAt sm))
    as [Hout|[(e & He)|(ir & en & Hok)]].
  - by rewrite !Hout.
  - by rewrite !He.
  - destruct (Hok s) as (r & s' & -> & HIR & _). simpl.
    destruct (Hok s') as (r2 & s2 & -> & HIR2 & _). simpl. by rewrite HIR, HIR2.
Qed.

Lemma Tasks_only_twice_witness :
  printed (translate_state_machine None 4 same_resource_twice
             (state_after (translate_state_machine None 4 same_resource_twice
                             initial_globals) initial_globals))
  = printed (translate_state_machine None 4 same_resource_twice initial_globals).
Proof.
  assert (Tasks_only same_resource_twice) as Hsm.
  { intros name st H. unfold same_resource_twice in H. simpl in H.
    apply lookup_insert_Some in H as [[_ <-]|[_ H]]; [by eauto|].
    apply lookup_singleton_Some in H as [_ <-]. by eauto. }
  exact (Tasks_only_twice None same_resource_twice 4 initial_globals Hsm).
Defined.

(** X20.  Whether a lowering, or a whole run, returns an IR, raises an
    exception or exhausts the recursion, and which exception it raises, does
    not depend on the state it starts in: neither on the values of the two
    counters nor on the dictionaries earlier runs have left. *)
Theorem outcome_does_not_depend_on_the_state file fuel sm d s1 s2 :
  same_kind (translate_state_machine file fuel sm s1)
            (translate_state_machine file fuel sm s2) ∧
  same_kind (main file fuel sm d s1) (main file fuel sm d s2).
Proof.
  pose proof (proj2 (lowering_state_blind file fuel) sm s1 s2) as H.
  split; [done|]. unfold main. apply same_kind_bind; [done|].
  intros r r' t1 t2. apply same_kind_bind; [apply same_kind_for_c_in_ir|]. done.
Qed.

(** X21.  What [main] adds to the lowering. A successful run is a successful
    lowering followed by the checkpoint pass; before the pass no dictionary
    of the IR has a ["Checkpoint"]; the pass gives every dictionary of the
    IR the ["Checkpoint"] of the policy and changes nothing else: names,
    ["Next"] and ["NextInput"] stay, dictionaries outside the IR stay, no
    dictionary is created and the counters are not touched. *)
Theorem checkpoint_pass_only_sets_Checkpoint file fuel sm d s r s' :
  main file fuel sm d s = Ok r s' →
  ∃ s1,
    translate_state_machine file fuel sm s = Ok r s1 ∧
    (∀ c, c ∈ IR_of r s1 → Checkpoint c = None) ∧
    IR_of r s' = (fun c => checkpointed (checkpoint_policy d c) c) <$> IR_of r s1 ∧
    (∀ h, h ∉ unum_IR r → deref h s' = deref h s1) ∧
    length (heap s') = length (heap s1) ∧
    unum_map_counter s' = unum_map_counter s1 ∧
    unum_parallel_counter s' = unum_parallel_counter s1.
Proof.
  intros H. unfold main in H. inv_bind H. inv_bind H. apply mret_Ok in H as [<- <-].
  pose proof (proj2 (lowering_lowered file fuel) _ _ _ _ Hstep) as Hl.
  pose proof (proj2 (lowering_wired file fuel) _ _ _ _ Hstep) as Hw.
  apply for_c_in_ir_Ok in Hstep0 as (Hlen & _ & Hm & Hp & Hd).
  exists s0. split_and!; try done.
  - intros c (h & -> & Hh)%list_elem_of_fmap. by apply Hw.
  - unfold IR_of. rewrite <-list_fmap_compose. apply list_fmap_ext.
    intros i h Hh. apply list_elem_of_lookup_2 in Hh. simpl.
    pose proof (lowered_handle_bounds _ _ _ _ Hl Hh) as [_ ?].
    by rewrite Hd, decide_True.
  - intros h Hh. rewrite Hd, decide_False; [done|]. by intros [? _].
Qed.

Lemma checkpoint_pass_only_sets_Checkpoint_witness :
  ∃ r s',
    main None 4 scenario3 false initial_globals = Ok r s' ∧
    ∃ s1,
      translate_state_machine None 4 scenario3 initial_globals = Ok r s1 ∧
      (∀ c, c ∈ IR_of r s1 → Checkpoint c = None) ∧
      IR_of r s' = (fun c => checkpointed (checkpoint_policy false c) c) <$> IR_of r s1 ∧
      (∀ h, h ∉ unum_IR r → deref h s' = deref h s1) ∧
      length (heap s') = length (heap s1) ∧
      unum_map_counter s' = unum_map_counter s1 ∧
      unum_parallel_counter s' = unum_parallel_counter s1.
Proof.
  assert (∃ r s', main None 4 scenario3 false initial_globals = Ok r s')
    as (r & s' & H) by (eexists _, _; vm_compute; reflexivity).
  exists r, s'. split; [exact H|].
  exact (checkpoint_pass_only_sets_Checkpoint None 4 scenario3 false initial_globals
           r s' H).
Defined.

(** X22.  The shape of the printed IR. The list a successful run prints is
    not empty; its first dictionary is the entry and its last one the exit;
    the exit has neither ["Next"] nor ["NextInput"]; and every dictionary
    before the last has both, in one of four shapes: a name with ["Scalar"],
    a name with ["Map"], a name with a fan-in, or a list of names with
    ["Scalar"]. *)
Theorem printed_IR_ends_in_the_only_open_node file fuel sm d s r s' :
  main file fuel sm d s = Ok r s' →
  ∃ front,
    IR_of r s' = front ++ [deref (Exit_unum_function r) s'] ∧
    head (IR_of r s') = Some (deref (Entry_unum_function r) s') ∧
    Next (deref (Exit_unum_function r) s') = None ∧
    NextInput (deref (Exit_unum_function r) s') = None ∧
    Forall continuation_ok front.
Proof.
  intros H. apply main_deref in H as (s1 & Ht & Hd).
  pose proof (proj2 (lowering_lowered file fuel) _ _ _ _ Ht) as Hl.
  pose proof (proj2 (lowering_wired file fuel) _ _ _ _ Ht) as [Hh Hlast _ Hk].
  pose proof (NoDup_unum_IR _ _ _ Hl) as Hnd.
  apply last_Some in Hlast as [fr Hfr].
  exists ((fun h => deref h s') <$> fr). unfold IR_of. split_and!.
  - by rewrite Hfr, map_app.
  - destruct (unum_IR r) as [|h0 l]; [done|]. simpl in *. congruence.
  - rewrite Hd by apply Hl. simpl. apply Hl.
  - rewrite Hd by apply Hl. simpl. apply Hl.
  - apply Forall_fmap, Forall_forall. intros h Hin. simpl.
    rewrite Hfr in Hnd, Hd, Hk.
    apply NoDup_app in Hnd as (_ & Hdisj & _).
    rewrite Hd by (apply elem_of_app; by left).
    apply (Hk h); [apply elem_of_app; by left|].
    intros ->. apply (Hdisj _ Hin). by left.
Qed.

Lemma printed_IR_ends_in_the_only_open_node_witness :
  ∃ r s',
    main None 4 scenario3 false initial_globals = Ok r s' ∧
    ∃ front,
      IR_of r s' = front ++ [deref (Exit_unum_function r) s'] ∧
      head (IR_of r s') = Some (deref (Entry_unum_function r) s') ∧
      Next (deref (Exit_unum_function r) s') = None ∧
      NextInput (deref (Exit_unum_function r) s') = None ∧
      Forall continuation_ok front.
Proof.
  assert (∃ r s', main None 4 scenario3 false initial_globals = Ok r s')
    as (r & s' & H) by (eexists _, _; vm_compute; reflexivity).
  exists r, s'. split; [exact H|].
  exact (printed_IR_ends_in_the_only_open_node None 4 scenario3 false initial_globals
           r s' H).
Defined.

(** X23.  The printed IR is closed: every name in the ["Next"] of a
    dictionary of the IR a successful run prints, be it a single name or one
    of a list of names, is the name of a dictionary of that IR. *)
Theorem printed_IR_is_closed file fuel sm d s r s' :
  main file fuel sm d s = Ok r s' →
  ∀ c, c ∈ IR_of r s' → ∀ n, n ∈ next_names c → n ∈ names_of r s'.
Proof.
  intros H. apply main_deref in H as (s1 & Ht & Hd).
  pose proof (proj2 (lowering_closed file fuel) _ _ _ _ Ht) as Hc.
  intros c Hin n Hn. unfold IR_of in Hin.
  apply list_elem_of_fmap in Hin as (h & -> & Hin).
  rewrite Hd in Hn by done.
  destruct (Hc h Hin n Hn) as (h' & Hin' & <-).
  unfold names_of, IR_of. apply list_elem_of_fmap.
  exists (deref h' s'). split; [by rewrite Hd|].
  apply list_elem_of_fmap. by exists h'.
Qed.

Lemma printed_IR_is_closed_witness :
  ∃ r s',
    main None 4 scenario3 false initial_globals = Ok r s' ∧
    ∀ c, c ∈ IR_of r s' → ∀ n, n ∈ next_names c → n ∈ names_of r s'.
Proof.
  assert (∃ r s', main None 4 scenario3 false initial_globals = Ok r s')
    as (r & s' & H) by (eexists _, _; vm_compute; reflexivity).
  exists r, s'. split; [exact H|].
  exact (printed_IR_is_closed None 4 scenario3 false initial_globals r s' H).
Defined.
